(** * GSN common utilities: fee negotiation and the race with grace period

    A shallow embedding of
    - [adjustGasCostParameterUp] and [adjustRelayRequestForPingResponse]
      (packages/common/src/Utils.ts, lines 476-516),
    - [waitForSuccess] (packages/common/src/Utils.ts, lines 424-465),
    - the gas price fetcher exercised by test/relayserver/GasPriceFetcher.test.ts,
    together with the properties the specification states about them. *)

From Stdlib Require Import ZArith QArith Qround Qpower Qreduction Lia Lqa Ascii String Sorted.
From stdpp Require Import gmap strings list fin_maps.

Local Open Scope Z_scope.

(** ** JavaScript numbers

    A JavaScript [number] is a double (IEEE 754 binary64): a rational of
    the form [k * 2 ^ j] with less than 54 bits in [k] and [j] from -1074 to
    971, an infinity, or NaN.  The result of an arithmetic operation is the
    exact result rounded to the nearest double, a tie going to the even
    one ([double]).  The two zeros are one value here: nothing below
    divides by a computed zero or looks at its sign. *)

Module JS.

Inductive number : Type :=
  | Finite (q : Q)
  | PosInf
  | NegInf
  | NaN.

(** An integer seen as a JavaScript number (a double when it has less than
    54 bits). *)
Definition Int (z : Z) : number := Finite (inject_Z z).

(** [Number.isSafeInteger]. *)
Definition isSafeInteger (z : Z) : Prop := Z.abs z < 2 ^ 53.

(** [2 ^ k] for an integer [k] of either sign. *)
Definition pow2 (k : Z) : Q := (2 ^ k)%Q.

(** The exponent of a positive rational [x]: the [e] with
    [2 ^ e <= x < 2 ^ (e + 1)]. *)
Definition exponent (x : Q) : Z :=
  let e := Z.log2 (Qnum x) - Z.log2 (Zpos (Qden x)) in
  if Qle_bool (pow2 e) x then e else e - 1.

(** The integer nearest to [s], a tie going to the even one. *)
Definition nearestEven (s : Q) : Z :=
  let f := Qfloor s in
  match (s - inject_Z f ?= 1 # 2)%Q with
  | Lt => f
  | Gt => f + 1
  | Eq => if Z.even f then f else f + 1
  end.

(** The spacing of the doubles around a positive [x]: 53 significant bits,
    and the spacing [2 ^ -1074] of the subnormal numbers below
    [2 ^ -1022]. *)
Definition ulp (x : Q) : Q := pow2 (Z.max (exponent x) (-1022) - 52).

(** The multiple of that spacing nearest to a positive [x]. *)
Definition nearestDouble (x : Q) : Q :=
  (inject_Z (nearestEven (x / ulp x)) * ulp x)%Q.

(** The double a real result is rounded to; from [2 ^ 1024] on the rounded
    value overflows to an infinity. *)
Definition double (x : Q) : number :=
  match (x ?= 0)%Q with
  | Eq => Finite 0
  | Gt =>
      let r := nearestDouble x in
      if Qle_bool (pow2 1024) r then PosInf else Finite (Qred r)
  | Lt =>
      let r := nearestDouble (- x) in
      if Qle_bool (pow2 1024) r then NegInf else Finite (Qred (- r))
  end.

(** [a >= b]: false as soon as one side is NaN. *)
Definition ge (a b : number) : bool :=
  match a, b with
  | NaN, _ | _, NaN => false
  | PosInf, _ => true
  | _, NegInf => true
  | NegInf, _ => false
  | _, PosInf => false
  | Finite p, Finite q => Qle_bool q p
  end.

(** [a - b]. *)
Definition sub (a b : number) : number :=
  match a, b with
  | NaN, _ | _, NaN => NaN
  | PosInf, PosInf | NegInf, NegInf => NaN
  | PosInf, _ | _, NegInf => PosInf
  | NegInf, _ | _, PosInf => NegInf
  | Finite p, Finite q => double (p - q)
  end.

(** [a + b]. *)
Definition add (a b : number) : number :=
  match a, b with
  | NaN, _ | _, NaN => NaN
  | PosInf, NegInf | NegInf, PosInf => NaN
  | PosInf, _ | _, PosInf => PosInf
  | NegInf, _ | _, NegInf => NegInf
  | Finite p, Finite q => double (p + q)
  end.

(** Sign of a rational, as a comparison with zero. *)
Definition sgn (q : Q) : comparison := (0 ?= q)%Q.

(** An infinity multiplied or divided by a finite value of sign [s]. *)
Definition scaleInf (positive : bool) (s : comparison) : number :=
  match s with
  | Eq => NaN
  | Lt => if positive then PosInf else NegInf
  | Gt => if positive then NegInf else PosInf
  end.

(** [a * b]. *)
Definition mul (a b : number) : number :=
  match a, b with
  | NaN, _ | _, NaN => NaN
  | Finite p, Finite q => double (p * q)
  | PosInf, Finite q | Finite q, PosInf => scaleInf true (sgn q)
  | NegInf, Finite q | Finite q, NegInf => scaleInf false (sgn q)
  | PosInf, PosInf | NegInf, NegInf => PosInf
  | PosInf, NegInf | NegInf, PosInf => NegInf
  end.

(** [a / b]: a non-zero value over zero is an infinity, zero over zero is NaN. *)
Definition div (a b : number) : number :=
  match a, b with
  | NaN, _ | _, NaN => NaN
  | Finite p, Finite q =>
      if Qeq_bool q 0 then scaleInf true (sgn p) else double (p / q)
  | Finite _, _ => Finite 0
  | PosInf, Finite q => if Qle_bool 0 q then PosInf else NegInf
  | NegInf, Finite q => if Qle_bool 0 q then NegInf else PosInf
  | _, _ => NaN
  end.

(** [Math.round]: the nearest integer, a tie going up: floor (x + 1/2),
    which is a double whenever [x] is one. *)
Definition round (a : number) : number :=
  match a with
  | Finite q => Int (Qfloor (q + (1 # 2)))
  | other => other
  end.

(** [Math.floor]. *)
Definition floor (a : number) : number :=
  match a with
  | Finite q => Int (Qfloor q)
  | other => other
  end.

(** [Math.max] of two numbers: NaN when either is NaN. *)
Definition max (a b : number) : number :=
  match a, b with
  | NaN, _ | _, NaN => NaN
  | PosInf, _ | _, PosInf => PosInf
  | NegInf, x | x, NegInf => x
  | Finite p, Finite q => if Qle_bool p q then Finite q else Finite p
  end.

End JS.

Import JS.

(** ** Fee negotiation (Utils.ts, lines 471-516) *)

Record Adjusted : Type := mkAdjusted {
  newValue : number;
  deltaPercent : number
}.

(** [adjustGasCostParameterUp (clientInput, pingResponseMinimum)]. *)
Definition adjustGasCostParameterUp (clientInput pingResponseMinimum : number)
  : Adjusted :=
  if ge clientInput pingResponseMinimum then
    {| newValue := clientInput; deltaPercent := Int 0 |}
  else
    let deltaPercent :=
      round (div (mul (sub pingResponseMinimum clientInput) (Int 100)) clientInput) in
    {| newValue := pingResponseMinimum; deltaPercent := deltaPercent |}.

(** *** [parseInt] on strings

    [parseInt (s)] without a radix: leading white space is skipped, an optional
    sign is read, a [0x]/[0X] prefix selects radix 16 (radix 10 otherwise), and
    the longest prefix of digits of that radix is read; its value, rounded to
    a double, is the result; no digit at all gives NaN.  (Past the twentieth
    significant decimal digit an engine may read a digit as 0: such strings
    are outside what is proved here.) *)

Definition isWhiteSpace (c : ascii) : bool :=
  let n := nat_of_ascii c in
  ((9 <=? n)%nat && (n <=? 13)%nat) || (n =? 32)%nat.

Fixpoint skipWhiteSpace (s : string) : string :=
  match s with
  | String c rest => if isWhiteSpace c then skipWhiteSpace rest else s
  | EmptyString => s
  end.

Definition digitValue (c : ascii) : option Z :=
  let n := Z.of_nat (nat_of_ascii c) in
  if (48 <=? n) && (n <=? 57) then Some (n - 48)
  else if (97 <=? n) && (n <=? 122) then Some (n - 87)
  else if (65 <=? n) && (n <=? 90) then Some (n - 55)
  else None.

(** The value of the longest prefix of [s] made of digits of [radix];
    [acc] is the value read so far ([None]: no digit yet). *)
Fixpoint parseDigits (radix : Z) (acc : option Z) (s : string) : option Z :=
  match s with
  | String c rest =>
      match digitValue c with
      | Some d =>
          if d <? radix
          then parseDigits radix (Some (default 0 acc * radix + d)) rest
          else acc
      | None => acc
      end
  | EmptyString => acc
  end.

Definition stripSign (s : string) : Z * string :=
  match s with
  | String "-" rest => (-1, rest)
  | String "+" rest => (1, rest)
  | _ => (1, s)
  end.

Definition stripRadixPrefix (s : string) : Z * string :=
  match s with
  | String "0" (String "x" rest) | String "0" (String "X" rest) => (16, rest)
  | _ => (10, s)
  end.

Definition parseInt (s : string) : number :=
  let '(sign, s1) := stripSign (skipWhiteSpace s) in
  let '(radix, s2) := stripRadixPrefix s1 in
  match parseDigits radix None s2 with
  | Some v => double (inject_Z (sign * v))
  | None => NaN
  end.

(** *** [adjustRelayRequestForPingResponse] *)

Record EIP1559Fees : Type := mkFees {
  maxFeePerGas : string;
  maxPriorityFeePerGas : string
}.

Record PingResponse : Type := mkPing {
  minMaxPriorityFeePerGas : string;
  minMaxFeePerGas : string
}.

Record PartialRelayInfo : Type := mkRelayInfo {
  pingResponse : PingResponse
}.

Record RelaySelectionResult : Type := mkSelection {
  relayInfo : PartialRelayInfo;
  maxDeltaPercent : number;
  updatedGasFees : EIP1559Fees
}.

Section AdjustRelayRequest.

(** [toHex] comes from web3js/Web3JSUtils, which is outside the sources at
    hand: it is a parameter of the development. *)
Variable toHex : number -> string.

Definition adjustRelayRequestForPingResponse
    (feesIn : EIP1559Fees) (relayInfo : PartialRelayInfo) : RelaySelectionResult :=
  let maxPriorityFeePerGas :=
    adjustGasCostParameterUp
      (parseInt feesIn.(maxPriorityFeePerGas))
      (parseInt relayInfo.(pingResponse).(minMaxPriorityFeePerGas)) in
  let maxFeePerGas :=
    adjustGasCostParameterUp
      (parseInt feesIn.(maxFeePerGas))
      (parseInt relayInfo.(pingResponse).(minMaxFeePerGas)) in
  let updatedGasFees :=
    {| maxPriorityFeePerGas := toHex maxPriorityFeePerGas.(newValue);
       maxFeePerGas := toHex maxFeePerGas.(newValue) |} in
  let maxDeltaPercent :=
    JS.max maxFeePerGas.(deltaPercent) maxPriorityFeePerGas.(deltaPercent) in
  {| relayInfo := relayInfo;
     maxDeltaPercent := maxDeltaPercent;
     updatedGasFees := updatedGasFees |}.

End AdjustRelayRequest.

(** A hexadecimal printer for non-negative integers, used to run
    [adjustRelayRequestForPingResponse] on concrete inputs. *)
Definition hexDigit (d : Z) : ascii :=
  ascii_of_nat (Z.to_nat (if d <? 10 then 48 + d else 87 + d)).

Fixpoint hexDigits (fuel : nat) (n : Z) (acc : string) : string :=
  match fuel with
  | O => acc
  | S fuel' =>
      let acc' := String (hexDigit (n mod 16)) acc in
      if n / 16 =? 0 then acc' else hexDigits fuel' (n / 16) acc'
  end.

Definition hexOfNumber (x : number) : string :=
  match x with
  | Finite q =>
      let n := Qfloor q in
      ("0x" +:+ hexDigits (S (Z.to_nat (Z.log2 n))) n EmptyString)%string
  | _ => "NaN"%string
  end.

(** The real-valued quotient [(m - c) * 100 / c] of the specification. *)
Definition quotient (c m : Z) : Q := (inject_Z ((m - c) * 100) / inject_Z c)%Q.

(** A sample negotiation: both client values are 100, the server asks for
    at least 110 and 150 (written in hexadecimal). *)
Definition sampleFees : EIP1559Fees :=
  {| maxFeePerGas := "100"; maxPriorityFeePerGas := "100" |}.

Definition sampleRelay : PartialRelayInfo :=
  {| pingResponse := {| minMaxPriorityFeePerGas := "110"; minMaxFeePerGas := "0x96" |} |}.

(** ** The race with grace period: [waitForSuccess] (Utils.ts, lines 405-465) *)

(** A JavaScript [Error], reduced to its message. *)
Record Error : Type := mkError { message : string }.

(** A promise handed to [waitForSuccess] is described by its fate: when it
    settles, counted in milliseconds from the call (0: settled already), and
    with what; or that it never settles. *)
Inductive Promise (T : Type) : Type :=
  | Fulfils (at_ms : nat) (value : T)
  | Rejects (at_ms : nat) (reason : Error)
  | Forever.

Arguments Fulfils {T} at_ms value.
Arguments Rejects {T} at_ms reason.
Arguments Forever {T}.

Definition settleTime {T} (p : Promise T) : option nat :=
  match p with
  | Fulfils t _ | Rejects t _ => Some t
  | Forever => None
  end.

(** [errorKeys.indexOf (key)]: the index of the first element strictly equal
    to [key], counted from [i]; -1 when there is none. *)
Fixpoint indexOfFrom (i : Z) (l : list string) (key : string) : Z :=
  match l with
  | [] => -1
  | k :: rest => if String.eqb k key then i else indexOfFrom (i + 1) rest key
  end.

Definition indexOf (l : list string) (key : string) : Z := indexOfFrom 0 l key.

(** The loop of lines 431-436, from index [i] on ([todo] is what is left of
    [errorKeys] at [i]): [false] as soon as [indexOf (errorKeys[i]) !== i]. *)
Fixpoint uniqueKeysFrom (errorKeys : list string) (i : nat) (todo : list string) : bool :=
  match todo with
  | [] => true
  | key :: rest =>
      if indexOf errorKeys key =? Z.of_nat i
      then uniqueKeysFrom errorKeys (S i) rest
      else false
  end.

Definition uniqueKeys (errorKeys : list string) : bool :=
  uniqueKeysFrom errorKeys 0 errorKeys.

(** Progress of the chain [promises[i].then(..).catch(..).finally(..)]. *)
Inductive Chain : Type :=
  | Subscribed   (* callbacks attached, promise not settled yet *)
  | Handled      (* the then or the catch callback has run, finally is queued *)
  | Finished.    (* the finally callback has run *)

Global Instance Chain_eq_dec : EqDecision Chain.
Proof. solve_decision. Defined.

Section Race.

Context {T : Type}.

(** The object [ret] of line 438, the state of the promise returned by
    [new Promise], and the event loop around them.  [resolved] records that
    [resolve (ret)] was called: from then on the caller holds [ret] itself,
    the same object the callbacks keep writing to. *)
Record State : Type := mkState {
  results : list T;
  errors : gmap string Error;
  resolved : bool;
  timers : list nat;       (* deadlines of the pending [setTimeout]s *)
  now : nat;               (* the clock, in milliseconds since the call *)
  chains : list Chain
}.

(** What the caller reads through the reference it was given, when it looks
    at the outcome in state [st]. *)
Definition observed (st : State) : option (list T * gmap string Error) :=
  if st.(resolved) then Some (st.(results), st.(errors)) else None.

Inductive Invocation : Type :=
  | Throws (e : Error)    (* the async body threw: the returned promise is rejected *)
  | Races (st : State).   (* the executor ran and left the race in state [st] *)

Variable promises : list (Promise T).
Variable errorKeys : list string.
Variable graceTime : nat.

(** [complete ()]: [resolve (ret)]. *)
Definition complete (st : State) : State :=
  mkState st.(results) st.(errors) true st.(timers) st.(now) st.(chains).

(** The [then] callback, lines 449-454. *)
Definition thenCallback (result : T) (st : State) : State :=
  let results' := st.(results) ++ [result] in
  let timers' :=
    if (length results' =? 1)%nat
    then st.(timers) ++ [(st.(now) + graceTime)%nat]
    else st.(timers) in
  mkState results' st.(errors) st.(resolved) timers' st.(now) st.(chains).

(** The [catch] callback, lines 455-457. *)
Definition catchCallback (key : string) (err : Error) (st : State) : State :=
  mkState st.(results) (<[key := err]> st.(errors)) st.(resolved)
          st.(timers) st.(now) st.(chains).

(** The [finally] callback, lines 458-462. *)
Definition finallyCallback (st : State) : State :=
  if (length st.(results) + size st.(errors) =? length promises)%nat
  then complete st
  else st.

Definition setChain (i : nat) (c : Chain) (st : State) : State :=
  mkState st.(results) st.(errors) st.(resolved) st.(timers) st.(now)
          (<[i := c]> st.(chains)).

Definition setTimers (ts : list nat) (st : State) : State :=
  mkState st.(results) st.(errors) st.(resolved) ts st.(now) st.(chains).

Definition setNow (t : nat) (st : State) : State :=
  mkState st.(results) st.(errors) st.(resolved) st.(timers) t st.(chains).

(** A [finally] callback is waiting in the microtask queue. *)
Definition microtasksPending (st : State) : bool :=
  bool_decide (Handled ∈ st.(chains)).

(** No subscribed promise settles before [t]. *)
Definition noSettlementBefore (t : nat) (st : State) : bool :=
  forallb
    (fun cp : Chain * Promise T =>
       match cp with
       | (Subscribed, p) =>
           match settleTime p with
           | Some s => (t <=? s)%nat
           | None => true
           end
       | _ => true
       end)
    (zip st.(chains) promises).

(** What the event loop can do next. *)
Inductive Event : Type :=
  | Settle (i : nat)     (* promise [i] settles: its then / catch callback runs *)
  | Finally (i : nat)    (* the finally callback of chain [i] runs *)
  | Timeout              (* the oldest pending timer fires *)
  | Advance (t : nat).   (* the clock moves to [t] *)

(** One turn of the event loop.  Callbacks of a promise run at the instant
    it settles; a timer callback is a macrotask, it runs once its deadline
    is reached and the microtask queue is empty; the clock does not move
    past a pending deadline or settlement.  [None]: the event cannot happen
    in this state. *)
Definition step (st : State) (ev : Event) : option State :=
  match ev with
  | Settle i =>
      match st.(chains) !! i, promises !! i, errorKeys !! i with
      | Some Subscribed, Some (Fulfils t result), _ =>
          if (t =? st.(now))%nat
          then Some (setChain i Handled (thenCallback result st))
          else None
      | Some Subscribed, Some (Rejects t err), Some key =>
          if (t =? st.(now))%nat
          then Some (setChain i Handled (catchCallback key err st))
          else None
      | _, _, _ => None
      end
  | Finally i =>
      match st.(chains) !! i with
      | Some Handled => Some (setChain i Finished (finallyCallback st))
      | _ => None
      end
  | Timeout =>
      match st.(timers) with
      | deadline :: rest =>
          if (deadline <=? st.(now))%nat && negb (microtasksPending st)
          then Some (complete (setTimers rest st))
          else None
      | [] => None
      end
  | Advance t =>
      if (st.(now) <? t)%nat
         && negb (microtasksPending st)
         && forallb (fun deadline => (t <=? deadline)%nat) st.(timers)
         && noSettlementBefore t st
      then Some (setNow t st)
      else None
  end.

(** A run of the event loop. *)
Fixpoint exec (st : State) (trace : list Event) : option State :=
  match trace with
  | [] => Some st
  | ev :: rest =>
      match step st ev with
      | Some st' => exec st' rest
      | None => None
      end
  end.

(** The state in which the race is first reported finished: the first state
    of the run in which [resolve (ret)] has been called. *)
Fixpoint firstResolved (st : State) (trace : list Event) : option State :=
  if st.(resolved) then Some st
  else match trace with
       | [] => None
       | ev :: rest =>
           match step st ev with
           | Some st' => firstResolved st' rest
           | None => None
           end
       end.

(** The executor of line 437: a fresh [ret], and the three callbacks
    attached to every promise. *)
Definition executor : State :=
  {| results := [];
     errors := ∅;
     resolved := false;
     timers := [];
     now := 0%nat;
     chains := replicate (length promises) Subscribed |}.

End Race.

Arguments State : clear implicits.
Arguments Invocation : clear implicits.

(** [waitForSuccess (promises, errorKeys, graceTime)], up to the moment the
    call returns: either one of the two checks throws, or the executor has
    run.  [graceTime] is only read later, by the [then] callback. *)
Definition waitForSuccess {T} (promises : list (Promise T)) (errorKeys : list string)
    (graceTime : nat) : Invocation T :=
  if negb (length promises =? length errorKeys)%nat then
    Throws (mkError "Invalid errorKeys length")
  else if negb (uniqueKeys errorKeys) then
    Throws (mkError "waitForSuccess: duplicate relay URL keys, aborting")
  else
    Races (executor promises).

(** The promises [waitForSuccess] has attached callbacks to. *)
Definition subscribed {T} (inv : Invocation T) : nat :=
  match inv with
  | Throws _ => 0%nat
  | Races st => length st.(chains)
  end.

(** *** Reading a run *)

(** The promises whose then / catch callback ran during a run, in the order
    in which they ran. *)
Fixpoint settled (trace : list Event) : list nat :=
  match trace with
  | [] => []
  | Settle i :: rest => i :: settled rest
  | _ :: rest => settled rest
  end.

Definition valueOf {T} (p : Promise T) : option T :=
  match p with
  | Fulfils _ v => Some v
  | _ => None
  end.

Definition reasonOf {T} (p : Promise T) : option Error :=
  match p with
  | Rejects _ e => Some e
  | _ => None
  end.

(** The values of the fulfilled promises among [order], in that order. *)
Definition successValues {T} (promises : list (Promise T)) (order : list nat) : list T :=
  omap (fun i => promises !! i ≫= valueOf) order.

(** The reasons of the rejected promises among [order], in that order. *)
Definition failureReasons {T} (promises : list (Promise T)) (order : list nat)
  : list Error :=
  omap (fun i => promises !! i ≫= reasonOf) order.

(** The instant of the first success: the least fulfilment time. *)
Fixpoint firstSuccess {T} (promises : list (Promise T)) : option nat :=
  match promises with
  | [] => None
  | p :: rest =>
      match p, firstSuccess rest with
      | Fulfils t _, Some t' => Some (Nat.min t t')
      | Fulfils t _, None => Some t
      | _, earliest => earliest
      end
  end.

(** The instant at which every promise has settled: the greatest settlement
    time, provided no promise stays pending forever. *)
Fixpoint lastSettlement {T} (promises : list (Promise T)) : option nat :=
  match promises with
  | [] => Some 0%nat
  | p :: rest =>
      match settleTime p, lastSettlement rest with
      | Some t, Some t' => Some (Nat.max t t')
      | _, _ => None
      end
  end.

(** The instant at which the race is reported finished: the earlier of the
    grace timer ([graceTime] after the first success) and the last
    settlement; never, when nothing succeeds and some promise stays pending,
    or when there is no promise at all. *)
Definition resolutionTime {T} (promises : list (Promise T)) (graceTime : nat)
  : option nat :=
  match promises with
  | [] => None
  | _ =>
      match firstSuccess promises, lastSettlement promises with
      | Some t0, Some tAll => Some (Nat.min (t0 + graceTime) tAll)
      | Some t0, None => Some (t0 + graceTime)%nat
      | None, Some tAll => Some tAll
      | None, None => None
      end
  end.

(** *** Invariants of a run

    [promises], [errorKeys] and [graceTime] are the arguments of the call. *)

Section Invariants.

Context {T : Type}.
Variable promises : list (Promise T).
Variable errorKeys : list string.
Variable graceTime : nat.

(** The books of a run: which chains have moved, and what was recorded. *)
Record Books (tr : list Event) (st : State T) : Prop := mkBooks {
  book_chains : length (chains st) = length promises;
  book_settled : forall i,
      i ∈ settled tr <-> exists c, chains st !! i = Some c /\ c <> Subscribed;
  book_once : NoDup (settled tr);
  book_results : results st = successValues promises (settled tr);
  book_errors : forall key e,
      errors st !! key = Some e <->
      exists i t, i ∈ settled tr /\ errorKeys !! i = Some key /\
                  promises !! i = Some (Rejects t e);
  book_size : size (errors st) = length (failureReasons promises (settled tr))
}.

(** The clock: callbacks run at the instant their promise settles, and the
    clock never skips a settlement. *)
Record Clock (st : State T) : Prop := mkClock {
  clock_past : forall i c p,
      chains st !! i = Some c -> c <> Subscribed -> promises !! i = Some p ->
      exists t, settleTime p = Some t /\ (t <= now st)%nat;
  clock_future : forall i p t,
      chains st !! i = Some Subscribed -> promises !! i = Some p ->
      settleTime p = Some t -> (now st <= t)%nat;
  clock_present : forall i,
      chains st !! i = Some Handled ->
      exists p, promises !! i = Some p /\ settleTime p = Some (now st)
}.

(** The timer and the returned promise: the timer is armed by the first
    success and only by it; [resolve (ret)] is called by the timer or by a
    [finally] callback that finds every promise accounted for. *)
Record Timer (st : State T) : Prop := mkTimer {
  timer_idle : results st = [] -> timers st = [];
  timer_armed : results st <> [] ->
      exists t0, firstSuccess promises = Some t0 /\
        ((timers st = [(t0 + graceTime)%nat] /\ (now st <= t0 + graceTime)%nat) \/
         (timers st = [] /\ resolved st = true /\ (t0 + graceTime <= now st)%nat));
  resolved_why : resolved st = true ->
      (results st <> [] /\ timers st = []) \/
      ((Subscribed ∉ chains st) /\ (1 <= length promises)%nat);
  resolved_done : (forall c, c ∈ chains st -> c = Finished) ->
      (1 <= length promises)%nat -> resolved st = true
}.

(** Nothing is left to do at the present instant: no callback is queued,
    no subscribed promise settles now, no timer is due. *)
Definition Quiet (st : State T) : Prop :=
  (Handled ∉ chains st) /\
  (forall i p s, chains st !! i = Some Subscribed -> promises !! i = Some p ->
                 settleTime p = Some s -> (now st < s)%nat) /\
  (forall deadline, deadline ∈ timers st -> (now st < deadline)%nat).

End Invariants.

Arguments book_chains {T promises errorKeys tr st}.
Arguments book_settled {T promises errorKeys tr st}.
Arguments book_once {T promises errorKeys tr st}.
Arguments book_results {T promises errorKeys tr st}.
Arguments book_errors {T promises errorKeys tr st}.
Arguments book_size {T promises errorKeys tr st}.
Arguments clock_past {T promises st}.
Arguments clock_future {T promises st}.
Arguments clock_present {T promises st}.
Arguments timer_idle {T promises graceTime st}.
Arguments timer_armed {T promises graceTime st}.
Arguments resolved_why {T promises graceTime st}.
Arguments resolved_done {T promises graceTime st}.

(** *** Sample races

    Probe A succeeds at once; the grace time is 10 ms. *)

Definition twoKeys : list string := ["https://relay-a"; "https://relay-b"].
Definition threeKeys : list string :=
  ["https://relay-a"; "https://relay-b"; "https://relay-c"].

(** B succeeds half a grace time after A, C two grace times after A. *)
Definition earlyAndLate : list (Promise string) :=
  [Fulfils 0 "A"; Fulfils 5 "B"; Fulfils 20 "C"].

(** B succeeds two grace times after A. *)
Definition lateSuccess : list (Promise string) :=
  [Fulfils 0 "A"; Fulfils 20 "B"].

(** Both succeed within the grace time. *)
Definition quickSuccesses : list (Promise string) :=
  [Fulfils 3 "A"; Fulfils 0 "B"].

(** B fails two grace times after A has succeeded. *)
Definition lateFailure : list (Promise string) :=
  [Fulfils 0 "A"; Rejects 20 (mkError "timeout")].

(** Both fail. *)
Definition allFail : list (Promise string) :=
  [Rejects 7 (mkError "ECONNREFUSED"); Rejects 3 (mkError "timeout")].

(** A succeeds, the timer fires, then B settles. *)
Definition untilTimeout : list Event := [Settle 0; Finally 0; Advance 10; Timeout].
Definition afterTimeout : list Event := [Advance 20; Settle 1; Finally 1].

(** ** The gas price fetcher (exercised by test/relayserver/GasPriceFetcher.test.ts)

    The fetcher itself (relayclient/GasPriceFetcher) is not among the
    sources at hand; only its test is.  It is modelled here from sections
    4.2 and 4.2a of the specification. *)

Module Oracle.

(** A response body, once parsed: a tree of keyed and indexed nodes. *)
#[local] Unset Elimination Schemes.
Inductive Json : Type :=
  | JNull
  | JBool (b : bool)
  | JNumber (q : Q)
  | JString (s : string)
  | JArray (items : list Json)
  | JObject (fields : list (string * Json)).
#[local] Set Elimination Schemes.

(** A segment of a path expression: [.identifier] and [["key"]] descend
    into a property, [[N]] into an array element. *)
Inductive Segment : Type :=
  | Property (name : string)
  | Index (i : nat).

Fixpoint field (name : string) (fields : list (string * Json)) : option Json :=
  match fields with
  | [] => None
  | (k, v) :: rest => if String.eqb k name then Some v else field name rest
  end.

(** Modelled from the spec: the path-extraction sub-routine of section 4.2a
    (getJsonElement of the missing GasPriceFetcher), on a path already cut
    into segments.  Descend segment by segment from the root; a missing
    property, an index out of range or a descent into a node that is not a
    container give "absent" ([None]), which is not an error. *)
Fixpoint extract (tree : Json) (path : list Segment) : option Json :=
  match path with
  | [] => Some tree
  | Property name :: rest =>
      match tree with
      | JObject fields =>
          match field name fields with
          | Some sub => extract sub rest
          | None => None
          end
      | _ => None
      end
  | Index i :: rest =>
      match tree with
      | JArray items =>
          match items !! i with
          | Some sub => extract sub rest
          | None => None
          end
      | _ => None
      end
  end.

(** The leading decimal digits of [s]: their value on top of [acc], how
    many there are, and what follows them. *)
Fixpoint readDigits (acc : Z) (count : nat) (s : string) : Z * nat * string :=
  match s with
  | EmptyString => (acc, count, s)
  | String c rest =>
      let n := Z.of_nat (nat_of_ascii c) in
      if (48 <=? n) && (n <=? 57)
      then readDigits (acc * 10 + (n - 48)) (S count) rest
      else (acc, count, s)
  end.

(** A string holding a decimal number: digits, then possibly a point and
    more digits, and nothing else. *)
Definition decimalNumber (s : string) : option Q :=
  let '(whole, n, rest) := readDigits 0 0 s in
  match n, rest with
  | O, _ => None
  | _, EmptyString => Some (inject_Z whole)
  | _, String "." fraction =>
      let '(part, m, rest') := readDigits 0 0 fraction in
      match m, rest' with
      | O, _ => None
      | _, EmptyString =>
          Some (inject_Z whole + inject_Z part / inject_Z (10 ^ Z.of_nat m))%Q
      | _, _ => None
      end
  | _, _ => None
  end.

(** The number a node stands for: a number, or a string holding one. *)
Definition numeric (v : Json) : option Q :=
  match v with
  | JNumber q => Some q
  | JString s => decimalNumber s
  | _ => None
  end.

(** What the operator is told when the oracle cannot be used. *)
Inductive Cause : Type :=
  | NetworkFailed (reason : Error)
  | BodyNotParseable
  | PathNotResolved
  | NotANumber.

(** The text of the diagnostic: it names the path; an oracle that cannot be
    reached is told apart from a payload that does not fit, which reads
    "not a number" whatever went wrong with it. *)
Definition diagnostic (pathExpression : string) (cause : Cause) : string :=
  match cause with
  | NetworkFailed reason => "path=" +:+ pathExpression +:+ " err: " +:+ reason.(message)
  | BodyNotParseable | PathNotResolved | NotANumber =>
      "path=" +:+ pathExpression +:+ " err: not a number"
  end.

Inductive Severity : Type := SevDebug | SevInfo | SevWarn | SevError.

Definition Log : Type := list (Severity * Cause).

(** What the caller of the fetcher observes. *)
Inductive Fetched : Type :=
  | Value (fee : Q)
  | Raised (e : Error).

(** The fixed scale factor from the human-scale unit to the base unit. *)
Definition scaleFactor : Q := inject_Z (10 ^ 9).

Section Fetcher.

(** The collaborators of section 6: the network GET, the parser of response
    bodies, the parser of path expressions ([None]: malformed), and the
    fallback fee source. *)
Variable httpGet : string -> Error + string.
Variable parseBody : string -> option Json.
Variable parsePath : string -> option (list Segment).
Variable fallbackSource : Fetched.

Definition fallBack (cause : Cause) : Fetched * Log :=
  (fallbackSource, [(SevError, cause)]).

(** Modelled from the spec: getGasPrice of the missing GasPriceFetcher,
    section 4.2 ([fetch (oracleEndpoint, pathExpression, fallbackSource)]).
    An empty endpoint goes straight to the fallback source; a malformed
    path expression fails before any network call; any other failure is
    logged at error severity and answered by the fallback source; a
    positive number found at the path is scaled by 10^9. *)
Definition getGasPrice (oracleEndpoint pathExpression : string) : Fetched * Log :=
  if String.eqb oracleEndpoint "" then (fallbackSource, [])
  else
    match parsePath pathExpression with
    | None => (Raised (mkError ("invalid path: " +:+ pathExpression)), [])
    | Some path =>
        match httpGet oracleEndpoint with
        | inl reason => fallBack (NetworkFailed reason)
        | inr body =>
            match parseBody body with
            | None => fallBack BodyNotParseable
            | Some tree =>
                match extract tree path with
                | None => fallBack PathNotResolved
                | Some found =>
                    match numeric found with
                    | None => fallBack NotANumber
                    | Some price =>
                        if Qle_bool price 0 then fallBack NotANumber
                        else (Value (price * scaleFactor), [])
                    end
                end
            end
        end
    end.

End Fetcher.

(** The oracle of the test: it answers [etherscanBody] at [oracleUrl]. *)
Definition oracleUrl : string := "http://localhost:8545/geturl".

(** The body of the test, its double quotes written as apostrophes. *)
Definition etherscanBody : string := "{'result':{'ProposeGasPrice':'39'}}".

Definition etherscanTree : Json :=
  JObject [("result"%string, JObject [("ProposeGasPrice"%string, JString "39")])].

Definition sampleGet (url : string) : Error + string :=
  if String.eqb url oracleUrl then inr etherscanBody
  else inl (mkError "connect ECONNREFUSED").

Definition sampleParseBody (body : string) : option Json :=
  if String.eqb body etherscanBody then Some etherscanTree else None.

Definition sampleParsePath (path : string) : option (list Segment) :=
  if String.eqb path ".result.ProposeGasPrice"
  then Some [Property "result"; Property "ProposeGasPrice"]
  else if String.eqb path ".result.wrongpath"
  then Some [Property "result"; Property "wrongpath"]
  else None.

End Oracle.

(** ** Strings, hexadecimal text and buffers

    The functions below work on short ASCII texts: hexadecimal strings,
    addresses, URLs.  Such a string is modelled by the list of its
    characters, a [Buffer] by the list of its bytes. *)

Module Str.

(** A string literal, as a list of characters. *)
Definition chars (s : string) : list ascii := list_ascii_of_string s.

Definition code (c : ascii) : Z := Z.of_nat (nat_of_ascii c).

(** [c.toLowerCase ()] on an ASCII character. *)
Definition lower (c : ascii) : ascii :=
  if (65 <=? code c) && (code c <=? 90) then ascii_of_nat (nat_of_ascii c + 32) else c.

(** [s.toLowerCase ()]. *)
Definition toLowerCase (s : list ascii) : list ascii := map lower s.

(** [s.slice (start)], for a start that is not negative. *)
Definition slice (start : nat) (s : list ascii) : list ascii := drop start s.

(** [s.slice (-n)]: the last [n] characters, all of [s] when it is shorter. *)
Definition sliceLast (n : nat) (s : list ascii) : list ascii := drop (length s - n) s.

(** [s.substr (start, len)]. *)
Definition substr (start len : nat) (s : list ascii) : list ascii :=
  take len (drop start s).

(** [s.padStart (n, c)] and [s.padEnd (n, c)]: nothing is added to a string
    of [n] characters or more. *)
Definition padStart (n : nat) (c : ascii) (s : list ascii) : list ascii :=
  replicate (n - length s) c ++ s.

Definition padEnd (n : nat) (c : ascii) (s : list ascii) : list ascii :=
  s ++ replicate (n - length s) c.

(** [c.repeat (n)]. *)
Definition repeat (c : ascii) (n : nat) : list ascii := replicate n c.

(** [parseInt (s, 16)]: as [parseInt (s)], but the radix is 16 whether or
    not the text starts with [0x]. *)
Definition parseInt16 (s : list ascii) : number :=
  let '(sign, s1) := stripSign (skipWhiteSpace (string_of_list_ascii s)) in
  let '(_, s2) := stripRadixPrefix s1 in
  match parseDigits 16 None s2 with
  | Some v => double (inject_Z (sign * v))
  | None => NaN
  end.

(** [n.toString (16)] for an integer that is not negative. *)
Definition toString16 (n : Z) : list ascii :=
  chars (hexDigits (S (Z.to_nat (Z.log2 n))) n EmptyString).

(** The value of a hexadecimal digit. *)
Definition unhex (c : ascii) : option Z :=
  match digitValue c with
  | Some d => if d <? 16 then Some d else None
  | None => None
  end.

(** [buffer.toString ('hex')]: two lower-case digits per byte. *)
Definition hexOfBytes (buffer : list Z) : list ascii :=
  flat_map (fun b => [hexDigit (b / 16); hexDigit (b mod 16)]) buffer.

(** [Buffer.from (s, 'hex')]: one byte per pair of digits, up to the first
    pair that is not hexadecimal; a last character without partner is
    ignored. *)
Fixpoint bytesOfHex (s : list ascii) : list Z :=
  match s with
  | hi :: lo :: rest =>
      match unhex hi, unhex lo with
      | Some x, Some y => (16 * x + y) :: bytesOfHex rest
      | _, _ => []
      end
  | _ => []
  end.

(** [Buffer.from (s)] and [buffer.toString ()] on ASCII text: a character
    is its code.  (Other characters take several bytes in UTF-8; they are
    outside what is proved here.) *)
Definition bytesOfText (s : list ascii) : list Z := map code s.

Definition textOfBytes (buffer : list Z) : list ascii :=
  map (fun b => ascii_of_nat (Z.to_nat b)) buffer.

(** [s.replace ('0x', '')]: the first occurrence of [0x] is removed,
    wherever it is. *)
Fixpoint replaceFirst0x (s : list ascii) : list ascii :=
  match s with
  | "0"%char :: "x"%char :: rest => rest
  | c :: rest => c :: replaceFirst0x rest
  | [] => []
  end.

(** [s.replace (/0x/g, '')]: every occurrence of [0x] is removed, reading
    from the left. *)
Fixpoint replaceAll0x (s : list ascii) : list ascii :=
  match s with
  | "0"%char :: "x"%char :: rest => replaceAll0x rest
  | c :: rest => c :: replaceAll0x rest
  | [] => []
  end.

(** The number of ["0"] characters at the start, and at the end, of [s]. *)
Fixpoint leadingZeros (s : list ascii) : nat :=
  match s with
  | "0"%char :: rest => S (leadingZeros rest)
  | _ => O
  end.

Definition trailingZeros (s : list ascii) : nat := leadingZeros (reverse s).

(** [s.replace (/(00)+$/g, '')]: the match starts at the leftmost position
    from which only pairs of ["0"] remain, so the largest even number of
    trailing ["0"] is removed. *)
Definition stripTrailing00 (s : list ascii) : list ascii :=
  take (length s - 2 * (trailingZeros s / 2)) s.

(** A byte, and an ASCII character. *)
Definition isByte (b : Z) : Prop := 0 <= b < 256.
Definition isAscii (c : ascii) : Prop := code c < 128.

(** The characters the [.] of a regular expression does not match. *)
Definition isLineTerminator (c : ascii) : bool := (code c =? 10) || (code c =? 13).

End Str.

Import Str.

(** ** Hexadecimal helpers (Utils.ts, lines 38-176) *)

(** [zeroPad]: 64 characters ["0"]. *)
Definition zeroPad : list ascii := replicate 64 "0"%char.

(** [padTo64 (hex)], lines 47-52. *)
Definition padTo64 (hex : list ascii) : list ascii :=
  if (length hex <? 64)%nat then sliceLast 64 (zeroPad ++ hex) else hex.

(** [signatureRSV2Hex (r, s, v)], line 55, on the texts [r.toString ('hex')]
    and [s.toString ('hex')] of the two big numbers or buffers. *)
Definition signatureRSV2Hex (rHex sHex : list ascii) (v : Z) : list ascii :=
  chars "0x" ++ padTo64 rHex ++ padTo64 sHex ++ padStart 2 "0"%char (toString16 v).

(** [address2topic (address)], lines 70-72. *)
Definition address2topic (address : list ascii) : list ascii :=
  chars "0x" ++ repeat "0"%char 24 ++ slice 2 (toLowerCase address).

(** [addresses2topics (addresses)], lines 66-68. *)
Definition addresses2topics (addresses : list (list ascii)) : list (list ascii) :=
  map address2topic addresses.

(** [isSameAddress (address1, address2)], lines 178-180. *)
Definition isSameAddress (address1 address2 : list ascii) : bool :=
  bool_decide (toLowerCase address1 = toLowerCase address2).

(** [parseHexString (str)], lines 167-176: one [parseInt (.., 16)] per pair
    of characters, as long as two characters are left. *)
Fixpoint parseHexString (str : list ascii) : list number :=
  match str with
  | a :: b :: rest => parseInt16 [a; b] :: parseHexString rest
  | _ => []
  end.

(** The [Signature] of lines 220-224. *)
Record Signature : Type := mkSignature {
  sig_v : list number;
  sig_r : list number;
  sig_s : list number
}.

(** The first lines of [getEcRecoverMeta], 152-161: a signature given as a
    string is cut into [r], [s] and [v]. *)
Definition signatureOfString (signature : list ascii) : Signature :=
  let r := parseHexString (substr 2 65 signature) in
  let s := parseHexString (substr 66 65 signature) in
  let v := parseHexString (substr 130 2 signature) in
  {| sig_v := v; sig_r := r; sig_s := s |}.

(** [calculateCalldataBytesZeroNonzero (calldata)], lines 139-149. *)
Record CalldataBytes : Type := mkCalldataBytes {
  calldataZeroBytes : nat;
  calldataNonzeroBytes : nat
}.

Definition countBytes (buffer : list Z) : CalldataBytes :=
  fold_left
    (fun acc ch =>
       if ch =? 0
       then mkCalldataBytes (S acc.(calldataZeroBytes)) acc.(calldataNonzeroBytes)
       else mkCalldataBytes acc.(calldataZeroBytes) (S acc.(calldataNonzeroBytes)))
    buffer (mkCalldataBytes 0 0).

Definition calculateCalldataBytesZeroNonzero (calldata : list ascii) : CalldataBytes :=
  let calldataBuf := bytesOfHex (replaceFirst0x calldata) in
  countBytes calldataBuf.

(** The buffer part of [correctV], lines 125-131: a last byte below 2 is
    raised by 27; an empty buffer has no last byte and is left alone. *)
Definition correctVBuffer (buffer : list Z) : list Z :=
  let last := (length buffer - 1)%nat in
  match buffer !! last with
  | Some oldV =>
      if oldV <? 2
      then <[last := (oldV + 27) mod 256]> buffer
      else buffer
  | None => buffer
  end.

Section CorrectV.

(** [toBuffer] and [bufferToHex] come from ethereumjs-util. *)
Variable toBuffer : list ascii -> list Z.
Variable bufferToHex : list Z -> list ascii.

(** [correctV (result)], lines 124-133 (the warning on the console is left
    out). *)
Definition correctV (result : list ascii) : list ascii :=
  bufferToHex (correctVBuffer (toBuffer result)).

End CorrectV.

(** ** Events (Utils.ts, lines 194-211) *)

(** The two fields of an [EventData] the comparator reads, and the rest of
    the event. *)
Record EventData (A : Type) : Type := mkEvent {
  blockNumber : Z;
  transactionIndex : Z;
  payload : A
}.

Arguments mkEvent {A} blockNumber transactionIndex payload.
Arguments blockNumber {A} e.
Arguments transactionIndex {A} e.
Arguments payload {A} e.

Section Events.

Context {A : Type}.

(** [eventsComparator (a, b)]. *)
Definition eventsComparator (a b : EventData A) : Z :=
  if a.(blockNumber) =? b.(blockNumber)
  then b.(transactionIndex) - a.(transactionIndex)
  else b.(blockNumber) - a.(blockNumber).

(** [isSecondEventLater (a, b)]. *)
Definition isSecondEventLater (a b : EventData A) : bool :=
  eventsComparator a b >? 0.

(** [Array.prototype.sort (compare)]: the sort is stable, an element goes
    before the ones it does not compare greater than.  With a comparator
    that is a consistent order the result does not depend on the sorting
    algorithm; this one inserts from the right. *)
Fixpoint insertSorted {B} (compare : B -> B -> Z) (x : B) (sorted : list B) : list B :=
  match sorted with
  | [] => [x]
  | y :: rest =>
      if compare x y <=? 0 then x :: y :: rest
      else y :: insertSorted compare x rest
  end.

Definition sort {B} (compare : B -> B -> Z) (array : list B) : list B :=
  foldr (insertSorted compare) [] array.

(** [getLatestEventData (events)]: the event returned ([None]: undefined),
    and the array [events] as the call leaves it, sorted in place. *)
Definition getLatestEventData (events : list (EventData A))
  : option (EventData A) * list (EventData A) :=
  if (length events =? 0)%nat then (None, events)
  else
    let eventDataSorted := sort eventsComparator events in
    (eventDataSorted !! 0%nat, eventDataSorted).

End Events.

(** ** Random choices (Utils.ts, lines 190-192, 387-403, 467-469)

    A call of [Math.random ()] is modelled by the number it returns. *)

(** What [Math.random ()] returns: a number from 0 up to, not including, 1. *)
Definition isRandom (r : Q) : Prop := (0 <= r)%Q /\ (r < 1)%Q.

(** [randomInRange (min, max)], with [random] what [Math.random ()]
    returns: the difference, the product and the sum are each rounded to a
    double. *)
Definition randomInRange (random : Q) (min max : number) : number :=
  floor (add (mul (Finite random) (sub max min)) min).



(** The swap of line 398: both elements are read, then both are written.
    The indices [shuffle] uses are inside the array; outside it the array
    is left as it is here. *)
Definition swap {A} (i j : nat) (array : list A) : list A :=
  match array !! i, array !! j with
  | Some x, Some y => <[j := x]> (<[i := y]> array)
  | _, _ => array
  end.



(** [Math.floor (Math.random () * length)], the index of lines 394 and
    468, with the product rounded to a double. *)
Definition randomIndex (random : Q) (length : number) : number :=
  floor (mul (Finite random) length).

(** What [Math.random ()] returns is a double: the largest one below 1 is
    [1 - 2 ^ -53]. *)
Definition isRandomDouble (r : Q) : Prop := (0 <= r)%Q /\ (r <= 1 - pow2 (-53))%Q.

(** ** [averageBN] (Utils.ts, lines 518-521)

    A [BN] is an integer; [divn] truncates towards zero. *)

(** [array.reduce (f)] without initial value: [None] is the TypeError on an
    empty array. *)
Definition reduce {B} (f : B -> B -> B) (array : list B) : option B :=
  match array with
  | [] => None
  | first :: rest => Some (fold_left f rest first)
  end.

Definition averageBN (array : list Z) : option Z :=
  match reduce Z.add array with
  | None => None
  | Some sum => Some (Z.quot sum (Z.of_nat (length array)))
  end.

(** ** Relay URLs for the registrar (Utils.ts, lines 321-339) *)

(** [url.match (/.{1,32}/g)]: the text is cut, from the left, into pieces
    of up to 32 characters; a line terminator is in no piece and ends the
    piece before it.  [piece] is the piece being read. *)
Fixpoint matchPieces (piece : list ascii) (text : list ascii) : list (list ascii) :=
  match text with
  | [] => match piece with [] => [] | _ => [piece] end
  | c :: rest =>
      if isLineTerminator c then
        match piece with
        | [] => matchPieces [] rest
        | _ => piece :: matchPieces [] rest
        end
      else if (length piece =? 32)%nat then piece :: matchPieces [c] rest
      else matchPieces (piece ++ [c]) rest
  end.

(** One element of the result, line 329. *)
Definition registrarWord (part : list ascii) : list ascii :=
  chars "0x" ++ padEnd 64 "0"%char (hexOfBytes (bytesOfText part)).

(** [splitRelayUrlForRegistrar (url, partsCount)]: [None] is the error
    thrown for a URL that does not fit. *)
Definition splitRelayUrlForRegistrar (url : list ascii) (partsCount : nat)
  : option (list (list ascii)) :=
  let maxLength := (32 * partsCount)%nat in
  if (maxLength <? length url)%nat then None
  else
    let parts := matchPieces [] url in
    Some (map (fun i => registrarWord (default [] (parts !! i))) (seq 0 partsCount)).

(** [packRelayUrlForRegistrar (parts)]. *)
Definition packRelayUrlForRegistrar (parts : list (list ascii)) : list ascii :=
  textOfBytes (bytesOfHex (stripTrailing00 (replaceAll0x (concat parts)))).

(** ** Relay request identifiers (Utils.ts, lines 38-43 and 360-369) *)

(** [removeHexPrefix (hex)] on a string: [hex.replace (/^0x/, '')]. *)
Definition removeHexPrefix (hex : list ascii) : list ascii :=
  match hex with
  | "0"%char :: "x"%char :: rest => rest
  | _ => hex
  end.

(** [s.replace (new RegExp (`^.{n}`), by)]: the first [n] characters are
    replaced when there are [n] of them and none is a line terminator. *)
Definition replacePrefix (n : nat) (by_ : list ascii) (s : list ascii) : list ascii :=
  if (n <=? length s)%nat && forallb (fun c => negb (isLineTerminator c)) (take n s)
  then by_ ++ drop n s
  else s.

(** Lines 364-368 of [getRelayRequestID], from the [hash] that [keccak256]
    returns. *)
Definition relayRequestIdOfHash (hash : list ascii) : list ascii :=
  let rawRelayRequestId := padStart 64 "0"%char (removeHexPrefix hash) in
  let prefixSize := 8%nat in
  let prefixedRelayRequestId :=
    replacePrefix prefixSize (repeat "0"%char prefixSize) rawRelayRequestId in
  chars "0x" ++ prefixedRelayRequestId.

Section RelayRequestID.

(** The ABI encoder and the hash function are libraries: [hashOf] is
    [keccak256 (abiCoder.encode (types, [from, nonce, signature]))]. *)
Context {Request : Type}.
Variable hashOf : Request -> list ascii -> list ascii.

Definition getRelayRequestID (relayRequest : Request) (signature : list ascii)
  : list ascii :=
  relayRequestIdOfHash (hashOf relayRequest signature).

End RelayRequestID.

(** ** ERC-165 interface identifiers (Utils.ts, lines 371-385) *)

(** The [ToInt32] conversion the bit operators of JavaScript apply. *)
Definition toInt32 (x : Z) : Z := (x + 2 ^ 31) mod 2 ^ 32 - 2 ^ 31.

(** [x ^ y]. *)
Definition bitXor (x y : Z) : Z := toInt32 (Z.lxor (toInt32 x) (toInt32 y)).

(** Lines 381-383, on the integers [parseInt (x, 16)] returns for the
    selectors: the reduction with [^], then the correction of the sign.
    [None] is the TypeError of [reduce] on an empty array. *)
Definition interfaceIdOfSelectors (selectors : list Z) : option Z :=
  match reduce bitXor selectors with
  | None => None
  | Some interfaceId =>
      Some (if interfaceId >? 0 then interfaceId else 4294967295 + interfaceId + 1)
  end.

(** Line 384. *)
Definition interfaceIdText (interfaceId : Z) : list ascii :=
  chars "0x" ++ padStart 8 "0"%char (toString16 interfaceId).

(** A selector: four bytes. *)
Definition isSelector (x : Z) : Prop := 0 <= x < 2 ^ 32.

(** ** [removeNullValues] (Utils.ts, lines 279-296) *)

(** The values of a JavaScript object, as far as [removeNullValues] tells
    them apart; an object is the list of its own fields, in key order. *)
#[warnings="-register-all"]
Inductive value : Type :=
  | Null
  | Undefined
  | Primitive (text : string)
  | BigNumber (n : Z)
  | Array (items : list value)
  | Object (fields : list (string * value)).

(** [val == null]. *)
Definition isNullish (val : value) : bool :=
  match val with
  | Null | Undefined => true
  | _ => false
  end.

Section RemoveNullFields.

(** What is stored back for a field that is kept. *)
Variable descend : value -> value.

(** The loop of lines 283-294 over the fields of the copy [c]. *)
Fixpoint removeNullFields (c : list (string * value)) : list (string * value) :=
  match c with
  | [] => []
  | (k, val) :: rest =>
      if isNullish val then removeNullFields rest
      else (k, descend val) :: removeNullFields rest
  end.

End RemoveNullFields.

(** Lines 288-291 with [recursive] set: an object that is neither an array
    nor a big number is replaced by its own cleaned copy. *)
Fixpoint removeNullValuesIn (val : value) : value :=
  match val with
  | Object fields => Object (removeNullFields removeNullValuesIn fields)
  | _ => val
  end.

(** [removeNullValues (obj, recursive)]. *)
Definition removeNullValues (obj : list (string * value)) (recursive : bool)
  : list (string * value) :=
  removeNullFields (if recursive then removeNullValuesIn else id) obj.

(** No field of [val], at any depth reached through objects only, is null
    or undefined. *)
Fixpoint nullFree (val : value) : bool :=
  match val with
  | Object fields =>
      forallb (fun kv => negb (isNullish (snd kv)) && nullFree (snd kv)) fields
  | _ => true
  end.

(** ** A race that is never finished

    B fails, and A never settles. *)
Definition oneHangs : list (Promise string) :=
  [Forever; Rejects 3 (mkError "timeout")].
(** * Properties *)

(** ** Rounding to a double *)

Section DoubleFacts.

Local Open Scope Q_scope.

(** *** Powers of two *)
Lemma pow2_pos (k : Z) : 0 < pow2 k.
Proof. apply Qpower_0_lt. reflexivity. Qed.

Lemma pow2_add (a b : Z) : pow2 (a + b) == pow2 a * pow2 b.
Proof. apply Qpower_plus. discriminate. Qed.

Lemma pow2_succ (a : Z) : pow2 (a + 1) == 2 * pow2 a.
Proof. rewrite pow2_add. change (pow2 1) with 2. ring. Qed.

Lemma pow2_Z (k : Z) : (0 <= k)%Z -> pow2 k == inject_Z (2 ^ k).
Proof. intros Hk. unfold pow2. now rewrite Zpower_Qpower. Qed.

Lemma pow2_le (a b : Z) : (a <= b)%Z -> pow2 a <= pow2 b.
Proof. intros H. apply Qpower_le_compat_l; [exact H | discriminate]. Qed.

Lemma pow2_lt (a b : Z) : (a < b)%Z -> pow2 a < pow2 b.
Proof. intros H. apply Qpower_lt_compat_l; [exact H | reflexivity]. Qed.

Lemma pow2_lt_inv (a b : Z) : pow2 a < pow2 b -> (a < b)%Z.
Proof. intros H. apply (Qpower_lt_compat_l_inv 2); [exact H | reflexivity]. Qed.

Lemma pow2_split (a b : Z) : pow2 a == pow2 (a - b) * pow2 b.
Proof. rewrite <- pow2_add. now replace (a - b + b)%Z with a by lia. Qed.

(** *** The exponent of a positive rational *)
Lemma exponent_spec (x : Q) :
  0 < x -> pow2 (exponent x) <= x /\ x < pow2 (exponent x + 1).
Proof.
  intros Hx. destruct x as [n d]. unfold exponent. cbn [Qnum Qden].
  assert (Hn : (0 < n)%Z) by (unfold Qlt in Hx; simpl in Hx; lia).
  set (ln := Z.log2 n). set (ld := Z.log2 (Z.pos d)).
  destruct (Z.log2_spec n Hn) as [Hn1 Hn2]. fold ln in Hn1, Hn2.
  destruct (Z.log2_spec (Z.pos d) ltac:(lia)) as [Hd1 Hd2]. fold ld in Hd1, Hd2.
  assert (Hln : (0 <= ln)%Z) by apply Z.log2_nonneg.
  assert (Hld : (0 <= ld)%Z) by apply Z.log2_nonneg.
  pose proof (pow2_pos (ln - ld)) as Hp.
  assert (HA : pow2 (ln - ld) * inject_Z (2 ^ ld) == inject_Z (2 ^ ln)).
  { rewrite <- !pow2_Z by assumption. symmetry. apply pow2_split. }
  assert (Hx' : (n # d) * inject_Z (Z.pos d) == inject_Z n).
  { unfold Qeq, Qmult, inject_Z. simpl. lia. }
  assert (Hd0 : 0 < inject_Z (Z.pos d)) by reflexivity.
  assert (HD0 : 0 < inject_Z (2 ^ ld)).
  { rewrite <- pow2_Z by assumption. apply pow2_pos. }
  rewrite Zle_Qle in Hn1, Hd1. rewrite Zlt_Qlt in Hn2, Hd2.
  replace (2 ^ Z.succ ln)%Z with (2 * 2 ^ ln)%Z in Hn2 by (rewrite Z.pow_succ_r; lia).
  replace (2 ^ Z.succ ld)%Z with (2 * 2 ^ ld)%Z in Hd2 by (rewrite Z.pow_succ_r; lia).
  rewrite inject_Z_mult in Hn2, Hd2.
  set (X := n # d) in *. set (P := pow2 (ln - ld)) in *.
  set (A := inject_Z (2 ^ ln)) in *. set (B := inject_Z (2 ^ ld)) in *.
  set (N := inject_Z n) in *. set (D := inject_Z (Z.pos d)) in *.
  change (inject_Z 2) with 2 in *.
  assert (Hup : X < 2 * P).
  { apply Qnot_le_lt. intros Hc. nra. }
  assert (Hlo : P < 2 * X).
  { apply Qnot_le_lt. intros Hc. nra. }
  destruct (Qle_bool P X) eqn:Htest.
  - apply Qle_bool_iff in Htest. split; [exact Htest |].
    fold P. rewrite pow2_succ. fold P. exact Hup.
  - assert (Hlt : X < P).
    { apply Qnot_le_lt. intros Hc. apply Qle_bool_iff in Hc. congruence. }
    replace (ln - ld - 1 + 1)%Z with (ln - ld)%Z by lia. fold P.
    split; [| exact Hlt].
    assert (HP : P == 2 * pow2 (ln - ld - 1)).
    { unfold P. rewrite <- pow2_succ. now replace (ln - ld - 1 + 1)%Z with (ln - ld)%Z by lia. }
    rewrite HP in Hlo. lra.
Qed.

Lemma exponent_le (x : Q) (k : Z) : 0 < x -> x < pow2 (k + 1) -> (exponent x <= k)%Z.
Proof.
  intros Hx Hk. destruct (exponent_spec x Hx) as [Hlo _].
  assert (H : pow2 (exponent x) < pow2 (k + 1)) by (eapply Qle_lt_trans; eauto).
  apply pow2_lt_inv in H. lia.
Qed.

Lemma exponent_ge (x : Q) (k : Z) : pow2 k <= x -> (k <= exponent x)%Z.
Proof.
  intros Hk.
  assert (Hx : 0 < x) by (eapply Qlt_le_trans; [apply pow2_pos | exact Hk]).
  destruct (exponent_spec x Hx) as [_ Hhi].
  assert (H : pow2 k < pow2 (exponent x + 1)) by (eapply Qle_lt_trans; eauto).
  apply pow2_lt_inv in H. lia.
Qed.

(** *** The nearest integer *)
Lemma Qfloor_unique (y : Q) (k : Z) :
  inject_Z k <= y -> y < inject_Z (k + 1) -> Qfloor y = k.
Proof.
  intros Hlo Hhi. apply Qfloor_resp_le in Hlo. rewrite Qfloor_Z in Hlo.
  assert (H : inject_Z (Qfloor y) < inject_Z (k + 1))
    by (eapply Qle_lt_trans; [apply Qfloor_le | exact Hhi]).
  rewrite <- Zlt_Qlt in H. lia.
Qed.

Lemma nearestEven_cases (s : Q) :
  nearestEven s = Qfloor s \/ nearestEven s = (Qfloor s + 1)%Z.
Proof.
  unfold nearestEven. destruct (s - inject_Z (Qfloor s) ?= 1 # 2); auto.
  destruct (Z.even (Qfloor s)); auto.
Qed.

Lemma nearestEven_error (s : Q) :
  s - (1 # 2) <= inject_Z (nearestEven s) /\ inject_Z (nearestEven s) <= s + (1 # 2).
Proof.
  pose proof (Qfloor_le s) as Hlo. pose proof (Qlt_floor s) as Hhi.
  rewrite inject_Z_plus in Hhi. change (inject_Z 1) with 1 in Hhi.
  unfold nearestEven.
  destruct (Qcompare_spec (s - inject_Z (Qfloor s)) (1 # 2)) as [He | Hl | Hg].
  - destruct (Z.even (Qfloor s)); [| rewrite inject_Z_plus; change (inject_Z 1) with 1];
      split; lra.
  - split; lra.
  - rewrite inject_Z_plus. change (inject_Z 1) with 1. split; lra.
Qed.

Lemma nearestEven_ge (s : Q) (k : Z) : inject_Z k <= s -> (k <= nearestEven s)%Z.
Proof.
  intros H. apply Qfloor_resp_le in H. rewrite Qfloor_Z in H.
  destruct (nearestEven_cases s) as [-> | ->]; lia.
Qed.

Lemma nearestEven_le (s : Q) (k : Z) : s <= inject_Z k -> (nearestEven s <= k)%Z.
Proof.
  intros H. pose proof (Qfloor_resp_le _ _ H) as Hf. rewrite Qfloor_Z in Hf.
  destruct (Z.eq_dec (Qfloor s) k) as [Heq | Hne].
  - unfold nearestEven. rewrite Heq.
    destruct (Qcompare_spec (s - inject_Z k) (1 # 2)) as [He | Hl | Hg]; [| lia |]; lra.
  - destruct (nearestEven_cases s) as [-> | ->]; lia.
Qed.

(** *** The doubles around a positive rational *)
Lemma nearestDouble_ulp (x : Q) :
  nearestDouble x = inject_Z (nearestEven (x / ulp x)) * ulp x.
Proof. reflexivity. Qed.

Lemma ulp_pos (x : Q) : 0 < ulp x.
Proof. apply pow2_pos. Qed.

Lemma nearestDouble_le (x G : Q) (k : Z) :
  G == inject_Z k * ulp x -> x <= G -> nearestDouble x <= G.
Proof.
  intros HG Hx. rewrite nearestDouble_ulp, HG. pose proof (ulp_pos x) as Hu.
  apply Qmult_le_compat_r; [| lra]. rewrite <- Zle_Qle. apply nearestEven_le.
  apply Qle_shift_div_r; [exact Hu |]. now rewrite <- HG.
Qed.

Lemma nearestDouble_ge (x G : Q) (k : Z) :
  G == inject_Z k * ulp x -> G <= x -> G <= nearestDouble x.
Proof.
  intros HG Hx. rewrite nearestDouble_ulp, HG. pose proof (ulp_pos x) as Hu.
  apply Qmult_le_compat_r; [| lra]. rewrite <- Zle_Qle. apply nearestEven_ge.
  apply Qle_shift_div_l; [exact Hu |]. now rewrite <- HG.
Qed.

Lemma nearestDouble_nonneg (x : Q) : 0 <= x -> 0 <= nearestDouble x.
Proof.
  intros Hx. apply (nearestDouble_ge x 0 0); [ring | exact Hx].
Qed.

Lemma nearestDouble_error (x : Q) :
  x - ulp x / 2 <= nearestDouble x /\ nearestDouble x <= x + ulp x / 2.
Proof.
  rewrite nearestDouble_ulp. pose proof (ulp_pos x) as Hu.
  destruct (nearestEven_error (x / ulp x)) as [Hlo Hhi].
  set (n := inject_Z (nearestEven (x / ulp x))) in *.
  assert (Hx : x == x / ulp x * ulp x) by (field; lra).
  set (s := x / ulp x) in *. set (u := ulp x) in *. clearbody n s u.
  assert (Hn : n * u - x == (n - s) * u) by (rewrite Hx at 1; ring).
  assert (H1 : 0 <= (n - s + (1 # 2)) * u) by (apply Qmult_le_0_compat; lra).
  assert (H2 : 0 <= (s + (1 # 2) - n) * u) by (apply Qmult_le_0_compat; lra).
  assert (Hhalf : u / 2 == (1 # 2) * u) by (field).
  rewrite Hhalf. split; lra.
Qed.

(** A value [k * 2 ^ j] with less than 54 bits is on the grid around any
    smaller positive [x]. *)
Lemma on_grid_above (x : Q) (k j : Z) :
  0 < x -> x <= inject_Z k * pow2 j -> (k < 2 ^ 53)%Z -> (-1074 <= j)%Z ->
  exists k', inject_Z k * pow2 j == inject_Z k' * ulp x.
Proof.
  intros Hx Hle Hk Hj.
  assert (He : (Z.max (exponent x) (-1022) - 52 <= j)%Z).
  { assert (Hlt : x < pow2 (52 + j + 1)).
    { eapply Qle_lt_trans; [exact Hle |].
      replace (52 + j + 1)%Z with (53 + j)%Z by lia. rewrite pow2_add.
      apply Qmult_lt_compat_r; [apply pow2_pos |].
      rewrite pow2_Z by lia. now rewrite <- Zlt_Qlt. }
    pose proof (exponent_le x _ Hx Hlt). lia. }
  set (e := (Z.max (exponent x) (-1022) - 52)%Z) in *.
  exists (k * 2 ^ (j - e))%Z. unfold ulp. fold e.
  rewrite inject_Z_mult, <- pow2_Z by lia. rewrite (pow2_split j e). ring.
Qed.

Lemma nearestDouble_below (x : Q) (k j : Z) :
  0 < x -> x <= inject_Z k * pow2 j -> (k < 2 ^ 53)%Z -> (-1074 <= j)%Z ->
  nearestDouble x <= inject_Z k * pow2 j.
Proof.
  intros Hx Hle Hk Hj. destruct (on_grid_above x k j Hx Hle Hk Hj) as [k' Hk'].
  now apply (nearestDouble_le x _ k').
Qed.

Lemma nearestDouble_above (x : Q) (k j : Z) :
  0 < x -> inject_Z k * pow2 j <= x -> (k < 2 ^ 53)%Z -> (-1074 <= j)%Z ->
  inject_Z k * pow2 j <= nearestDouble x.
Proof.
  intros Hx Hle Hk Hj.
  destruct (Z.le_gt_cases (Z.max (exponent x) (-1022) - 52) j) as [He | He].
  - set (e := (Z.max (exponent x) (-1022) - 52)%Z) in *.
    apply (nearestDouble_ge x _ (k * 2 ^ (j - e))%Z); [| exact Hle].
    unfold ulp. fold e.
    rewrite inject_Z_mult, <- pow2_Z by lia. rewrite (pow2_split j e). ring.
  - assert (Hex : (Z.max (exponent x) (-1022) = exponent x)%Z) by lia.
    destruct (exponent_spec x Hx) as [Hlo _].
    apply Qle_trans with (pow2 (exponent x)).
    + apply Qle_trans with (pow2 53 * pow2 j).
      * apply Qmult_le_compat_r; [| apply Qlt_le_weak, pow2_pos].
        rewrite pow2_Z by lia. rewrite <- Zle_Qle. lia.
      * rewrite <- pow2_add. apply pow2_le. lia.
    + apply (nearestDouble_ge x _ (2 ^ 52)%Z); [| exact Hlo].
      unfold ulp. rewrite Hex, <- pow2_Z by lia. rewrite <- pow2_add.
      now replace (52 + (exponent x - 52))%Z with (exponent x) by lia.
Qed.

(** *** Rounding to a double *)
Lemma Qred_inject_Z (n : Z) : Qred (inject_Z n) = inject_Z n.
Proof.
  unfold Qred, inject_Z.
  pose proof (Z.ggcd_gcd n 1) as Hg. pose proof (Z.ggcd_correct_divisors n 1) as Hd.
  destruct (Z.ggcd n 1) as [g [a b]]. cbn [fst snd] in *.
  rewrite Z.gcd_1_r in Hg. subst g. destruct Hd as [Ha Hb].
  rewrite Z.mul_1_l in Ha, Hb. now subst a b.
Qed.

Lemma double_pos (x : Q) :
  0 < x -> nearestDouble x < pow2 1024 -> double x = Finite (Qred (nearestDouble x)).
Proof.
  intros Hx Hr. unfold double.
  rewrite (proj1 (Qgt_alt x 0) Hx).
  destruct (Qle_bool (pow2 1024) (nearestDouble x)) eqn:Hb; [| reflexivity].
  apply Qle_bool_iff in Hb. lra.
Qed.

Lemma double_neg (x : Q) :
  x < 0 -> nearestDouble (- x) < pow2 1024 ->
  double x = Finite (Qred (- nearestDouble (- x))).
Proof.
  intros Hx Hr. unfold double.
  rewrite (proj1 (Qlt_alt x 0) Hx).
  destruct (Qle_bool (pow2 1024) (nearestDouble (- x))) eqn:Hb; [| reflexivity].
  apply Qle_bool_iff in Hb. lra.
Qed.

Lemma double_zero (x : Q) : x == 0 -> double x = Finite 0.
Proof. intros Hx. unfold double. now rewrite (proj1 (Qeq_alt x 0) Hx). Qed.

Lemma below_overflow (k j : Z) :
  (k < 2 ^ 53)%Z -> (j <= 970)%Z -> inject_Z k * pow2 j < pow2 1024.
Proof.
  intros Hk Hj. apply Qlt_le_trans with (pow2 53 * pow2 j).
  - apply Qmult_lt_compat_r; [apply pow2_pos |].
    rewrite pow2_Z by lia. now rewrite <- Zlt_Qlt.
  - rewrite <- pow2_add. apply pow2_le. lia.
Qed.

(** Rounding keeps a value between two doubles between them. *)
Lemma double_between (x : Q) (kl jl kh jh : Z) :
  (Z.abs kl < 2 ^ 53)%Z -> (-1074 <= jl <= 970)%Z ->
  (Z.abs kh < 2 ^ 53)%Z -> (-1074 <= jh <= 970)%Z ->
  inject_Z kl * pow2 jl <= x -> x <= inject_Z kh * pow2 jh ->
  exists r, double x = Finite (Qred r) /\
            inject_Z kl * pow2 jl <= r /\ r <= inject_Z kh * pow2 jh.
Proof.
  intros Hkl Hjl Hkh Hjh Hlo Hhi.
  pose proof (pow2_pos jl) as Hpl. pose proof (pow2_pos jh) as Hph.
  destruct (Q_dec x 0) as [[Hneg | Hpos] | Hzero].
  - (* x < 0 *)
    assert (Hx : 0 < - x) by lra.
    assert (Hup : - x <= inject_Z (- kl) * pow2 jl).
    { rewrite inject_Z_opp. lra. }
    pose proof (nearestDouble_below (- x) (- kl) jl Hx Hup ltac:(lia) ltac:(lia)) as Hr.
    pose proof (nearestDouble_nonneg (- x) ltac:(lra)) as Hr0.
    pose proof (below_overflow (- kl) jl ltac:(lia) ltac:(lia)) as Hov.
    exists (- nearestDouble (- x)). split; [apply double_neg; lra |].
    rewrite inject_Z_opp in Hr. split; [lra |].
    destruct (Z.le_gt_cases 0 kh) as [Hkh0 | Hkh0].
    + assert (0 <= inject_Z kh * pow2 jh).
      { apply Qmult_le_0_compat; [| lra]. now rewrite <- (Zle_Qle 0). }
      lra.
    + assert (Hdown : inject_Z (- kh) * pow2 jh <= - x).
      { rewrite inject_Z_opp. lra. }
      pose proof (nearestDouble_above (- x) (- kh) jh Hx Hdown ltac:(lia) ltac:(lia)) as Hr'.
      rewrite inject_Z_opp in Hr'. lra.
  - (* 0 < x *)
    pose proof (nearestDouble_below x kh jh Hpos Hhi ltac:(lia) ltac:(lia)) as Hr.
    pose proof (nearestDouble_nonneg x ltac:(lra)) as Hr0.
    pose proof (below_overflow kh jh ltac:(lia) ltac:(lia)) as Hov.
    exists (nearestDouble x). split; [apply double_pos; lra |].
    split; [| exact Hr].
    destruct (Z.le_gt_cases kl 0) as [Hkl0 | Hkl0].
    + assert (inject_Z kl * pow2 jl <= 0).
      { rewrite Zle_Qle in Hkl0. change (inject_Z 0) with 0 in Hkl0. nra. }
      lra.
    + apply (nearestDouble_above x kl jl Hpos Hlo); lia.
  - exists 0. split; [now apply double_zero |]. lra.
Qed.

(** A double is rounded to itself. *)
Lemma double_exact (x : Q) (k j : Z) :
  (Z.abs k < 2 ^ 53)%Z -> (-1074 <= j <= 970)%Z -> x == inject_Z k * pow2 j ->
  double x = Finite (Qred x).
Proof.
  intros Hk Hj Hx.
  destruct (double_between x k j k j Hk Hj Hk Hj) as (r & Hr & Hlo & Hhi); try lra.
  rewrite Hr. f_equal. apply Qred_complete. lra.
Qed.

Lemma double_Int (x : Q) (n : Z) :
  (Z.abs n < 2 ^ 53)%Z -> x == inject_Z n -> double x = Int n.
Proof.
  intros Hn Hx. rewrite (double_exact x n 0 Hn ltac:(lia)).
  - unfold Int. f_equal. rewrite (Qred_complete _ _ Hx). apply Qred_inject_Z.
  - rewrite Hx. change (pow2 0) with 1. ring.
Qed.

(** The relative error of rounding, away from the smallest and the
    largest doubles. *)
Lemma double_near (x : Q) :
  pow2 (-1022) <= x -> x < pow2 1023 ->
  exists r, double x = Finite (Qred r) /\
            x - x * pow2 (-53) <= r /\ r <= x + x * pow2 (-53).
Proof.
  intros Hlow Hhigh.
  assert (Hx : 0 < x) by (eapply Qlt_le_trans; [apply pow2_pos | exact Hlow]).
  pose proof (exponent_ge x _ Hlow) as He.
  destruct (exponent_spec x Hx) as [Hex _].
  destruct (nearestDouble_error x) as [Hlo Hhi].
  assert (Hulp : ulp x / 2 == pow2 (exponent x) * pow2 (-53)).
  { unfold ulp. replace (Z.max (exponent x) (-1022)) with (exponent x) by lia.
    rewrite <- pow2_add. replace (exponent x + -53)%Z with (exponent x - 52 + -1)%Z by lia.
    rewrite pow2_add. change (pow2 (-1)) with (/ 2). field. }
  pose proof (pow2_pos (-53)) as Hp.
  assert (Hsmall : pow2 (-53) < 1) by reflexivity.
  assert (Hbound : ulp x / 2 <= x * pow2 (-53)).
  { rewrite Hulp. apply Qmult_le_compat_r; lra. }
  assert (Htwice : pow2 1024 == 2 * pow2 1023) by (rewrite <- pow2_succ; reflexivity).
  exists (nearestDouble x). split; [| split; lra].
  apply double_pos; [exact Hx |]. nra.
Qed.

(** A positive value a relative [2 ^ -53] below a double is rounded to a
    double below it. *)
Lemma double_strictly_below (x : Q) (k j : Z) :
  0 < x -> (0 < k < 2 ^ 53)%Z -> (-1074 <= j <= 970)%Z ->
  pow2 (-1022) < inject_Z k * pow2 j ->
  x <= inject_Z k * pow2 j * (1 - pow2 (-53)) ->
  exists r, double x = Finite (Qred r) /\ 0 <= r /\ r < inject_Z k * pow2 j.
Proof.
  intros Hx Hk Hj Hnormal Hbelow.
  set (G := inject_Z k * pow2 j) in *.
  pose proof (pow2_pos (-53)) as Hp.
  assert (HG : 0 < G) by (eapply Qlt_trans; [apply pow2_pos | exact Hnormal]).
  assert (HxG : x < G) by nra.
  destruct (on_grid_above x k j Hx ltac:(fold G; lra) ltac:(lia) ltac:(lia)) as [k' Hk'].
  fold G in Hk'.
  pose proof (ulp_pos x) as Hu.
  assert (Hhalf : ulp x / 2 < G * pow2 (-53)).
  { assert (E : ulp x / 2 == pow2 (Z.max (exponent x) (-1022)) * pow2 (-53)).
    { unfold ulp. rewrite <- pow2_add.
      replace (Z.max (exponent x) (-1022) + -53)%Z
        with (Z.max (exponent x) (-1022) - 52 + -1)%Z by lia.
      rewrite pow2_add. change (pow2 (-1)) with (/ 2). field. }
    rewrite E. apply Qmult_lt_compat_r; [exact Hp |].
    destruct (Z.max_spec (exponent x) (-1022)) as [[_ ->] | [_ ->]].
    - exact Hnormal.
    - destruct (exponent_spec x Hx) as [Hlo _]. lra. }
  destruct (nearestEven_error (x / ulp x)) as [_ Hne].
  assert (Hxu : x == x / ulp x * ulp x) by (field; lra).
  assert (Hlt : (nearestEven (x / ulp x) < k')%Z).
  { rewrite Zlt_Qlt. apply Qle_lt_trans with (x / ulp x + (1 # 2)); [exact Hne |].
    apply (Qmult_lt_r _ _ (ulp x)); [exact Hu |]. rewrite <- Hk'.
    assert (E : (x / ulp x + (1 # 2)) * ulp x == x + ulp x / 2) by (field; lra).
    rewrite E. nra. }
  assert (Hr : nearestDouble x <= G - ulp x).
  { unfold nearestDouble. rewrite Hk'.
    assert (Hle : inject_Z (nearestEven (x / ulp x)) + 1 <= inject_Z k').
    { change 1 with (inject_Z 1). rewrite <- inject_Z_plus, <- Zle_Qle. lia. }
    nra. }
  pose proof (nearestDouble_nonneg x ltac:(lra)) as Hr0.
  pose proof (below_overflow k j ltac:(lia) ltac:(lia)) as Hov. fold G in Hov.
  exists (nearestDouble x). split; [apply double_pos; lra |]. split; lra.
Qed.

(** *** Sample roundings *)

(** One tenth is no double; the nearest one is [3602879701896397 / 2 ^ 55]. *)
Example double_tenth : double (1 # 10) = Finite (3602879701896397 # 36028797018963968).
Proof. vm_compute. reflexivity. Qed.

(** Above [2 ^ 53] every other integer is a double; a tie goes to the one
    with an even last bit. *)
Example double_ties_to_even :
  double (inject_Z (2 ^ 53 + 1)) = Int (2 ^ 53) /\
  double (inject_Z (2 ^ 53 + 3)) = Int (2 ^ 53 + 4).
Proof. split; vm_compute; reflexivity. Qed.

(** The largest double is [2 ^ 1024 - 2 ^ 971]; half a spacing above it
    the rounding overflows. *)
Example double_overflow :
  double (inject_Z (2 ^ 1024 - 2 ^ 971)) = Int (2 ^ 1024 - 2 ^ 971) /\
  double (inject_Z (2 ^ 1024 - 2 ^ 970 - 1)) = Int (2 ^ 1024 - 2 ^ 971) /\
  double (inject_Z (2 ^ 1024 - 2 ^ 970)) = PosInf /\
  double (inject_Z (- (2 ^ 1024))) = NegInf.
Proof. repeat split; vm_compute; reflexivity. Qed.

(** The smallest double above zero is [2 ^ -1074]; half of it is rounded
    to zero, three halves of it to twice it. *)
Example double_underflow :
  double (pow2 (-1075)) = Finite 0 /\
  double (3 * pow2 (-1075)) = Finite (Qred (pow2 (-1073))).
Proof. split; vm_compute; reflexivity. Qed.

End DoubleFacts.

(** ** Fee negotiation *)

Example parseInt_decimal : parseInt "150" = Int 150.
Proof. reflexivity. Qed.

Example parseInt_hex : parseInt "0x3b9aca00" = Int 1000000000.
Proof. reflexivity. Qed.

Example parseInt_garbage : parseInt "gwei" = NaN.
Proof. reflexivity. Qed.

Example hexOfNumber_roundtrip : parseInt (hexOfNumber (Int 1000000000)) = Int 1000000000.
Proof. reflexivity. Qed.

Lemma ge_Int (c m : Z) : ge (Int c) (Int m) = (m <=? c).
Proof.
  unfold ge, Int, Qle_bool, inject_Z; simpl. now rewrite !Z.mul_1_r.
Qed.

Lemma Qeq_bool_Int_pos (c : Z) : 1 <= c -> Qeq_bool (inject_Z c) 0 = false.
Proof.
  intros Hc. unfold Qeq_bool, inject_Z; simpl.
  rewrite Z.mul_1_r. apply Z.eqb_neq. lia.
Qed.

(** Differences and products of integers are exact as long as they are
    safe integers. *)
Lemma sub_Int (m c : Z) : isSafeInteger (m - c) -> sub (Int m) (Int c) = Int (m - c).
Proof.
  intros Hsafe. unfold sub, Int. apply double_Int; [exact Hsafe |].
  unfold Zminus. rewrite inject_Z_plus, inject_Z_opp. reflexivity.
Qed.

Lemma mul_Int (a b : Z) : isSafeInteger (a * b) -> mul (Int a) (Int b) = Int (a * b).
Proof.
  intros Hsafe. unfold mul, Int. apply double_Int; [exact Hsafe |].
  now rewrite inject_Z_mult.
Qed.

Lemma div_Int (a c : Z) :
  1 <= c -> div (Int a) (Int c) = double (inject_Z a / inject_Z c).
Proof. intros Hc. unfold div, Int. now rewrite Qeq_bool_Int_pos. Qed.

(** What the code computes before [Math.round] is the quotient of the
    specification, rounded to a double. *)
Lemma raw_quotient (c m : Z) :
  1 <= c -> c < m -> (m - c) * 100 < 2 ^ 52 ->
  div (mul (sub (Int m) (Int c)) (Int 100)) (Int c) = double (quotient c m).
Proof.
  intros Hc Hlt Hsmall.
  rewrite sub_Int by (unfold isSafeInteger; lia).
  rewrite mul_Int by (unfold isSafeInteger; lia).
  now apply div_Int.
Qed.

(** Rounding half up, on a quotient of integers, in integer arithmetic. *)
Lemma round_half_up (a c : Z) :
  1 <= c ->
  Qfloor (inject_Z a / inject_Z c + (1 # 2)) = (2 * a + c) / (2 * c).
Proof.
  intros Hc.
  assert (Heq : (inject_Z a / inject_Z c + (1 # 2)
                 == (2 * a + c) # (Z.to_pos (2 * c)))%Q).
  { rewrite (Qmake_Qdiv (2 * a + c)).
    rewrite Z2Pos.id by lia.
    rewrite inject_Z_plus, !inject_Z_mult.
    assert (Hnz : ~ (inject_Z c == 0)%Q).
    { unfold Qeq, inject_Z; simpl. lia. }
    field. exact Hnz. }
  rewrite Heq. unfold Qfloor. now rewrite Z2Pos.id by lia.
Qed.

Lemma round_half_up_quotient (c m : Z) :
  1 <= c ->
  Qfloor (quotient c m + (1 # 2)) = (200 * (m - c) + c) / (2 * c).
Proof.
  intros Hc. unfold quotient. rewrite round_half_up by exact Hc.
  f_equal. lia.
Qed.

(** Below [2 ^ 52] the rounding of the quotient to a double does not move
    it across a half: [Math.round] of the double is the quotient rounded
    half up. *)
Lemma round_double_quotient (a c : Z) :
  1 <= c -> c < 2 ^ 53 -> 0 < a -> a < 2 ^ 52 ->
  exists y, double (inject_Z a / inject_Z c) = Finite y /\
            Qfloor (y + (1 # 2)) = Qfloor (inject_Z a / inject_Z c + (1 # 2)).
Proof.
  intros Hc Hc53 Ha Ha52.
  set (q := (inject_Z a / inject_Z c)%Q).
  set (K := Qfloor (q + (1 # 2))).
  assert (HK : K = (2 * a + c) / (2 * c)) by (apply round_half_up; exact Hc).
  pose proof (Z.div_mod (2 * a + c) (2 * c) ltac:(lia)) as Hdm.
  pose proof (Z.mod_pos_bound (2 * a + c) (2 * c) ltac:(lia)) as Hmod.
  rewrite <- HK in Hdm.
  assert (HC : (0 < inject_Z c)%Q) by (rewrite <- (Zlt_Qlt 0); lia).
  assert (HqC : (q * inject_Z c == inject_Z a)%Q) by (unfold q; field; lra).
  destruct (Z.eq_dec ((2 * a + c) mod (2 * c)) 0) as [Htie | Hoff].
  - (* the quotient is K - 1/2: a double *)
    assert (Hq : (q == inject_Z (2 * K - 1) * pow2 (-1))%Q).
    { change (pow2 (-1)) with (/ 2)%Q.
      assert (E : (inject_Z (2 * a) == inject_Z ((2 * K - 1) * c))%Q)
        by (apply inject_Z_injective; lia).
      rewrite !inject_Z_mult in E. change (inject_Z 2) with 2%Q in E.
      apply (Qmult_inj_r _ _ (inject_Z c)); [lra |]. rewrite HqC.
      rewrite <- (Qmult_inj_r _ _ 2%Q) by discriminate.
      rewrite Qmult_comm, E. field. }
    assert (HKpos : 0 < 2 * K - 1 < 2 ^ 53) by nia.
    exists (Qred q). split.
    + apply (double_exact q (2 * K - 1) (-1)); [lia | lia | exact Hq].
    + apply Qfloor_comp. now rewrite Qred_correct.
  - assert (Hlow : (pow2 (-1022) <= q)%Q).
    { apply Qle_trans with (pow2 (-53)); [apply pow2_le; lia |].
      apply (Qmult_le_r _ _ (inject_Z c)); [exact HC |]. rewrite HqC.
      apply Qle_trans with 1%Q.
      - apply Qle_trans with (pow2 (-53) * pow2 53)%Q.
        + pose proof (pow2_pos (-53)). apply Qmult_le_l; [assumption |].
          rewrite pow2_Z by lia. rewrite <- Zle_Qle. lia.
        + rewrite <- pow2_add. apply Qle_refl.
      - rewrite <- (Zle_Qle 1). lia. }
    assert (Hqa : (q <= inject_Z a)%Q).
    { apply (Qmult_le_r _ _ (inject_Z c)); [exact HC |]. rewrite HqC.
      assert (0 <= inject_Z a)%Q by (rewrite <- (Zle_Qle 0); lia).
      assert (1 <= inject_Z c)%Q by (rewrite <- (Zle_Qle 1); lia).
      nra. }
    assert (Ha' : (inject_Z a < pow2 52)%Q)
      by (rewrite pow2_Z by lia; now rewrite <- Zlt_Qlt).
    assert (Hhigh : (q < pow2 1023)%Q).
    { apply Qle_lt_trans with (inject_Z a); [exact Hqa |].
      eapply Qlt_le_trans; [exact Ha' |]. apply pow2_le. lia. }
    destruct (double_near q Hlow Hhigh) as (r & Hr & Hrlo & Hrhi).
    exists (Qred r). split; [exact Hr |]. fold K.
    assert (Hfl : Qfloor (Qred r + (1 # 2)) = Qfloor (r + (1 # 2)))
      by (apply Qfloor_comp; now rewrite Qred_correct).
    rewrite Hfl.
    (* the error, times c, is below one half *)
    set (p := pow2 (-53)) in *.
    assert (Hp : (0 < p)%Q) by apply pow2_pos.
    assert (Herr : (inject_Z a * p < 1 # 2)%Q).
    { apply Qlt_le_trans with (pow2 52 * p)%Q.
      - apply Qmult_lt_compat_r; assumption.
      - unfold p. rewrite <- pow2_add. apply Qle_refl. }
    assert (Elo : ((q - q * p) * inject_Z c == inject_Z a - inject_Z a * p)%Q)
      by (rewrite <- HqC; ring).
    assert (Ehi : ((q + q * p) * inject_Z c == inject_Z a + inject_Z a * p)%Q)
      by (rewrite <- HqC; ring).
    assert (HrloC : ((q - q * p) * inject_Z c <= r * inject_Z c)%Q)
      by (apply Qmult_le_compat_r; lra).
    assert (HrhiC : (r * inject_Z c <= (q + q * p) * inject_Z c)%Q)
      by (apply Qmult_le_compat_r; lra).
    rewrite Elo in HrloC. rewrite Ehi in HrhiC.
    (* the quotient is at least 1 / (2 c) away from the halves *)
    assert (Zlo : 2 * K * c + 1 <= 2 * a + c) by lia.
    assert (Zhi : 2 * a + c + 1 <= 2 * K * c + 2 * c) by lia.
    rewrite Zle_Qle in Zlo, Zhi.
    repeat (rewrite inject_Z_plus in Zlo || rewrite inject_Z_mult in Zlo).
    repeat (rewrite inject_Z_plus in Zhi || rewrite inject_Z_mult in Zhi).
    change (inject_Z 2) with 2%Q in *. change (inject_Z 1) with 1%Q in *.
    apply Qfloor_unique.
    + apply Qnot_lt_le. intros Hcontra.
      assert (((r + (1 # 2)) * inject_Z c < inject_Z K * inject_Z c)%Q)
        by (apply Qmult_lt_compat_r; assumption).
      lra.
    + rewrite inject_Z_plus. change (inject_Z 1) with 1%Q.
      apply Qnot_le_lt. intros Hcontra.
      assert (((inject_Z K + 1) * inject_Z c <= (r + (1 # 2)) * inject_Z c)%Q)
        by (apply Qmult_le_compat_r; lra).
      lra.
Qed.

(** The client value already meets the minimum: it is kept. *)
Lemma adjustUp_kept (c m : Z) :
  m <= c ->
  adjustGasCostParameterUp (Int c) (Int m)
  = {| newValue := Int c; deltaPercent := Int 0 |}.
Proof.
  intros Hle. unfold adjustGasCostParameterUp. rewrite ge_Int.
  apply Z.leb_le in Hle. now rewrite Hle.
Qed.

(** The client value is below the minimum: it is raised, and the deviation
    is the rounded quotient, as long as the raise is not huge. *)
Lemma adjustUp_raised (c m : Z) :
  1 <= c -> c < m -> isSafeInteger c -> (m - c) * 100 < 2 ^ 52 ->
  adjustGasCostParameterUp (Int c) (Int m)
  = {| newValue := Int m; deltaPercent := Int (Qfloor (quotient c m + (1 # 2))) |}.
Proof.
  intros Hc Hlt Hsafe Hsmall. unfold adjustGasCostParameterUp. rewrite ge_Int.
  assert (Hgt : (m <=? c) = false) by (apply Z.leb_gt; lia).
  rewrite Hgt, raw_quotient by assumption.
  destruct (round_double_quotient ((m - c) * 100) c Hc
              ltac:(unfold isSafeInteger in Hsafe; lia) ltac:(lia) Hsmall)
    as (y & Hy & Hround).
  unfold quotient. rewrite Hy. unfold round. now rewrite Hround.
Qed.

Lemma adjustUp_newValue (c m : Z) :
  newValue (adjustGasCostParameterUp (Int c) (Int m)) = Int (Z.max c m).
Proof.
  unfold adjustGasCostParameterUp. rewrite ge_Int.
  destruct (Z.leb_spec m c) as [Hle | Hlt]; simpl; f_equal; lia.
Qed.

Lemma rounded_quotient_nonneg (c m : Z) :
  1 <= c -> c < m -> 0 <= Qfloor (quotient c m + (1 # 2)).
Proof.
  intros Hc Hlt. rewrite round_half_up_quotient by exact Hc.
  apply Z.div_pos; lia.
Qed.

(** C1. For integer fee values a JavaScript number holds exactly, with
    [clientInput >= 1]: when the client value already meets the server
    minimum the result is [(clientInput, 0)]; otherwise the new value is
    the server minimum and, as long as [(minimum - clientInput) * 100] is
    below [2 ^ 52], the deviation is the quotient
    [(minimum - clientInput) * 100 / clientInput] rounded to the nearest
    integer, a tie going up.  In both cases the new value is the maximum
    of the two inputs. *)
Theorem adjustGasCostParameterUp_spec (c m : Z)
    (Hc : 1 <= c) (Hcs : isSafeInteger c) (Hms : isSafeInteger m) :
  (m <= c ->
     adjustGasCostParameterUp (Int c) (Int m)
     = {| newValue := Int c; deltaPercent := Int 0 |}) /\
  (c < m -> (m - c) * 100 < 2 ^ 52 ->
     exists r : Z,
       adjustGasCostParameterUp (Int c) (Int m)
       = {| newValue := Int m; deltaPercent := Int r |} /\
       (inject_Z r - (1 # 2) <= quotient c m)%Q /\
       (quotient c m < inject_Z r + (1 # 2))%Q /\
       r = (200 * (m - c) + c) / (2 * c) /\
       0 <= r) /\
  newValue (adjustGasCostParameterUp (Int c) (Int m)) = Int (Z.max c m).
Proof.
  split; [| split].
  - now apply adjustUp_kept.
  - intros Hlt Hsmall. exists (Qfloor (quotient c m + (1 # 2))).
    pose proof (Qfloor_le (quotient c m + (1 # 2))) as Hlo.
    pose proof (Qlt_floor (quotient c m + (1 # 2))) as Hhi.
    rewrite inject_Z_plus in Hhi.
    split; [now apply adjustUp_raised |]. repeat split.
    + apply (Qplus_le_l _ _ (1 # 2)). ring_simplify. ring_simplify in Hlo.
      exact Hlo.
    + apply (Qplus_lt_l _ _ (1 # 2)).
      eapply Qlt_le_trans; [exact Hhi |].
      apply Qle_lteq; right. simpl. ring.
    + now apply round_half_up_quotient.
    + now apply rounded_quotient_nonneg.
  - apply adjustUp_newValue.
Qed.

Lemma adjustGasCostParameterUp_spec_witness :
  1 <= 100 /\
  adjustGasCostParameterUp (Int 100) (Int 150)
  = {| newValue := Int 150; deltaPercent := Int 50 |}.
Proof.
  split; [lia |].
  destruct (adjustGasCostParameterUp_spec 100 150 ltac:(lia)
              ltac:(unfold isSafeInteger; simpl; lia)
              ltac:(unfold isSafeInteger; simpl; lia)) as (_ & Hup & _).
  destruct (Hup ltac:(lia) ltac:(simpl; lia)) as (r & Heq & _ & _ & Hr & _).
  rewrite Heq, Hr. reflexivity.
Defined.

(** C1 does not hold for every pair of integers: a raise from 9 to
    50665495807930 is by 562949953421344.44 percent, which rounds to
    ...344; the code first rounds the quotient to the nearest double,
    ...344.5, and [Math.round] then gives ...345. *)
Lemma adjustGasCostParameterUp_rounds_twice :
  1 <= 9 /\ isSafeInteger 9 /\ isSafeInteger 50665495807930 /\
  double (quotient 9 50665495807930) = Finite (1125899906842689 # 2) /\
  adjustGasCostParameterUp (Int 9) (Int 50665495807930)
  = {| newValue := Int 50665495807930; deltaPercent := Int 562949953421345 |} /\
  Qfloor (quotient 9 50665495807930 + (1 # 2)) = 562949953421344 /\
  deltaPercent (adjustGasCostParameterUp (Int 9) (Int 50665495807930))
  <> Int (Qfloor (quotient 9 50665495807930 + (1 # 2))).
Proof.
  split; [lia |]. split; [unfold isSafeInteger; simpl; lia |].
  split; [unfold isSafeInteger; simpl; lia |].
  split; [vm_compute; reflexivity |]. split; [vm_compute; reflexivity |].
  split; [vm_compute; reflexivity |]. vm_compute. discriminate.
Qed.

Example adjust_equal : adjustGasCostParameterUp (Int 100) (Int 100)
                       = {| newValue := Int 100; deltaPercent := Int 0 |}.
Proof. vm_compute. reflexivity. Qed.

Example adjust_raise : adjustGasCostParameterUp (Int 100) (Int 150)
                       = {| newValue := Int 150; deltaPercent := Int 50 |}.
Proof. vm_compute. reflexivity. Qed.

(** A tie is rounded up: [(9 - 8) * 100 / 8 = 12.5] gives 13. *)
Example adjust_tie : adjustGasCostParameterUp (Int 8) (Int 9)
                     = {| newValue := Int 9; deltaPercent := Int 13 |}.
Proof. vm_compute. reflexivity. Qed.

(** A small raise of a large value rounds to no deviation at all. *)
Example adjust_small_raise : adjustGasCostParameterUp (Int 1000) (Int 1001)
                             = {| newValue := Int 1001; deltaPercent := Int 0 |}.
Proof. vm_compute. reflexivity. Qed.

(** Outside the claim's domain the division is by zero. *)
Example adjust_zero_client : adjustGasCostParameterUp (Int 0) (Int 5)
                             = {| newValue := Int 5; deltaPercent := PosInf |}.
Proof. vm_compute. reflexivity. Qed.

(** [parseInt] rounds what it reads to a double. *)
Example parseInt_rounds : parseInt "9007199254740993" = Int 9007199254740992.
Proof. vm_compute. reflexivity. Qed.

Lemma parseInt_safe (s : string) (sign v : Z) (rest : string) :
  stripSign (skipWhiteSpace s) = (sign, rest) ->
  parseDigits (fst (stripRadixPrefix rest)) None (snd (stripRadixPrefix rest)) = Some v ->
  isSafeInteger (sign * v) ->
  parseInt s = Int (sign * v).
Proof.
  intros Hsign Hdigits Hsafe. unfold parseInt. rewrite Hsign.
  destruct (stripRadixPrefix rest) as [radix s2]. cbn [fst snd] in Hdigits.
  rewrite Hdigits. now apply double_Int.
Qed.




Section AdjustRelayRequestFacts.

Variable toHex : number -> string.


End AdjustRelayRequestFacts.


(** Deviations of 10% and 50% give 50%, not their average 30% or sum 60%. *)
Example adjustRelayRequest_sample :
  adjustRelayRequestForPingResponse hexOfNumber sampleFees sampleRelay
  = {| relayInfo := sampleRelay;
       maxDeltaPercent := Int 50;
       updatedGasFees := {| maxFeePerGas := "0x96"; maxPriorityFeePerGas := "0x6e" |} |}.
Proof. vm_compute. reflexivity. Qed.

(** With a huge raise of the fee the deviations are the ones the code
    computes in doubles, and their maximum is reported all the same. *)
Example adjustRelayRequest_huge_raise :
  maxDeltaPercent
    (adjustRelayRequestForPingResponse hexOfNumber
       {| maxFeePerGas := "9"; maxPriorityFeePerGas := "100" |}
       {| pingResponse := {| minMaxPriorityFeePerGas := "100";
                             minMaxFeePerGas := "50665495807930" |} |})
  = Int 562949953421345.
Proof. vm_compute. reflexivity. Qed.

(** Whatever the four strings hold, the overall deviation is [Math.max] of
    the two per-parameter deviations. *)
Lemma adjustRelayRequest_maxDeltaPercent
    (toHex : number -> string) (feesIn : EIP1559Fees) (info : PartialRelayInfo) :
  maxDeltaPercent (adjustRelayRequestForPingResponse toHex feesIn info)
  = JS.max
      (deltaPercent (adjustGasCostParameterUp
                       (parseInt feesIn.(maxFeePerGas))
                       (parseInt info.(pingResponse).(minMaxFeePerGas))))
      (deltaPercent (adjustGasCostParameterUp
                       (parseInt feesIn.(maxPriorityFeePerGas))
                       (parseInt info.(pingResponse).(minMaxPriorityFeePerGas)))).
Proof. reflexivity. Qed.

(** ** [waitForSuccess]: the checks before the race *)

(** [indexOf] finds the first occurrence. *)
Lemma indexOfFrom_first (l : list string) (key : string) (i : Z) (n : nat) :
  l !! n = Some key ->
  (forall m, (m < n)%nat -> l !! m <> Some key) ->
  indexOfFrom i l key = i + Z.of_nat n.
Proof.
  revert i n. induction l as [| k rest IH]; intros i n Hn Hfirst; [discriminate |].
  simpl. destruct n as [| n'].
  - injection Hn as ->. rewrite String.eqb_refl. lia.
  - destruct (String.eqb_spec k key) as [-> | Hne].
    + exfalso. apply (Hfirst 0%nat); [lia | reflexivity].
    + rewrite (IH (i + 1) n' Hn).
      * lia.
      * intros m Hm. apply (Hfirst (S m)). lia.
Qed.

Lemma uniqueKeysFrom_spec (errorKeys done_ todo : list string) :
  errorKeys = done_ ++ todo ->
  uniqueKeysFrom errorKeys (length done_) todo = true <->
  (forall n key, todo !! n = Some key ->
                 indexOf errorKeys key = Z.of_nat (length done_ + n)).
Proof.
  revert done_. induction todo as [| key rest IH]; intros done_ Hsplit; simpl.
  - split; [intros _ n key Hn; discriminate | reflexivity].
  - specialize (IH (done_ ++ [key])).
    rewrite length_app in IH; simpl in IH.
    replace (length done_ + 1)%nat with (S (length done_)) in IH by lia.
    rewrite <- app_assoc in IH; simpl in IH. specialize (IH Hsplit).
    destruct (Z.eqb_spec (indexOf errorKeys key) (Z.of_nat (length done_))) as [Hhere | Hnot].
    + rewrite IH. split.
      * intros Hrest [| n] k Hn; simpl in Hn.
        -- injection Hn as <-. rewrite Hhere. f_equal. lia.
        -- rewrite (Hrest n k Hn). f_equal. lia.
      * intros Hall n k Hn. rewrite (Hall (S n) k Hn). f_equal. lia.
    + split; [discriminate |].
      intros Hall. exfalso. apply Hnot.
      rewrite (Hall 0%nat key eq_refl). f_equal. lia.
Qed.

(** The loop accepts exactly the key lists without a repeated key. *)
Lemma uniqueKeys_NoDup (errorKeys : list string) :
  uniqueKeys errorKeys = true <-> NoDup errorKeys.
Proof.
  unfold uniqueKeys.
  rewrite (uniqueKeysFrom_spec errorKeys [] errorKeys eq_refl). simpl.
  rewrite NoDup_alt. split.
  - intros Hall i j key Hi Hj.
    pose proof (Hall i key Hi) as Ei. pose proof (Hall j key Hj) as Ej. lia.
  - intros Hinj n key Hn. unfold indexOf.
    rewrite (indexOfFrom_first errorKeys key 0 n Hn); [lia |].
    intros m Hm Hmkey. specialize (Hinj _ _ _ Hmkey Hn). lia.
Qed.

Lemma uniqueKeys_false (errorKeys : list string) :
  ~ NoDup errorKeys -> uniqueKeys errorKeys = false.
Proof.
  intros Hdup. destruct (uniqueKeys errorKeys) eqn:E; [| reflexivity].
  exfalso. apply Hdup. now apply uniqueKeys_NoDup.
Qed.

(** [waitForSuccess] starts the race exactly on key lists as long as the
    promise list and free of repetitions. *)
Lemma waitForSuccess_races {T} (promises : list (Promise T)) errorKeys graceTime st :
  waitForSuccess promises errorKeys graceTime = Races st <->
  length promises = length errorKeys /\ NoDup errorKeys /\ st = executor promises.
Proof.
  unfold waitForSuccess.
  destruct (Nat.eqb_spec (length promises) (length errorKeys)) as [Hlen | Hlen]; simpl.
  - destruct (uniqueKeys errorKeys) eqn:Hu; simpl.
    + apply uniqueKeys_NoDup in Hu. split.
      * intros [= <-]. auto.
      * intros (_ & _ & ->). reflexivity.
    + split; [discriminate |]. intros (_ & Hnd & _).
      apply uniqueKeys_NoDup in Hnd. congruence.
  - split; [discriminate |]. intros (Hl & _). contradiction.
Qed.

(** C8. A key list (as long as the probe list) that holds a duplicate key
    makes [waitForSuccess] fail at once with the duplicate-key error: no
    race is started and no callback is attached to any probe. *)
Theorem waitForSuccess_duplicate_keys {T}
    (promises : list (Promise T)) (errorKeys : list string) (graceTime : nat)
    (Hlen : length promises = length errorKeys)
    (Hdup : ~ NoDup errorKeys) :
  waitForSuccess promises errorKeys graceTime
  = Throws (mkError "waitForSuccess: duplicate relay URL keys, aborting") /\
  subscribed (waitForSuccess promises errorKeys graceTime) = 0%nat.
Proof.
  unfold waitForSuccess.
  rewrite (proj2 (Nat.eqb_eq _ _) Hlen), (uniqueKeys_false _ Hdup). simpl. auto.
Qed.

Lemma waitForSuccess_duplicate_keys_witness :
  waitForSuccess [Fulfils 0 1%nat; Rejects 5 (mkError "down"); Forever]
                 ["https://a"; "https://b"; "https://a"] 10
  = Throws (mkError "waitForSuccess: duplicate relay URL keys, aborting").
Proof.
  apply (waitForSuccess_duplicate_keys
           [Fulfils 0 1%nat; Rejects 5 (mkError "down"); Forever]
           ["https://a"; "https://b"; "https://a"] 10 eq_refl).
  intros Hnd. apply NoDup_cons in Hnd as [Hnotin _].
  apply Hnotin. right. left.
Defined.

(** C10. When the number of promises differs from the number of error keys,
    [waitForSuccess] throws ['Invalid errorKeys length'] in the synchronous
    part of the call: no callback is attached to any promise, so nothing is
    ever recorded. *)
Theorem waitForSuccess_invalid_length {T}
    (promises : list (Promise T)) (errorKeys : list string) (graceTime : nat)
    (Hlen : length promises <> length errorKeys) :
  waitForSuccess promises errorKeys graceTime
  = Throws (mkError "Invalid errorKeys length") /\
  subscribed (waitForSuccess promises errorKeys graceTime) = 0%nat /\
  (forall st : State T, waitForSuccess promises errorKeys graceTime <> Races st).
Proof.
  unfold waitForSuccess.
  rewrite (proj2 (Nat.eqb_neq _ _) Hlen). simpl. repeat split. discriminate.
Qed.

Lemma waitForSuccess_invalid_length_witness :
  waitForSuccess [Fulfils 0 1%nat; Forever] ["https://a"] 10
  = Throws (mkError "Invalid errorKeys length").
Proof.
  apply (waitForSuccess_invalid_length [Fulfils 0 1%nat; Forever] ["https://a"] 10).
  simpl. lia.
Defined.

(** The length check comes first: with both defects it is the one reported. *)
Example waitForSuccess_length_before_duplicates :
  waitForSuccess [Fulfils 0 1%nat] ["https://a"; "https://a"] 10
  = Throws (mkError "Invalid errorKeys length").
Proof. reflexivity. Qed.

(** [firstSuccess] is the least fulfilment time. *)
Lemma firstSuccess_None {T} (promises : list (Promise T)) :
  firstSuccess promises = None <->
  (forall i t v, promises !! i <> Some (Fulfils t v)).
Proof.
  induction promises as [| p rest IH]; simpl.
  - split; [intros _ i t v; discriminate | reflexivity].
  - split.
    + intros H [| i] t v; simpl.
      * destruct p; [destruct (firstSuccess rest); discriminate | discriminate | discriminate].
      * apply IH. destruct p; [destruct (firstSuccess rest); discriminate | exact H | exact H].
    + intros H. destruct p as [t v | |].
      * exfalso. apply (H 0%nat t v). reflexivity.
      * apply IH. intros i. apply (H (S i)).
      * apply IH. intros i. apply (H (S i)).
Qed.

Lemma firstSuccess_Some {T} (promises : list (Promise T)) (t0 : nat) :
  firstSuccess promises = Some t0 <->
  (exists i v, promises !! i = Some (Fulfils t0 v)) /\
  (forall j t v, promises !! j = Some (Fulfils t v) -> (t0 <= t)%nat).
Proof.
  revert t0. induction promises as [| p rest IH]; intros t0; simpl.
  - split; [discriminate |]. intros [(i & v & Hi) _]. discriminate.
  - destruct p as [t v | t e |].
    + destruct (firstSuccess rest) as [t' |] eqn:Hrest.
      * destruct (IH t') as [IHt' _]. destruct (IHt' eq_refl) as [(i & w & Hi) Hmin].
        split.
        -- intros [= <-]. split.
           ++ destruct (Nat.min_spec t t') as [[_ ->] | [_ ->]].
              ** exists 0%nat, v. reflexivity.
              ** exists (S i), w. exact Hi.
           ++ intros [| j] u x Hj; simpl in Hj.
              ** injection Hj as -> ->. lia.
              ** specialize (Hmin _ _ _ Hj). lia.
        -- intros [(k & x & Hk) Hleast]. f_equal.
           pose proof (Hleast 0%nat t v eq_refl) as H0.
           pose proof (Hleast (S i) t' w Hi) as H1.
           destruct k as [| k]; simpl in Hk.
           ++ injection Hk as -> ->. lia.
           ++ specialize (Hmin _ _ _ Hk). lia.
      * pose proof (proj1 (firstSuccess_None rest) Hrest) as Hnone.
        split.
        -- intros [= <-]. split.
           ++ exists 0%nat, v. reflexivity.
           ++ intros [| j] u x Hj; simpl in Hj.
              ** injection Hj as -> ->. lia.
              ** exfalso. eapply Hnone, Hj.
        -- intros [(k & x & Hk) Hleast]. f_equal.
           destruct k as [| k]; simpl in Hk.
           ++ now injection Hk as -> ->.
           ++ exfalso. eapply Hnone, Hk.
    + rewrite IH. split.
      * intros [(i & v & Hi) Hmin]. split; [exists (S i), v; exact Hi |].
        intros [| j] u x Hj; simpl in Hj; [discriminate | eauto].
      * intros [(i & v & Hi) Hmin]. split.
        -- destruct i as [| i]; simpl in Hi; [discriminate | eauto].
        -- intros j u x Hj. apply (Hmin (S j) u x Hj).
    + rewrite IH. split.
      * intros [(i & v & Hi) Hmin]. split; [exists (S i), v; exact Hi |].
        intros [| j] u x Hj; simpl in Hj; [discriminate | eauto].
      * intros [(i & v & Hi) Hmin]. split.
        -- destruct i as [| i]; simpl in Hi; [discriminate | eauto].
        -- intros j u x Hj. apply (Hmin (S j) u x Hj).
Qed.

(** [lastSettlement] is defined when every promise settles, and is then the
    greatest settlement time. *)
Lemma lastSettlement_Some {T} (promises : list (Promise T)) (tAll : nat) :
  lastSettlement promises = Some tAll ->
  forall i p, promises !! i = Some p ->
              exists t, settleTime p = Some t /\ (t <= tAll)%nat.
Proof.
  revert tAll. induction promises as [| q rest IH]; intros tAll; simpl.
  - intros _ i p Hi. discriminate.
  - destruct (settleTime q) as [t |] eqn:Hq; [| discriminate].
    destruct (lastSettlement rest) as [t' |]; [| discriminate].
    intros [= <-] [| i] p Hi; simpl in Hi.
    + injection Hi as <-. exists t. split; [exact Hq | lia].
    + destruct (IH t' eq_refl i p Hi) as (u & Hu & Hle).
      exists u. split; [exact Hu | lia].
Qed.

Lemma lastSettlement_None {T} (promises : list (Promise T)) :
  lastSettlement promises = None <-> Forever ∈ promises.
Proof.
  induction promises as [| q rest IH]; simpl.
  - split; [discriminate | intros H; inversion H].
  - rewrite elem_of_cons. destruct q as [t v | t e |]; simpl.
    + destruct (lastSettlement rest).
      * split; [discriminate |]. intros [H | H]; [discriminate |].
        apply IH in H. discriminate.
      * split; [| reflexivity]. intros _. right. now apply IH.
    + destruct (lastSettlement rest).
      * split; [discriminate |]. intros [H | H]; [discriminate |].
        apply IH in H. discriminate.
      * split; [| reflexivity]. intros _. right. now apply IH.
    + split; auto.
Qed.

(** The greatest settlement time is the time of some promise. *)
Lemma lastSettlement_reached {T} (promises : list (Promise T)) (tAll : nat) :
  promises <> [] -> lastSettlement promises = Some tAll ->
  exists i p, promises !! i = Some p /\ settleTime p = Some tAll.
Proof.
  revert tAll. induction promises as [| q rest IH]; intros tAll Hne; [contradiction |].
  simpl. destruct (settleTime q) as [t |] eqn:Hq; [| discriminate].
  destruct (lastSettlement rest) as [t' |] eqn:Hrest; [| discriminate].
  intros [= <-]. destruct rest as [| q' rest'].
  - simpl in Hrest. injection Hrest as <-. exists 0%nat, q.
    split; [reflexivity |]. rewrite Hq. f_equal. lia.
  - destruct (Nat.max_spec t t') as [[_ ->] | [_ ->]].
    + destruct (IH t' ltac:(discriminate) eq_refl) as (i & p & Hi & Hp).
      exists (S i), p. auto.
    + exists 0%nat, q. auto.
Qed.

Lemma resolutionTime_empty {T} (promises : list (Promise T)) (graceTime : nat) :
  length promises = 0%nat -> resolutionTime promises graceTime = None.
Proof. destruct promises; [reflexivity | discriminate]. Qed.

Lemma resolutionTime_nonempty {T} (promises : list (Promise T)) (graceTime : nat) :
  (1 <= length promises)%nat ->
  resolutionTime promises graceTime
  = match firstSuccess promises, lastSettlement promises with
    | Some t0, Some tAll => Some (Nat.min (t0 + graceTime) tAll)
    | Some t0, None => Some (t0 + graceTime)%nat
    | None, Some tAll => Some tAll
    | None, None => None
    end.
Proof. destruct promises; simpl; [lia | reflexivity]. Qed.

(** ** [waitForSuccess]: the race *)

Section RaceFacts.

Context {T : Type}.
Variable promises : list (Promise T).
Variable errorKeys : list string.
Variable graceTime : nat.

Local Abbreviation step := (step promises errorKeys graceTime).
Local Abbreviation exec := (exec promises errorKeys graceTime).
Local Abbreviation firstResolved := (firstResolved promises errorKeys graceTime).
Local Abbreviation executor := (executor promises).
Local Abbreviation Books := (Books promises errorKeys).
Local Abbreviation Clock := (Clock promises).
Local Abbreviation Timer := (Timer promises graceTime).
Local Abbreviation Quiet := (Quiet promises).

Implicit Types (st : State T) (tr : list Event) (ev : Event).

Lemma exec_app st tr1 tr2 :
  exec st (tr1 ++ tr2) = exec st tr1 ≫= fun s => exec s tr2.
Proof.
  revert st. induction tr1 as [| ev tr1 IH]; intros st; simpl; [reflexivity |].
  destruct (step st ev); simpl; [apply IH | reflexivity].
Qed.

Lemma exec_snoc st tr ev st' :
  exec st (tr ++ [ev]) = Some st' <->
  exists s, exec st tr = Some s /\ step s ev = Some st'.
Proof.
  rewrite exec_app. split.
  - destruct (exec st tr) as [s |]; simpl; [| discriminate].
    destruct (step s ev) as [s' |] eqn:E; [| discriminate].
    intros [= <-]. eauto.
  - intros (s & -> & Hs). simpl. now rewrite Hs.
Qed.

(** Induction over the runs that start when the executor returns. *)
Lemma run_ind (P : list Event -> State T -> Prop) :
  P [] executor ->
  (forall tr s ev s',
      exec executor tr = Some s -> P tr s -> step s ev = Some s' -> P (tr ++ [ev]) s') ->
  forall tr st, exec executor tr = Some st -> P tr st.
Proof.
  intros Hinit Hstep tr. induction tr as [| ev tr IH] using rev_ind; intros st Hrun.
  - injection Hrun as <-. exact Hinit.
  - apply exec_snoc in Hrun as (s & Hs & Hev). eauto.
Qed.

Lemma microtasksPending_false st :
  microtasksPending st = false <-> Handled ∉ chains st.
Proof. unfold microtasksPending. apply bool_decide_eq_false. Qed.

Lemma noSettlementBefore_spec t st :
  noSettlementBefore promises t st = true <->
  (forall i p s, st.(chains) !! i = Some Subscribed -> promises !! i = Some p ->
                 settleTime p = Some s -> (t <= s)%nat).
Proof.
  unfold noSettlementBefore. rewrite forallb_forall. split.
  - intros Hall i p s Hc Hp Hs.
    assert (Hin : In (Subscribed, p) (zip st.(chains) promises)).
    { apply list_elem_of_In, list_elem_of_lookup. exists i.
      rewrite lookup_zip_with, Hc, Hp. reflexivity. }
    specialize (Hall _ Hin). simpl in Hall. rewrite Hs in Hall.
    now apply Nat.leb_le.
  - intros Hall [c p] Hin.
    apply list_elem_of_In, list_elem_of_lookup in Hin as (i & Hi).
    rewrite lookup_zip_with in Hi.
    destruct (st.(chains) !! i) as [c' |] eqn:Hc; simpl in Hi; [| discriminate].
    destruct (promises !! i) as [p' |] eqn:Hp; simpl in Hi; [| discriminate].
    injection Hi as -> ->.
    destruct c; try reflexivity.
    destruct (settleTime p) as [s |] eqn:Hs; [| reflexivity].
    apply Nat.leb_le. eauto.
Qed.

(** What each event needs, and what it does. *)
Lemma step_Settle st i st' :
  step st (Settle i) = Some st' <->
  st.(chains) !! i = Some Subscribed /\
  ((exists v, promises !! i = Some (Fulfils st.(now) v) /\
              st' = setChain i Handled (thenCallback graceTime v st)) \/
   (exists e key, promises !! i = Some (Rejects st.(now) e) /\
                  errorKeys !! i = Some key /\
                  st' = setChain i Handled (catchCallback key e st))).
Proof.
  simpl. split.
  - intros Hstep.
    repeat case_match; simplify_eq;
      match goal with H : (_ =? _)%nat = true |- _ => apply Nat.eqb_eq in H; subst end;
      (split; [reflexivity |]); eauto 10.
  - intros (-> & [(v & -> & ->) | (e & key & -> & -> & ->)]);
      rewrite Nat.eqb_refl; reflexivity.
Qed.

Lemma step_Finally st i st' :
  step st (Finally i) = Some st' <->
  st.(chains) !! i = Some Handled /\
  st' = setChain i Finished (finallyCallback promises st).
Proof.
  simpl. split.
  - destruct (st.(chains) !! i) as [[| |] |]; try discriminate.
    intros [= <-]. auto.
  - intros (-> & ->). reflexivity.
Qed.

Lemma step_Timeout st st' :
  step st Timeout = Some st' <->
  exists deadline rest,
    st.(timers) = deadline :: rest /\ (deadline <= st.(now))%nat /\
    (Handled ∉ chains st) /\ st' = complete (setTimers rest st).
Proof.
  simpl. split.
  - destruct (timers st) as [| d rest]; [discriminate |].
    destruct (Nat.leb_spec d (now st)) as [Hd |]; simpl; [| discriminate].
    destruct (microtasksPending st) eqn:Hm; simpl; [discriminate |].
    intros [= <-]. apply microtasksPending_false in Hm. eauto 10.
  - intros (d & rest & -> & Hd & Hm & ->).
    apply microtasksPending_false in Hm. rewrite Hm.
    rewrite (proj2 (Nat.leb_le _ _) Hd). reflexivity.
Qed.

Lemma step_Advance st t st' :
  step st (Advance t) = Some st' <->
  (st.(now) < t)%nat /\ (Handled ∉ chains st) /\
  (forall deadline, deadline ∈ timers st -> (t <= deadline)%nat) /\
  (forall i p s, st.(chains) !! i = Some Subscribed -> promises !! i = Some p ->
                 settleTime p = Some s -> (t <= s)%nat) /\
  st' = setNow t st.
Proof.
  simpl. rewrite <- noSettlementBefore_spec, <- microtasksPending_false.
  assert (Htimers : forallb (fun deadline => (t <=? deadline)%nat) st.(timers) = true <->
                    forall deadline, deadline ∈ timers st -> (t <= deadline)%nat).
  { rewrite forallb_forall. split; intros H d Hd.
    - apply Nat.leb_le, H, list_elem_of_In, Hd.
    - apply Nat.leb_le, H, list_elem_of_In, Hd. }
  rewrite <- Htimers. split.
  - destruct (Nat.ltb_spec (now st) t); simpl; [| discriminate].
    destruct (microtasksPending st); simpl; [discriminate |].
    destruct (forallb _ st.(timers)); simpl; [| discriminate].
    destruct (noSettlementBefore promises t st); simpl; [| discriminate].
    intros [= <-]. auto.
  - intros (Hlt & -> & -> & -> & ->). simpl.
    rewrite (proj2 (Nat.ltb_lt _ _) Hlt). reflexivity.
Qed.


(** *** Bookkeeping: what [ret] holds after a run *)

Hypothesis keys_length : length promises = length errorKeys.
Hypothesis keys_unique : NoDup errorKeys.

Lemma key_index i j key :
  errorKeys !! i = Some key -> errorKeys !! j = Some key -> i = j.
Proof. intros Hi Hj. exact (proj1 (NoDup_alt errorKeys) keys_unique i j key Hi Hj). Qed.

Lemma settled_app tr1 tr2 : settled (tr1 ++ tr2) = settled tr1 ++ settled tr2.
Proof.
  induction tr1 as [| ev tr1 IH]; simpl; [reflexivity |].
  destruct ev; simpl; now rewrite IH.
Qed.

Lemma finallyCallback_fields st :
  results (finallyCallback promises st) = results st /\
  errors (finallyCallback promises st) = errors st /\
  timers (finallyCallback promises st) = timers st /\
  now (finallyCallback promises st) = now st /\
  chains (finallyCallback promises st) = chains st.
Proof. unfold finallyCallback. case_match; simpl; auto. Qed.

Lemma successValues_snoc order i :
  successValues promises (order ++ [i])
  = successValues promises order ++ from_option (fun v => [v]) [] (promises !! i ≫= valueOf).
Proof.
  unfold successValues. rewrite omap_app. simpl.
  destruct (promises !! i ≫= valueOf); reflexivity.
Qed.

Lemma failureReasons_snoc order i :
  failureReasons promises (order ++ [i])
  = failureReasons promises order ++ from_option (fun e => [e]) [] (promises !! i ≫= reasonOf).
Proof.
  unfold failureReasons. rewrite omap_app. simpl.
  destruct (promises !! i ≫= reasonOf); reflexivity.
Qed.

Lemma books_executor : Books [] executor.
Proof.
  split; simpl.
  - apply length_replicate.
  - intros i. split.
    + intros Hin. inversion Hin.
    + intros (c & Hc & Hne). apply lookup_replicate in Hc as [-> _]. contradiction.
  - constructor.
  - reflexivity.
  - intros key e. rewrite lookup_empty. split; [discriminate |].
    intros (i & t & Hin & _). inversion Hin.
  - apply map_size_empty.
Qed.

(** Moving chain [i], which was subscribed, registers [i] as settled. *)
Lemma settled_insert tr st i c :
  (forall j, j ∈ settled tr <-> exists c, chains st !! j = Some c /\ c <> Subscribed) ->
  chains st !! i = Some Subscribed -> c <> Subscribed ->
  forall j, j ∈ settled tr ++ [i] <->
            exists c', <[i := c]> (chains st) !! j = Some c' /\ c' <> Subscribed.
Proof.
  intros Hset Hi Hc j. rewrite elem_of_app, list_elem_of_singleton, Hset.
  destruct (decide (j = i)) as [-> | Hne].
  - split; [intros _ | auto].
    exists c. split; [| exact Hc].
    apply list_lookup_insert_eq. eapply lookup_lt_Some, Hi.
  - rewrite list_lookup_insert_ne by congruence. intuition congruence.
Qed.

(** Moving a chain that had already left [Subscribed] changes nothing. *)
Lemma settled_keep tr st i c0 c :
  (forall j, j ∈ settled tr <-> exists c, chains st !! j = Some c /\ c <> Subscribed) ->
  chains st !! i = Some c0 -> c0 <> Subscribed -> c <> Subscribed ->
  forall j, j ∈ settled tr <->
            exists c', <[i := c]> (chains st) !! j = Some c' /\ c' <> Subscribed.
Proof.
  intros Hset Hi Hc0 Hc j. rewrite Hset.
  destruct (decide (j = i)) as [-> | Hne].
  - rewrite list_lookup_insert_eq by (eapply lookup_lt_Some, Hi).
    split; intros _; eauto.
  - rewrite list_lookup_insert_ne by congruence. reflexivity.
Qed.

Lemma books_step tr s ev s' :
  Books tr s -> step s ev = Some s' -> Books (tr ++ [ev]) s'.
Proof.
  intros [Hlen Hset Honce Hres Herr Hsize] Hstep.
  assert (Hfresh : forall i, chains s !! i = Some Subscribed -> i ∉ settled tr).
  { intros i Hi Hin. apply Hset in Hin as (c & Hc & Hne). congruence. }
  destruct ev as [i | i | | t].
  - (* Settle *)
    apply step_Settle in Hstep as (Hi & [(v & Hp & ->) | (e & key & Hp & Hkey & ->)]).
    + split; rewrite ?settled_app; simpl.
      * now rewrite length_insert.
      * now apply settled_insert.
      * apply NoDup_app. split; [exact Honce |]. split; [| apply NoDup_singleton].
        intros j Hj Hji. apply list_elem_of_singleton in Hji. subst j.
        now apply (Hfresh i).
      * rewrite successValues_snoc, Hp, Hres. reflexivity.
      * intros key e. rewrite Herr. split.
        -- intros (j & t & Hin & Hrest). exists j, t. split; [| exact Hrest].
           apply elem_of_app. now left.
        -- intros (j & t & Hin & Hk & Hpj). exists j, t.
           apply elem_of_app in Hin as [Hin | ->%list_elem_of_singleton]; [auto |].
           congruence.
      * rewrite failureReasons_snoc, Hp, Hsize. simpl. now rewrite app_nil_r.
    + assert (Hnone : errors s !! key = None).
      { destruct (errors s !! key) as [e' |] eqn:He'; [| reflexivity].
        apply Herr in He' as (j & t & Hin & Hk & _).
        assert (j = i) as -> by (eapply key_index; eauto).
        now apply Hfresh in Hin. }
      split; rewrite ?settled_app; simpl.
      * now rewrite length_insert.
      * now apply settled_insert.
      * apply NoDup_app. split; [exact Honce |]. split; [| apply NoDup_singleton].
        intros j Hj Hji. apply list_elem_of_singleton in Hji. subst j.
        now apply (Hfresh i).
      * rewrite successValues_snoc, Hp, Hres. simpl. now rewrite app_nil_r.
      * intros key' e'. destruct (decide (key' = key)) as [-> | Hne].
        -- rewrite lookup_insert_eq. split.
           ++ intros [= <-]. exists i, (now s). split; [| auto].
              apply elem_of_app. right. now apply list_elem_of_singleton.
           ++ intros (j & t & Hin & Hk & Hpj).
              assert (j = i) as -> by (eapply key_index; eauto). congruence.
        -- rewrite lookup_insert_ne by congruence. rewrite Herr. split.
           ++ intros (j & t & Hin & Hrest). exists j, t. split; [| exact Hrest].
              apply elem_of_app. now left.
           ++ intros (j & t & Hin & Hk & Hpj). exists j, t.
              apply elem_of_app in Hin as [Hin | ->%list_elem_of_singleton]; [auto |].
              congruence.
      * rewrite failureReasons_snoc, Hp. simpl. rewrite length_app. simpl.
        rewrite map_size_insert_None by exact Hnone. lia.
  - (* Finally *)
    apply step_Finally in Hstep as (Hi & ->).
    destruct (finallyCallback_fields s) as (Er & Ee & _ & _ & Ec).
    split; rewrite ?settled_app; simpl; rewrite ?app_nil_r, ?Er, ?Ee, ?Ec.
    + now rewrite length_insert.
    + eapply settled_keep; eauto; discriminate.
    + exact Honce.
    + exact Hres.
    + exact Herr.
    + exact Hsize.
  - (* Timeout *)
    apply step_Timeout in Hstep as (d & rest & _ & _ & _ & ->).
    split; rewrite ?settled_app; simpl; rewrite ?app_nil_r; assumption.
  - (* Advance *)
    apply step_Advance in Hstep as (_ & _ & _ & _ & ->).
    split; rewrite ?settled_app; simpl; rewrite ?app_nil_r; assumption.
Qed.

Lemma books tr st : exec executor tr = Some st -> Books tr st.
Proof.
  revert tr st. apply run_ind; [apply books_executor |].
  intros tr s ev s' _ Hbooks Hstep. eapply books_step; eauto.
Qed.

(** *** The clock: callbacks run at the instant their promise settles *)

Lemma clock_executor : Clock executor.
Proof.
  split; simpl.
  - intros i c p Hc Hne. apply lookup_replicate in Hc as [-> _]. contradiction.
  - intros. lia.
  - intros i Hc. apply lookup_replicate in Hc as [? _]. discriminate.
Qed.

(** Chain [i] after chain [j] has been moved to [c]. *)
Lemma lookup_setChain (l : list Chain) i j c c' :
  <[j := c]> l !! i = Some c' ->
  (i = j /\ c' = c) \/ (i <> j /\ l !! i = Some c').
Proof.
  destruct (decide (i = j)) as [-> | Hne].
  - intros H. left. split; [reflexivity |].
    destruct (decide (j < length l)%nat) as [Hlt | Hge].
    + rewrite list_lookup_insert_eq in H by exact Hlt. congruence.
    + rewrite list_insert_ge in H by lia.
      apply lookup_lt_Some in H. lia.
  - rewrite list_lookup_insert_ne by congruence. auto.
Qed.

Lemma clock_step s ev s' : Clock s -> step s ev = Some s' -> Clock s'.
Proof.
  intros [Hpast Hfuture Hpresent] Hstep.
  destruct ev as [i | i | | t].
  - (* Settle: the promise settles now *)
    assert (Hi : chains s !! i = Some Subscribed /\
                 exists p, promises !! i = Some p /\ settleTime p = Some (now s) /\
                           now s' = now s /\ chains s' = <[i := Handled]> (chains s)).
    { apply step_Settle in Hstep as (Hi & [(v & Hp & ->) | (e & key & Hp & _ & ->)]);
        (split; [exact Hi |]); eexists; (split; [exact Hp |]); simpl; eauto. }
    destruct Hi as (Hi & p & Hp & Ht & Hnow & Hch).
    split; rewrite Hnow, Hch.
    + intros j c q Hc Hne Hq.
      apply lookup_setChain in Hc as [(-> & ->) | (Hji & Hc)]; [| eauto].
      exists (now s). split; [congruence | lia].
    + intros j q t Hc Hq Hs.
      apply lookup_setChain in Hc as [(-> & ?) | (Hji & Hc)]; [discriminate | eauto].
    + intros j Hc.
      apply lookup_setChain in Hc as [(-> & _) | (Hji & Hc)]; eauto.
  - (* Finally *)
    apply step_Finally in Hstep as (Hi & ->).
    destruct (finallyCallback_fields s) as (_ & _ & _ & En & Ec).
    split; simpl; rewrite En, Ec.
    + intros j c q Hc Hne Hq.
      apply lookup_setChain in Hc as [(-> & ->) | (Hji & Hc)]; [| eauto].
      destruct (Hpresent i Hi) as (p & Hp & Ht).
      exists (now s). split; [congruence | lia].
    + intros j q t Hc Hq Hs.
      apply lookup_setChain in Hc as [(-> & ?) | (Hji & Hc)]; [discriminate | eauto].
    + intros j Hc.
      apply lookup_setChain in Hc as [(-> & ?) | (Hji & Hc)]; [discriminate | eauto].
  - (* Timeout *)
    apply step_Timeout in Hstep as (d & rest & _ & _ & _ & ->).
    split; simpl; assumption.
  - (* Advance: nothing is skipped *)
    apply step_Advance in Hstep as (Hlt & Hidle & _ & Hnone & ->).
    split; simpl.
    + intros j c q Hc Hne Hq.
      destruct (Hpast j c q Hc Hne Hq) as (u & Hu & Hle). exists u. split; [exact Hu | lia].
    + exact Hnone.
    + intros j Hc. exfalso. apply Hidle. eapply list_elem_of_lookup_2, Hc.
Qed.

Lemma clock tr st : exec executor tr = Some st -> Clock st.
Proof.
  revert tr st. apply (run_ind (fun _ st => Clock st)); [apply clock_executor |].
  intros tr s ev s' _ Hclock Hstep. eapply clock_step; eauto.
Qed.

(** *** Counting: [ret.results.length + ret.errors.size] *)

Lemma outcomes_length (order : list nat) :
  (forall i, i ∈ order -> exists p t, promises !! i = Some p /\ settleTime p = Some t) ->
  (length (successValues promises order) + length (failureReasons promises order)
   = length order)%nat.
Proof.
  induction order as [| i order IH]; intros Hall; [reflexivity |].
  destruct (Hall i) as (p & t & Hp & Ht); [left |].
  specialize (IH (fun j Hj => Hall j (list_elem_of_further _ _ _ Hj))).
  change (i :: order) with ([i] ++ order).
  unfold successValues, failureReasons in *. rewrite !omap_app, !length_app.
  simpl. rewrite Hp.
  destruct p; simpl in *; try discriminate; lia.
Qed.

(** The test of the [finally] callback counts the chains that have moved. *)
Lemma settled_count tr st :
  Books tr st -> Clock st ->
  (length (results st) + size (errors st) = length (settled tr))%nat.
Proof.
  intros Hb Hc. rewrite (book_results Hb), (book_size Hb).
  apply outcomes_length. intros i Hi.
  apply (book_settled Hb) in Hi as (c & Hci & Hne).
  destruct (promises !! i) as [p |] eqn:Hp.
  - destruct (clock_past Hc i c p Hci Hne Hp) as (t & Ht & _). eauto.
  - apply lookup_lt_Some in Hci. apply lookup_ge_None in Hp.
    rewrite (book_chains Hb) in Hci. lia.
Qed.

Lemma settled_bound tr st :
  Books tr st -> (length (settled tr) <= length promises)%nat.
Proof.
  intros Hb.
  assert (Hsub : settled tr ⊆+ seq 0 (length promises)).
  { apply NoDup_submseteq; [apply (book_once Hb) |].
    intros i Hi. apply (book_settled Hb) in Hi as (c & Hci & _).
    apply lookup_lt_Some in Hci. rewrite (book_chains Hb) in Hci.
    apply elem_of_seq. lia. }
  apply submseteq_length in Hsub. now rewrite length_seq in Hsub.
Qed.

(** The count reaches [promises.length] exactly when no chain is left
    subscribed. *)
Lemma settled_all tr st :
  Books tr st ->
  length (settled tr) = length promises <-> Subscribed ∉ chains st.
Proof.
  intros Hb. split.
  - intros Hfull Hin.
    apply list_elem_of_lookup in Hin as (i & Hi).
    assert (Hsub : settled tr ⊆+ seq 0 (length promises)).
    { apply NoDup_submseteq; [apply (book_once Hb) |].
      intros j Hj. apply (book_settled Hb) in Hj as (c & Hcj & _).
      apply lookup_lt_Some in Hcj. rewrite (book_chains Hb) in Hcj.
      apply elem_of_seq. lia. }
    apply submseteq_length_Permutation in Hsub; [| rewrite length_seq; lia].
    assert (Hiin : i ∈ settled tr).
    { rewrite Hsub. apply elem_of_seq. apply lookup_lt_Some in Hi.
      rewrite (book_chains Hb) in Hi. lia. }
    apply (book_settled Hb) in Hiin as (c & Hc & Hne). congruence.
  - intros Hnone. apply Nat.le_antisymm; [exact (settled_bound tr st Hb) |].
    assert (Hsub : seq 0 (length promises) ⊆+ settled tr).
    { apply NoDup_submseteq; [apply NoDup_seq |].
      intros i Hi. apply elem_of_seq in Hi.
      destruct (chains st !! i) as [c |] eqn:Hc.
      - apply (book_settled Hb). exists c. split; [exact Hc |].
        intros ->. apply Hnone. eapply list_elem_of_lookup_2, Hc.
      - apply lookup_ge_None in Hc. rewrite (book_chains Hb) in Hc. lia. }
    apply submseteq_length in Hsub. now rewrite length_seq in Hsub.
Qed.

(** *** The timer and the returned promise *)

(** A fulfilled promise whose chain has moved has its value in [ret.results]. *)
Lemma success_recorded tr st j c t v :
  Books tr st ->
  chains st !! j = Some c -> c <> Subscribed -> promises !! j = Some (Fulfils t v) ->
  v ∈ results st.
Proof.
  intros Hb Hc Hne Hp. rewrite (book_results Hb).
  apply list_elem_of_omap. exists j. split.
  - apply (book_settled Hb). eauto.
  - now rewrite Hp.
Qed.

(** A value in [ret.results] comes from a fulfilled promise whose chain has
    moved. *)
Lemma result_origin tr st v :
  Books tr st -> v ∈ results st ->
  exists j t c, promises !! j = Some (Fulfils t v) /\
                chains st !! j = Some c /\ c <> Subscribed.
Proof.
  intros Hb Hv. rewrite (book_results Hb) in Hv.
  apply list_elem_of_omap in Hv as (j & Hj & Hval).
  apply (book_settled Hb) in Hj as (c & Hc & Hne).
  destruct (promises !! j) as [[t w | |] |] eqn:Hp; simpl in Hval; try discriminate.
  injection Hval as ->. exists j, t, c. auto.
Qed.

(** The callback that finds [ret.results] empty runs at the instant of the
    first success. *)
Lemma first_then_callback tr s i v :
  Books tr s -> Clock s ->
  results s = [] -> promises !! i = Some (Fulfils (now s) v) ->
  firstSuccess promises = Some (now s).
Proof.
  intros Hb Hc Hempty Hp. apply firstSuccess_Some. split; [eauto |].
  intros j t w Hj.
  destruct (chains s !! j) as [c |] eqn:Hcj.
  - destruct (decide (c = Subscribed)) as [-> | Hne].
    + apply (clock_future Hc j _ t Hcj Hj). reflexivity.
    + pose proof (success_recorded tr s j c t w Hb Hcj Hne Hj) as Hin.
      rewrite Hempty in Hin. inversion Hin.
  - apply lookup_ge_None in Hcj. apply lookup_lt_Some in Hj.
    rewrite (book_chains Hb) in Hcj. lia.
Qed.

Lemma timer_executor : Timer executor.
Proof.
  split; simpl.
  - reflexivity.
  - intros H. contradiction.
  - discriminate.
  - intros Hall Hpos.
    destruct promises as [| p rest]; simpl in *; [lia |].
    specialize (Hall Subscribed ltac:(left)). discriminate.
Qed.

Lemma resolved_finallyCallback st :
  resolved (finallyCallback promises st)
  = resolved st
    || (length (results st) + size (errors st) =? length promises)%nat.
Proof.
  unfold finallyCallback. case_match; simpl; [| now rewrite orb_false_r].
  now rewrite orb_true_r.
Qed.

Lemma timer_step tr s ev s' :
  exec executor tr = Some s -> Timer s -> step s ev = Some s' -> Timer s'.
Proof.
  intros Hrun [Hidle Harmed Hwhy Hdone] Hstep.
  pose proof (books tr s Hrun) as Hb. pose proof (clock tr s Hrun) as Hc.
  destruct ev as [i | i | | t].
  - (* Settle *)
    apply step_Settle in Hstep as (Hi & [(v & Hp & ->) | (e & key & Hp & Hkey & ->)]).
    + (* the then callback *)
      assert (Hunresolved : resolved s = true -> results s <> [] /\ timers s = []).
      { intros Hr. destruct (Hwhy Hr) as [H | [Hnone _]]; [exact H |].
        exfalso. apply Hnone. eapply list_elem_of_lookup_2, Hi. }
      destruct (results s) as [| r0 rs] eqn:Hres.
      * (* first success: the timer is armed *)
        specialize (Hidle eq_refl).
        assert (Hfirst : firstSuccess promises = Some (now s))
          by (eapply first_then_callback; eauto).
        split; simpl; rewrite ?Hres, ?Hidle; simpl.
        -- discriminate.
        -- intros _. exists (now s). split; [exact Hfirst |]. left. split; [reflexivity | lia].
        -- intros Hr. destruct (Hunresolved Hr) as [Hne _]. congruence.
        -- intros Hall _. specialize (Hall Handled). exfalso.
           assert (Handled = Finished); [| discriminate].
           apply Hall. eapply list_elem_of_lookup_2.
           apply list_lookup_insert_eq. eapply lookup_lt_Some, Hi.
      * (* a later success: the timer is left alone *)
        assert (Hlen : (length ((r0 :: rs) ++ [v]) =? 1)%nat = false).
        { apply Nat.eqb_neq. rewrite length_app. simpl. lia. }
        split; simpl; rewrite ?Hres, ?Hlen.
        -- discriminate.
        -- intros _. apply Harmed. discriminate.
        -- intros Hr. left. split; [discriminate |]. now apply Hunresolved.
        -- intros Hall _. specialize (Hall Handled). exfalso.
           assert (Handled = Finished); [| discriminate].
           apply Hall. eapply list_elem_of_lookup_2.
           apply list_lookup_insert_eq. eapply lookup_lt_Some, Hi.
    + (* the catch callback *)
      split; simpl.
      * exact Hidle.
      * exact Harmed.
      * intros Hr. destruct (Hwhy Hr) as [H | [Hnone _]]; [now left |].
        exfalso. apply Hnone. eapply list_elem_of_lookup_2, Hi.
      * intros Hall _. specialize (Hall Handled). exfalso.
        assert (Handled = Finished); [| discriminate].
        apply Hall. eapply list_elem_of_lookup_2.
        apply list_lookup_insert_eq. eapply lookup_lt_Some, Hi.
  - (* Finally *)
    apply step_Finally in Hstep as (Hi & ->).
    destruct (finallyCallback_fields s) as (Er & Ee & Et & En & Ec).
    pose proof (resolved_finallyCallback s) as Eres.
    pose proof (settled_count tr s Hb Hc) as Hcount.
    assert (Hpos : (1 <= length promises)%nat).
    { apply lookup_lt_Some in Hi. rewrite (book_chains Hb) in Hi. lia. }
    assert (Hkeep : Subscribed ∉ chains s -> Subscribed ∉ <[i := Finished]> (chains s)).
    { intros Hnone Hin. apply list_elem_of_lookup in Hin as (j & Hj).
      apply lookup_setChain in Hj as [(_ & ?) | (_ & Hj)]; [discriminate |].
      apply Hnone. eapply list_elem_of_lookup_2, Hj. }
    split; simpl; rewrite ?Er, ?Ee, ?Et, ?En, ?Ec, ?Eres.
    + exact Hidle.
    + intros Hne. destruct (Harmed Hne) as (t0 & Ht0 & [H | (Htm & Hr & Hle)]).
      * exists t0. split; [exact Ht0 |]. now left.
      * exists t0. split; [exact Ht0 |]. right. rewrite Hr. auto.
    + intros Hr. apply orb_true_iff in Hr as [Hr | Hfull].
      * destruct (Hwhy Hr) as [H | [Hnone _]]; [now left | right; auto].
      * right. split; [| exact Hpos]. apply Hkeep.
        apply (settled_all tr s Hb). apply Nat.eqb_eq in Hfull. lia.
    + intros Hall _. apply orb_true_iff. right. apply Nat.eqb_eq.
      rewrite Hcount. apply (settled_all tr s Hb).
      intros Hin. apply list_elem_of_lookup in Hin as (j & Hj).
      destruct (decide (j = i)) as [-> | Hne]; [rewrite Hi in Hj; discriminate |].
      assert (Subscribed = Finished); [| discriminate].
      apply Hall. apply (list_elem_of_lookup_2 _ j).
      rewrite list_lookup_insert_ne by congruence. exact Hj.
  - (* Timeout *)
    apply step_Timeout in Hstep as (d & rest & Htm & Hd & _ & ->).
    assert (Hne : results s <> []).
    { intros Hempty. rewrite (Hidle Hempty) in Htm. discriminate. }
    destruct (Harmed Hne) as (t0 & Ht0 & [(Htm' & Hle) | (Htm' & _)]);
      rewrite Htm' in Htm; [| discriminate].
    injection Htm as <- <-.
    split; simpl.
    + reflexivity.
    + intros _. exists t0. split; [exact Ht0 |]. right. auto.
    + intros _. left. auto.
    + reflexivity.
  - (* Advance *)
    apply step_Advance in Hstep as (Hlt & _ & Hdeadlines & _ & ->).
    split; simpl.
    + exact Hidle.
    + intros Hne. destruct (Harmed Hne) as (t0 & Ht0 & [(Htm & Hle) | (Htm & Hr & Hle)]).
      * exists t0. split; [exact Ht0 |]. left. split; [exact Htm |].
        apply Hdeadlines. rewrite Htm. left.
      * exists t0. split; [exact Ht0 |]. right. repeat split; [exact Htm | exact Hr | lia].
    + exact Hwhy.
    + exact Hdone.
Qed.

Lemma timer tr st : exec executor tr = Some st -> Timer st.
Proof.
  revert tr st. apply (run_ind (fun _ st => Timer st)); [apply timer_executor |].
  intros tr s ev s' Hrun Htimer Hstep. eapply timer_step; eauto.
Qed.

(** *** When the race is reported finished *)

Lemma lastSettlement_bound (n : nat) (ps : list (Promise T)) :
  (forall i p, ps !! i = Some p -> exists t, settleTime p = Some t /\ (t <= n)%nat) ->
  exists tAll, lastSettlement ps = Some tAll /\ (tAll <= n)%nat.
Proof.
  induction ps as [| q rest IH]; intros Hall; simpl.
  - exists 0%nat. split; [reflexivity | lia].
  - destruct (Hall 0%nat q eq_refl) as (t & -> & Ht).
    destruct IH as (t' & -> & Ht'); [intros i p Hi; apply (Hall (S i) p Hi) |].
    exists (Nat.max t t'). split; [reflexivity | lia].
Qed.

(** [resolve (ret)] has been called only if the grace timer has fired or
    every promise has settled. *)
Lemma resolved_cause tr st :
  exec executor tr = Some st -> resolved st = true ->
  (exists t0, firstSuccess promises = Some t0 /\ (t0 + graceTime <= now st)%nat /\
              timers st = [] /\ results st <> []) \/
  ((Subscribed ∉ chains st) /\ (1 <= length promises)%nat /\
   exists tAll, lastSettlement promises = Some tAll /\ (tAll <= now st)%nat).
Proof.
  intros Hrun Hr.
  pose proof (books tr st Hrun) as Hb. pose proof (clock tr st Hrun) as Hc.
  pose proof (timer tr st Hrun) as Ht.
  destruct (resolved_why Ht Hr) as [[Hne Htm] | [Hnone Hpos]].
  - left. destruct (timer_armed Ht Hne) as (t0 & Ht0 & [(Htm' & _) | (_ & _ & Hle)]).
    + rewrite Htm' in Htm. discriminate.
    + exists t0. auto.
  - right. split; [exact Hnone |]. split; [exact Hpos |].
    apply lastSettlement_bound. intros i p Hp.
    destruct (chains st !! i) as [c |] eqn:Hci.
    + apply (clock_past Hc i c p Hci); [| exact Hp].
      intros ->. apply Hnone. eapply list_elem_of_lookup_2, Hci.
    + apply lookup_ge_None in Hci. apply lookup_lt_Some in Hp.
      rewrite (book_chains Hb) in Hci. lia.
Qed.

(** Once the clock has passed the deadline of the grace timer, the race has
    been reported finished. *)
Lemma resolved_after_grace tr st t0 :
  exec executor tr = Some st -> firstSuccess promises = Some t0 ->
  (t0 + graceTime < now st)%nat -> resolved st = true.
Proof.
  intros Hrun Hfirst Hlate.
  pose proof (books tr st Hrun) as Hb. pose proof (clock tr st Hrun) as Hc.
  pose proof (timer tr st Hrun) as Ht.
  destruct (proj1 (firstSuccess_Some promises t0) Hfirst) as [(i & v & Hp) _].
  assert (Hne : results st <> []).
  { destruct (chains st !! i) as [c |] eqn:Hci.
    - destruct (decide (c = Subscribed)) as [-> | Hmoved].
      + pose proof (clock_future Hc i _ t0 Hci Hp eq_refl). lia.
      + pose proof (success_recorded tr st i c t0 v Hb Hci Hmoved Hp) as Hin.
        intros Hempty. rewrite Hempty in Hin. inversion Hin.
    - apply lookup_ge_None in Hci. apply lookup_lt_Some in Hp.
      rewrite (book_chains Hb) in Hci. lia. }
  destruct (timer_armed Ht Hne) as (t0' & Ht0' & [(_ & Hle) | (_ & Hr & _)]).
  - rewrite Hfirst in Ht0'. injection Ht0' as <-. lia.
  - exact Hr.
Qed.

(** Once the clock has passed the last settlement, the race has been
    reported finished. *)
Lemma resolved_after_all tr st tAll :
  exec executor tr = Some st -> lastSettlement promises = Some tAll ->
  (1 <= length promises)%nat -> (tAll < now st)%nat -> resolved st = true.
Proof.
  intros Hrun Hlast Hpos Hlate.
  pose proof (books tr st Hrun) as Hb. pose proof (clock tr st Hrun) as Hc.
  pose proof (timer tr st Hrun) as Ht.
  apply (resolved_done Ht); [| exact Hpos].
  intros c Hin. apply list_elem_of_lookup in Hin as (i & Hci).
  destruct (promises !! i) as [p |] eqn:Hp.
  - destruct (lastSettlement_Some promises tAll Hlast i p Hp) as (t & Hst & Hle).
    destruct c; [| | reflexivity].
    + pose proof (clock_future Hc i p t Hci Hp Hst). lia.
    + destruct (clock_present Hc i Hci) as (p' & Hp' & Hnow).
      rewrite Hp in Hp'. injection Hp' as <-. rewrite Hst in Hnow.
      injection Hnow as ->. lia.
  - apply lookup_lt_Some in Hci. apply lookup_ge_None in Hp.
    rewrite (book_chains Hb) in Hci. lia.
Qed.

(** The race is reported finished at [resolutionTime]: not before, and no
    later. *)
Lemma resolved_at_resolutionTime tr st :
  exec executor tr = Some st ->
  match resolutionTime promises graceTime with
  | Some t => ((now st < t)%nat -> resolved st = false) /\
              ((t < now st)%nat -> resolved st = true)
  | None => resolved st = false
  end.
Proof.
  intros Hrun.
  assert (Hearly : forall t,
             (forall t0, firstSuccess promises = Some t0 -> (t <= t0 + graceTime)%nat) ->
             (forall tAll, lastSettlement promises = Some tAll -> (t <= tAll)%nat) ->
             (now st < t)%nat -> resolved st = false).
  { intros t Hgrace Hall Hlt. destruct (resolved st) eqn:Hr; [| reflexivity].
    destruct (resolved_cause tr st Hrun Hr)
      as [(t0 & Ht0 & Hle & _) | (_ & _ & tAll & HtAll & Hle)].
    - specialize (Hgrace _ Ht0). lia.
    - specialize (Hall _ HtAll). lia. }
  destruct (decide (length promises = 0)%nat) as [Hzero | Hnz].
  - rewrite (resolutionTime_empty _ _ Hzero).
    destruct (resolved st) eqn:Hr; [| reflexivity].
    destruct (resolved_cause tr st Hrun Hr) as [(t0 & Ht0 & _) | (_ & Hpos & _)].
    + apply firstSuccess_Some in Ht0 as [(i & v & Hi) _].
      apply lookup_lt_Some in Hi. lia.
    + lia.
  - assert (Hpos : (1 <= length promises)%nat) by lia.
    rewrite (resolutionTime_nonempty _ _ Hpos).
    destruct (firstSuccess promises) as [t0 |] eqn:Hfirst;
      destruct (lastSettlement promises) as [tAll |] eqn:Hlast.
    + split.
      * apply Hearly; intros ? E; inversion E; subst; lia.
      * intros Hlate. destruct (Nat.min_spec (t0 + graceTime) tAll) as [[_ E] | [_ E]];
          rewrite E in Hlate.
        -- eapply resolved_after_grace; eauto.
        -- eapply resolved_after_all; eauto.
    + split.
      * apply Hearly; intros ? E; inversion E; subst; lia.
      * intros Hlate. eapply resolved_after_grace; eauto.
    + split.
      * apply Hearly; intros ? E; inversion E; subst; lia.
      * intros Hlate. eapply resolved_after_all; eauto.
    + destruct (resolved st) eqn:Hr; [| reflexivity].
      destruct (resolved_cause tr st Hrun Hr)
        as [(t0 & Ht0 & _) | (_ & _ & tAll & HtAll & _)]; congruence.
Qed.

(** *** The event loop never gets stuck *)

(** The callbacks of promise [k], if it settles now, can run at once. *)
Lemma settle_one tr st k :
  exec executor tr = Some st -> (Handled ∉ chains st) ->
  exists tr' st',
    exec executor (tr ++ tr') = Some st' /\ now st' = now st /\
    (Handled ∉ chains st') /\
    (forall i, i <> k -> chains st' !! i = chains st !! i) /\
    (forall p s, chains st' !! k = Some Subscribed -> promises !! k = Some p ->
                 settleTime p = Some s -> (now st < s)%nat).
Proof.
  intros Hrun Hidle.
  pose proof (clock tr st Hrun) as Hc.
  assert (Hstay : exists tr' st',
             exec executor (tr ++ tr') = Some st' /\ now st' = now st /\
             (Handled ∉ chains st') /\
             (forall i, i <> k -> chains st' !! i = chains st !! i) /\
             chains st' !! k = chains st !! k).
  { exists [], st. rewrite app_nil_r. auto. }
  destruct (chains st !! k) as [c |] eqn:Hck; cycle 1.
  { destruct Hstay as (tr' & st' & H1 & H2 & H3 & H4 & H5).
    exists tr', st'. repeat split; auto. intros p s Hsub. congruence. }
  destruct (decide (c = Subscribed)) as [-> | Hmoved]; cycle 1.
  { destruct Hstay as (tr' & st' & H1 & H2 & H3 & H4 & H5).
    exists tr', st'. repeat split; auto. intros p s Hsub. congruence. }
  destruct (promises !! k) as [p |] eqn:Hp; cycle 1.
  { destruct Hstay as (tr' & st' & H1 & H2 & H3 & H4 & H5).
    exists tr', st'. repeat split; auto. intros p s _. discriminate. }
  destruct (settleTime p) as [s |] eqn:Hs; cycle 1.
  { destruct Hstay as (tr' & st' & H1 & H2 & H3 & H4 & H5).
    exists tr', st'. repeat split; auto. intros p' s _ [= <-]. congruence. }
  pose proof (clock_future Hc k p s Hck Hp Hs) as Hle.
  destruct (decide (s = now st)) as [-> | Hlater]; cycle 1.
  { destruct Hstay as (tr' & st' & H1 & H2 & H3 & H4 & H5).
    exists tr', st'. repeat split; auto. intros p' s' _ [= <-] Hs'.
    rewrite Hs in Hs'. injection Hs' as <-. lia. }
  clear Hstay.
  (* the promise settles now: its callback runs, then its finally callback *)
  assert (Hsettle : exists s1, step st (Settle k) = Some s1 /\ now s1 = now st /\
                               chains s1 = <[k := Handled]> (chains st)).
  { destruct p as [t v | t e |]; simpl in Hs; try discriminate; injection Hs as ->.
    - eexists. split; [apply step_Settle; split; [exact Hck | left; eauto] |].
      simpl. auto.
    - destruct (lookup_lt_is_Some_2 errorKeys k) as [key Hkey].
      { rewrite <- keys_length. eapply lookup_lt_Some, Hp. }
      eexists. split; [apply step_Settle; split; [exact Hck | right; eauto] |].
      simpl. auto. }
  destruct Hsettle as (s1 & Hstep1 & Hnow1 & Hch1).
  assert (Hk1 : chains s1 !! k = Some Handled).
  { rewrite Hch1. apply list_lookup_insert_eq. eapply lookup_lt_Some, Hck. }
  pose proof (proj2 (step_Finally s1 k _) (conj Hk1 eq_refl)) as Hstep2.
  destruct (finallyCallback_fields s1) as (_ & _ & _ & En & Ec).
  exists [Settle k; Finally k]. eexists.
  split; [| split; [| split; [| split]]].
  - replace (tr ++ [Settle k; Finally k]) with ((tr ++ [Settle k]) ++ [Finally k])
      by (now rewrite <- app_assoc).
    apply exec_snoc. exists s1. split; [apply exec_snoc; eauto | exact Hstep2].
  - simpl. rewrite En. exact Hnow1.
  - simpl. rewrite Ec, Hch1. intros Hin.
    apply list_elem_of_lookup in Hin as (j & Hj).
    apply lookup_setChain in Hj as [(_ & ?) | (Hjk & Hj)]; [discriminate |].
    apply lookup_setChain in Hj as [(? & _) | (_ & Hj)]; [contradiction |].
    apply Hidle. eapply list_elem_of_lookup_2, Hj.
  - intros i Hik. simpl. rewrite Ec, Hch1.
    now rewrite !list_lookup_insert_ne by congruence.
  - simpl. rewrite Ec, Hch1. intros p' s' Hsub.
    rewrite list_lookup_insert_eq in Hsub; [discriminate |].
    rewrite length_insert. eapply lookup_lt_Some, Hck.
Qed.

(** All the promises that settle now can have their callbacks run. *)
Lemma settle_all_upto (n : nat) tr st :
  exec executor tr = Some st -> (Handled ∉ chains st) ->
  exists tr' st',
    exec executor (tr ++ tr') = Some st' /\ now st' = now st /\
    (Handled ∉ chains st') /\
    (forall i, (n <= i)%nat -> chains st' !! i = chains st !! i) /\
    (forall i p s, (i < n)%nat -> chains st' !! i = Some Subscribed ->
                   promises !! i = Some p -> settleTime p = Some s -> (now st < s)%nat).
Proof.
  induction n as [| n IH]; intros Hrun Hidle.
  - exists [], st. rewrite app_nil_r. repeat split; auto. intros; lia.
  - destruct (IH Hrun Hidle) as (tr1 & s1 & Hrun1 & Hnow1 & Hidle1 & Hsame1 & Hdone1).
    destruct (settle_one (tr ++ tr1) s1 n Hrun1 Hidle1)
      as (tr2 & s2 & Hrun2 & Hnow2 & Hidle2 & Hsame2 & Hdone2).
    exists (tr1 ++ tr2), s2. rewrite app_assoc.
    split; [exact Hrun2 |]. split; [congruence |]. split; [exact Hidle2 |]. split.
    + intros i Hi. rewrite Hsame2 by lia. apply Hsame1. lia.
    + intros i p s Hi Hsub Hp Hs.
      destruct (decide (i = n)) as [-> | Hne].
      * rewrite <- Hnow1. eapply Hdone2; eauto.
      * rewrite Hsame2 in Hsub by exact Hne. eapply Hdone1; eauto. lia.
Qed.

(** Every instant can be reached, with nothing left to do at that instant. *)
Lemma run_reaches (t : nat) :
  exists tr st, exec executor tr = Some st /\ now st = t /\ Quiet st.
Proof.
  assert (Hdrain : forall tr st,
             exec executor tr = Some st -> (Handled ∉ chains st) ->
             exists tr' st', exec executor (tr ++ tr') = Some st' /\
                             now st' = now st /\ Quiet st').
  { intros tr st Hrun Hidle.
    destruct (settle_all_upto (length promises) tr st Hrun Hidle)
      as (tr1 & s1 & Hrun1 & Hnow1 & Hidle1 & _ & Hdone1).
    pose proof (timer _ _ Hrun1) as Ht1.
    assert (Hsettled : forall i p s, chains s1 !! i = Some Subscribed ->
               promises !! i = Some p -> settleTime p = Some s -> (now s1 < s)%nat).
    { intros i p s Hsub Hp Hs. rewrite Hnow1. eapply Hdone1; eauto.
      eapply lookup_lt_Some, Hp. }
    assert (Hcases : (forall d, d ∈ timers s1 -> (now s1 < d)%nat) \/
                     timers s1 = [now s1]).
    { destruct (timers s1) as [| d rest] eqn:Htm.
      - left. intros d Hd. inversion Hd.
      - assert (Hne : results s1 <> []).
        { intros Hempty. pose proof (timer_idle Ht1 Hempty). congruence. }
        destruct (timer_armed Ht1 Hne) as (t0 & _ & [(E & Hle) | (E & _)]);
          rewrite E in Htm; [| discriminate].
        injection Htm as <- <-.
        destruct (decide (t0 + graceTime = now s1)%nat) as [-> | Hlater].
        + now right.
        + left. intros d ->%list_elem_of_singleton. lia. }
    destruct Hcases as [Hlater | Hdue].
    - exists tr1, s1. repeat split; auto.
    - assert (Hstep : step s1 Timeout = Some (complete (setTimers [] s1))).
      { apply step_Timeout. exists (now s1), []. auto. }
      exists (tr1 ++ [Timeout]). eexists. rewrite app_assoc. split.
      + apply exec_snoc. eauto.
      + simpl. split; [exact Hnow1 |]. repeat split; auto.
        intros d Hd. inversion Hd. }
  induction t as [| t IH].
  - destruct (Hdrain [] executor eq_refl) as (tr & st & Hrun & Hnow & Hq).
    + simpl. intros Hin. apply elem_of_replicate in Hin as [? _]. discriminate.
    + exists tr, st. auto.
  - destruct IH as (tr & st & Hrun & Hnow & Hidle & Hsettled & Htimers).
    assert (Hstep : step st (Advance (S t)) = Some (setNow (S t) st)).
    { apply step_Advance. repeat split; auto.
      - lia.
      - intros d Hd. specialize (Htimers d Hd). lia.
      - intros i p s Hsub Hp Hs. specialize (Hsettled i p s Hsub Hp Hs). lia. }
    destruct (Hdrain (tr ++ [Advance (S t)]) (setNow (S t) st)) as (tr' & st' & Hrun' & Hnow' & Hq).
    + apply exec_snoc. eauto.
    + exact Hidle.
    + exists ((tr ++ [Advance (S t)]) ++ tr'), st'. auto.
Qed.

(** *** The state in which the race is first reported finished *)

(** Only a timer or a [finally] callback calls [resolve (ret)], and neither
    moves the clock. *)
Lemma resolving_step s ev s' :
  step s ev = Some s' -> resolved s = false -> resolved s' = true ->
  now s' = now s /\ results s' = results s /\ errors s' = errors s /\
  (ev = Timeout \/ exists i, ev = Finally i).
Proof.
  intros Hstep Hbefore Hafter. destruct ev as [i | i | | t].
  - apply step_Settle in Hstep as (_ & [(v & _ & ->) | (e & key & _ & _ & ->)]);
      simpl in Hafter; congruence.
  - apply step_Finally in Hstep as (_ & ->).
    destruct (finallyCallback_fields s) as (Er & Ee & _ & En & _).
    simpl. rewrite Er, Ee, En. eauto 10.
  - apply step_Timeout in Hstep as (d & rest & _ & _ & _ & ->). simpl. auto.
  - apply step_Advance in Hstep as (_ & _ & _ & _ & ->). simpl in Hafter. congruence.
Qed.

(** [resolve (ret)] is never undone. *)
Lemma resolved_step s ev s' :
  step s ev = Some s' -> resolved s = true -> resolved s' = true.
Proof.
  intros Hstep Hr. destruct ev as [i | i | | t].
  - apply step_Settle in Hstep as (_ & [(v & _ & ->) | (e & key & _ & _ & ->)]);
      simpl; exact Hr.
  - apply step_Finally in Hstep as (_ & ->). simpl.
    rewrite resolved_finallyCallback, Hr. reflexivity.
  - apply step_Timeout in Hstep as (d & rest & _ & _ & _ & ->). reflexivity.
  - apply step_Advance in Hstep as (_ & _ & _ & _ & ->). simpl. exact Hr.
Qed.

Lemma resolved_exec st tr st' :
  exec st tr = Some st' -> resolved st = true -> resolved st' = true.
Proof.
  revert st. induction tr as [| ev tr IH]; intros st Hrun Hr; simpl in Hrun.
  - now injection Hrun as <-.
  - destruct (step st ev) as [s |] eqn:Hstep; [| discriminate].
    eapply IH; eauto using resolved_step.
Qed.

(** [firstResolved] cuts the run at the step that calls [resolve (ret)] for
    the first time. *)
Lemma firstResolved_split st tr sr :
  resolved st = false -> firstResolved st tr = Some sr ->
  exists before ev s after,
    tr = before ++ ev :: after /\ exec st before = Some s /\ resolved s = false /\
    step s ev = Some sr /\ resolved sr = true.
Proof.
  revert st. induction tr as [| ev tr IH]; intros st Hst Hfirst;
    simpl in Hfirst; rewrite Hst in Hfirst; [discriminate |].
  destruct (step st ev) as [s |] eqn:Hstep; [| discriminate].
  destruct (resolved s) eqn:Hs.
  - exists [], ev, st, tr. destruct tr; simpl in Hfirst; rewrite Hs in Hfirst;
      injection Hfirst as <-; auto.
  - destruct (IH s Hs Hfirst) as (before & ev' & s0 & after & -> & Hrun & H0 & Hev & Hr).
    exists (ev :: before), ev', s0, after. simpl. rewrite Hstep. auto.
Qed.

(** A run that has reached a state with [resolve (ret)] called has a first
    such state. *)
Lemma firstResolved_exists st tr st' :
  exec st tr = Some st' -> resolved st' = true ->
  exists sr, firstResolved st tr = Some sr.
Proof.
  revert st. induction tr as [| ev tr IH]; intros st Hrun Hr; simpl in *.
  - injection Hrun as ->. rewrite Hr. eauto.
  - destruct (resolved st); [eauto |].
    destruct (step st ev) as [s |]; [eauto | discriminate].
Qed.

(** The race is reported finished exactly at [resolutionTime]. *)
Lemma firstResolved_time tr sr :
  firstResolved executor tr = Some sr ->
  resolutionTime promises graceTime = Some (now sr).
Proof.
  intros Hfirst.
  destruct (firstResolved_split executor tr sr eq_refl Hfirst)
    as (before & ev & s & after & -> & Hrun & Hs & Hev & Hr).
  destruct (resolving_step s ev sr Hev Hs Hr) as (Hnow & _).
  assert (Hrun' : exec executor (before ++ [ev]) = Some sr) by (apply exec_snoc; eauto).
  pose proof (resolved_at_resolutionTime before s Hrun) as Hbefore.
  pose proof (resolved_at_resolutionTime _ sr Hrun') as Hafter.
  destruct (resolutionTime promises graceTime) as [t |]; [| congruence].
  destruct Hbefore as [_ Hb], Hafter as [Ha _]. f_equal.
  destruct (Nat.lt_trichotomy (now sr) t) as [Hlt | [-> | Hgt]]; [| reflexivity |].
  - specialize (Ha Hlt). congruence.
  - rewrite <- Hnow in Hb. specialize (Hb Hgt). congruence.
Qed.

(** The race does get reported finished, whenever [resolutionTime] is
    defined. *)
Lemma firstResolved_reached t :
  resolutionTime promises graceTime = Some t ->
  exists tr sr, firstResolved executor tr = Some sr.
Proof.
  intros Ht. destruct (run_reaches (S t)) as (tr & st & Hrun & Hnow & _).
  pose proof (resolved_at_resolutionTime tr st Hrun) as Hres.
  rewrite Ht in Hres. destruct Hres as [_ Hlate].
  destruct (firstResolved_exists executor tr st Hrun) as (sr & Hsr); [apply Hlate; lia |].
  eauto.
Qed.

(** *** Who is in the outcome *)

(** Once the race is reported finished, every promise fulfilled before the
    deadline of the grace timer has had its value recorded. *)
Lemma early_success_included tr st t0 b tb vb :
  exec executor tr = Some st -> resolved st = true ->
  firstSuccess promises = Some t0 ->
  promises !! b = Some (Fulfils tb vb) -> (tb < t0 + graceTime)%nat ->
  b ∈ settled tr /\ vb ∈ results st.
Proof.
  intros Hrun Hr Hfirst Hp Hearly.
  pose proof (books tr st Hrun) as Hb. pose proof (clock tr st Hrun) as Hc.
  assert (Hmoved : exists c, chains st !! b = Some c /\ c <> Subscribed).
  { destruct (chains st !! b) as [c |] eqn:Hcb.
    - exists c. split; [reflexivity |]. intros ->.
      pose proof (clock_future Hc b _ tb Hcb Hp eq_refl) as Hle.
      destruct (resolved_cause tr st Hrun Hr)
        as [(t0' & Ht0' & Hlate & _) | (Hnone & _)].
      + rewrite Hfirst in Ht0'. injection Ht0' as <-. lia.
      + apply Hnone. eapply list_elem_of_lookup_2, Hcb.
    - apply lookup_ge_None in Hcb. apply lookup_lt_Some in Hp.
      rewrite (book_chains Hb) in Hcb. lia. }
  destruct Hmoved as (c & Hcb & Hne). split.
  - apply (book_settled Hb). eauto.
  - eapply success_recorded; eauto.
Qed.

(** Before a promise settles, its chain is untouched and nothing of it is
    in the outcome. *)
Lemma unsettled_excluded tr st b p tb :
  exec executor tr = Some st ->
  promises !! b = Some p -> settleTime p = Some tb -> (now st < tb)%nat ->
  chains st !! b = Some Subscribed /\ b ∉ settled tr.
Proof.
  intros Hrun Hp Htb Hlt.
  pose proof (books tr st Hrun) as Hb. pose proof (clock tr st Hrun) as Hc.
  assert (Hsub : chains st !! b = Some Subscribed).
  { destruct (chains st !! b) as [c |] eqn:Hcb.
    - destruct (decide (c = Subscribed)) as [-> | Hne]; [reflexivity |].
      destruct (clock_past Hc b c p Hcb Hne Hp) as (t & Ht & Hle).
      rewrite Htb in Ht. injection Ht as <-. lia.
    - apply lookup_ge_None in Hcb. apply lookup_lt_Some in Hp.
      rewrite (book_chains Hb) in Hcb. lia. }
  split; [exact Hsub |].
  intros Hin. apply (book_settled Hb) in Hin as (c & Hcb & Hne). congruence.
Qed.

(** A promise that is fulfilled after the race was reported finished still
    has its [then] callback run: the value is appended to [ret.results]. *)
Lemma late_success_recorded st b vb :
  chains st !! b = Some Subscribed -> promises !! b = Some (Fulfils (now st) vb) ->
  exists st', step st (Settle b) = Some st' /\
              results st' = results st ++ [vb] /\ errors st' = errors st /\
              resolved st' = resolved st.
Proof.
  intros Hcb Hp. eexists. split.
  - apply step_Settle. split; [exact Hcb |]. left. eauto.
  - simpl. auto.
Qed.

(** A promise that is rejected after the race was reported finished still
    has its [catch] callback run: the reason is stored in [ret.errors]. *)
Lemma late_failure_recorded st b e key :
  chains st !! b = Some Subscribed -> promises !! b = Some (Rejects (now st) e) ->
  errorKeys !! b = Some key ->
  exists st', step st (Settle b) = Some st' /\
              results st' = results st /\ errors st' = <[key := e]> (errors st) /\
              resolved st' = resolved st.
Proof.
  intros Hcb Hp Hkey. eexists. split.
  - apply step_Settle. split; [exact Hcb |]. right. eauto.
  - simpl. auto.
Qed.

(** The timer is pending with the deadline of the first success, or not at
    all. *)
Lemma timers_shape tr st t0 :
  exec executor tr = Some st -> firstSuccess promises = Some t0 ->
  timers st = [] \/
  (timers st = [(t0 + graceTime)%nat] /\ (now st <= t0 + graceTime)%nat).
Proof.
  intros Hrun Hfirst. pose proof (timer tr st Hrun) as Ht.
  destruct (results st) as [| r rs] eqn:Hres.
  - left. now apply (timer_idle Ht).
  - destruct (timer_armed Ht) as (t0' & Ht0' & [H | (H & _)]).
    + rewrite Hres. discriminate.
    + rewrite Hfirst in Ht0'. injection Ht0' as <-. now right.
    + now left.
Qed.

(** The [then] callback that finds [ret.results] empty arms the timer. *)
Lemma timer_armed_by_first_success tr st i v st' :
  exec executor tr = Some st -> results st = [] ->
  promises !! i = Some (Fulfils (now st) v) -> step st (Settle i) = Some st' ->
  firstSuccess promises = Some (now st) /\
  timers st' = [(now st + graceTime)%nat] /\ results st' = [v] /\ resolved st' = false.
Proof.
  intros Hrun Hempty Hp Hstep.
  pose proof (books tr st Hrun) as Hb. pose proof (clock tr st Hrun) as Hc.
  pose proof (timer tr st Hrun) as Ht.
  split; [eapply first_then_callback; eauto |].
  apply step_Settle in Hstep as (Hci & [(w & Hp' & ->) | (e & key & Hp' & _)]);
    [| congruence].
  rewrite Hp in Hp'. injection Hp' as <-. simpl.
  rewrite Hempty, (timer_idle Ht Hempty). simpl. repeat split.
  destruct (resolved st) eqn:Hr; [| reflexivity].
  destruct (resolved_why Ht Hr) as [[Hne _] | [Hnone _]].
  - congruence.
  - exfalso. apply Hnone. eapply list_elem_of_lookup_2, Hci.
Qed.

(** Every chain has moved and every callback has run: the count is full. *)
Lemma fully_settled tr st :
  exec executor tr = Some st -> (Subscribed ∉ chains st) ->
  (length (results st) + size (errors st) = length promises)%nat.
Proof.
  intros Hrun Hnone.
  pose proof (books tr st Hrun) as Hb. pose proof (clock tr st Hrun) as Hc.
  rewrite (settled_count tr st Hb Hc). now apply (settled_all tr st Hb).
Qed.

(** An entry of [ret.errors] belongs to a promise that has been rejected
    by now. *)
Lemma error_origin tr st key e :
  exec executor tr = Some st -> errors st !! key = Some e ->
  exists i t c, errorKeys !! i = Some key /\ promises !! i = Some (Rejects t e) /\
                (t <= now st)%nat /\ chains st !! i = Some c /\ c <> Subscribed.
Proof.
  intros Hrun He.
  pose proof (books tr st Hrun) as Hb. pose proof (clock tr st Hrun) as Hc.
  apply (book_errors Hb) in He as (i & t & Hin & Hkey & Hp).
  apply (book_settled Hb) in Hin as (c & Hci & Hne).
  destruct (clock_past Hc i c _ Hci Hne Hp) as (t' & Ht' & Hle).
  simpl in Ht'. injection Ht' as <-. eauto 10.
Qed.

(** A promise whose chain is still subscribed has no entry in [ret.errors]. *)
Lemma pending_has_no_entry tr st i key :
  exec executor tr = Some st ->
  chains st !! i = Some Subscribed -> errorKeys !! i = Some key ->
  errors st !! key = None.
Proof.
  intros Hrun Hci Hkey.
  destruct (errors st !! key) as [e |] eqn:He; [| reflexivity].
  destruct (error_origin tr st key e Hrun He) as (j & t & c & Hkj & _ & _ & Hcj & Hne).
  assert (j = i) as -> by (eapply key_index; eauto). congruence.
Qed.

(** A rejected promise whose chain has moved has its reason in [ret.errors]. *)
Lemma failure_recorded tr st i c t e key :
  exec executor tr = Some st ->
  chains st !! i = Some c -> c <> Subscribed ->
  promises !! i = Some (Rejects t e) -> errorKeys !! i = Some key ->
  errors st !! key = Some e.
Proof.
  intros Hrun Hci Hne Hp Hkey. pose proof (books tr st Hrun) as Hb.
  apply (book_errors Hb). exists i, t. split; [| auto].
  apply (book_settled Hb). eauto.
Qed.

(** [ret.results] only grows, and only at its end. *)
Lemma results_append st ev st' :
  step st ev = Some st' ->
  results st' = results st \/ exists v, results st' = results st ++ [v].
Proof.
  intros Hstep. destruct ev as [i | i | | t].
  - apply step_Settle in Hstep as (_ & [(v & _ & ->) | (e & key & _ & _ & ->)]);
      simpl; eauto.
  - apply step_Finally in Hstep as (_ & ->).
    destruct (finallyCallback_fields st) as (Er & _). simpl. auto.
  - apply step_Timeout in Hstep as (d & rest & _ & _ & _ & ->). simpl. auto.
  - apply step_Advance in Hstep as (_ & _ & _ & _ & ->). simpl. auto.
Qed.

(** Once the clock has passed the last settlement, no chain is left
    subscribed. *)
Lemma settled_after_all tr st tAll :
  exec executor tr = Some st -> lastSettlement promises = Some tAll ->
  (tAll < now st)%nat -> Subscribed ∉ chains st.
Proof.
  intros Hrun Hlast Hlate Hin.
  pose proof (books tr st Hrun) as Hb. pose proof (clock tr st Hrun) as Hc.
  apply list_elem_of_lookup in Hin as (i & Hci).
  destruct (promises !! i) as [p |] eqn:Hp.
  - destruct (lastSettlement_Some promises tAll Hlast i p Hp) as (t & Hst & Hle).
    pose proof (clock_future Hc i p t Hci Hp Hst). lia.
  - apply lookup_lt_Some in Hci. apply lookup_ge_None in Hp.
    rewrite (book_chains Hb) in Hci. lia.
Qed.

End RaceFacts.

(** ** What the caller of [waitForSuccess] gets *)

Section Outcome.

Context {T : Type}.
Variable promises : list (Promise T).
Variable errorKeys : list string.
Variable graceTime : nat.
Variable st0 : State T.

(** The two checks have passed: the call has started the race. *)
Hypothesis called : waitForSuccess promises errorKeys graceTime = Races st0.

Local Abbreviation turn := (step promises errorKeys graceTime).
Local Abbreviation run := (exec promises errorKeys graceTime).
Local Abbreviation finished := (firstResolved promises errorKeys graceTime).

Lemma called_length : length promises = length errorKeys.
Proof. now apply waitForSuccess_races in called. Qed.

Lemma called_unique : NoDup errorKeys.
Proof. now apply waitForSuccess_races in called. Qed.

Lemma called_executor : st0 = executor promises.
Proof. now apply waitForSuccess_races in called. Qed.

(** C3. When some probe succeeds first, at [t0], the grace timer is armed
    at [t0] for [graceTime] and never again; the race is reported finished
    at the earlier of that timer firing and the last settlement; a success
    that arrives before the deadline (at [t0 + graceTime / 2], say) is in
    the results when the race is reported finished; a success that arrives
    after the deadline (at [t0 + 2 * graceTime], say) is not, and its
    callback still runs without harm when it arrives. *)
Theorem waitForSuccess_grace_period (t0 : nat)
    (Hfirst : firstSuccess promises = Some t0) :
  let deadline := (t0 + graceTime)%nat in
  (* the timer *)
  (forall tr st i v st',
      run st0 tr = Some st -> results st = [] ->
      promises !! i = Some (Fulfils (now st) v) -> turn st (Settle i) = Some st' ->
      now st = t0 /\ timers st' = [deadline] /\ resolved st' = false) /\
  (forall tr st,
      run st0 tr = Some st ->
      timers st = [] \/ (timers st = [deadline] /\ (now st <= deadline)%nat)) /\
  (* the instant at which the race is reported finished *)
  resolutionTime promises graceTime
  = Some (match lastSettlement promises with
          | Some tAll => Nat.min deadline tAll
          | None => deadline
          end) /\
  (forall tr sr,
      finished st0 tr = Some sr ->
      resolutionTime promises graceTime = Some (now sr)) /\
  (exists tr sr, finished st0 tr = Some sr) /\
  (* a success before the deadline *)
  (forall b tb vb tr sr,
      promises !! b = Some (Fulfils tb vb) -> (tb < deadline)%nat ->
      finished st0 tr = Some sr ->
      vb ∈ results sr) /\
  (* a success after the deadline *)
  (forall b tb vb tr sr,
      promises !! b = Some (Fulfils tb vb) -> (deadline < tb)%nat ->
      finished st0 tr = Some sr ->
      now sr = deadline /\ chains sr !! b = Some Subscribed /\
      exists before after,
        tr = before ++ after /\ run st0 before = Some sr /\
        (b ∉ settled before) /\
        results sr = successValues promises (settled before)) /\
  (forall b vb tr st,
      run st0 tr = Some st -> (deadline < now st)%nat ->
      chains st !! b = Some Subscribed ->
      promises !! b = Some (Fulfils (now st) vb) ->
      resolved st = true /\
      exists st', turn st (Settle b) = Some st' /\ resolved st' = true /\
                  results st' = results st ++ [vb]) /\
  (* the two instants of the specification *)
  (forall half b vb tr sr,
      graceTime = (2 * half)%nat -> (0 < half)%nat ->
      promises !! b = Some (Fulfils (t0 + half) vb) ->
      finished st0 tr = Some sr ->
      vb ∈ results sr) /\
  (forall b vb tr sr,
      (0 < graceTime)%nat ->
      promises !! b = Some (Fulfils (t0 + 2 * graceTime) vb) ->
      finished st0 tr = Some sr ->
      now sr = deadline /\ chains sr !! b = Some Subscribed).
Proof.
  intros deadline.
  pose proof called_length as Hlen. pose proof called_unique as Hnd.
  assert (Hpos : (1 <= length promises)%nat).
  { apply firstSuccess_Some in Hfirst as [(i & v & Hi) _].
    apply lookup_lt_Some in Hi. lia. }
  assert (Htime : resolutionTime promises graceTime
                  = Some (match lastSettlement promises with
                          | Some tAll => Nat.min deadline tAll
                          | None => deadline
                          end)).
  { rewrite (resolutionTime_nonempty _ _ Hpos), Hfirst.
    destruct (lastSettlement promises); reflexivity. }
  rewrite called_executor.
  assert (Hincluded : forall b tb vb tr sr,
             promises !! b = Some (Fulfils tb vb) -> (tb < deadline)%nat ->
             finished (executor promises) tr = Some sr -> vb ∈ results sr).
  { intros b tb vb tr sr Hp Hearly Hsr.
    destruct (firstResolved_split promises errorKeys graceTime (executor promises)
                tr sr eq_refl Hsr)
      as (before & ev & s & after & -> & Hrun & _ & Hev & Hr).
    assert (Hrun' : run (executor promises) (before ++ [ev]) = Some sr)
      by (apply exec_snoc; eauto).
    apply (early_success_included promises errorKeys graceTime Hlen Hnd
             _ sr t0 b tb vb Hrun' Hr Hfirst Hp Hearly). }
  assert (Hexcluded : forall b tb vb tr sr,
             promises !! b = Some (Fulfils tb vb) -> (deadline < tb)%nat ->
             finished (executor promises) tr = Some sr ->
             now sr = deadline /\ chains sr !! b = Some Subscribed /\
             exists before after,
               tr = before ++ after /\ run (executor promises) before = Some sr /\
               (b ∉ settled before) /\
               results sr = successValues promises (settled before)).
  { intros b tb vb tr sr Hp Hlate Hsr.
    pose proof (firstResolved_time promises errorKeys graceTime Hlen Hnd tr sr Hsr)
      as Hnow.
    rewrite Htime in Hnow. injection Hnow as Hnow.
    assert (Hdeadline : now sr = deadline).
    { destruct (lastSettlement promises) as [tAll |] eqn:Hlast; [| congruence].
      destruct (lastSettlement_Some promises tAll Hlast b _ Hp) as (t & Ht & Hle).
      simpl in Ht. injection Ht as <-. lia. }
      destruct (firstResolved_split promises errorKeys graceTime (executor promises)
                tr sr eq_refl Hsr)
        as (before & ev & s & after & -> & Hrun & _ & Hev & Hr).
      assert (Hrun' : run (executor promises) (before ++ [ev]) = Some sr)
        by (apply exec_snoc; eauto).
      destruct (unsettled_excluded promises errorKeys graceTime Hlen Hnd
                  _ sr b _ tb Hrun' Hp eq_refl ltac:(lia)) as (Hsub & Hnotin).
      split; [exact Hdeadline |]. split; [exact Hsub |].
      exists (before ++ [ev]), after. rewrite <- app_assoc. repeat split; auto.
      apply (book_results (books promises errorKeys graceTime Hlen Hnd _ sr Hrun')). }
  split; [| split; [| split; [| split; [| split; [| split; [| split; [| split; [| split]]]]]]]].
  - intros tr st i v st' Hrun Hempty Hp Hstep.
    destruct (timer_armed_by_first_success promises errorKeys graceTime Hlen Hnd
                tr st i v st' Hrun Hempty Hp Hstep) as (Hnow & Htm & _ & Hr).
    rewrite Hfirst in Hnow. injection Hnow as Hnow. subst deadline.
    rewrite Hnow. rewrite <- Hnow at 2. auto.
  - intros tr st Hrun.
    exact (timers_shape promises errorKeys graceTime Hlen Hnd tr st t0 Hrun Hfirst).
  - exact Htime.
  - intros tr sr Hsr.
    exact (firstResolved_time promises errorKeys graceTime Hlen Hnd tr sr Hsr).
  - eapply (firstResolved_reached promises errorKeys graceTime Hlen Hnd), Htime.
  - exact Hincluded.
  - exact Hexcluded.
  - intros b vb tr st Hrun Hlate Hsub Hp.
    assert (Hr : resolved st = true).
    { eapply (resolved_after_grace promises errorKeys graceTime Hlen Hnd); eauto. }
    split; [exact Hr |].
    destruct (late_success_recorded promises errorKeys graceTime st b vb Hsub Hp)
      as (st' & Hstep & Hres & _ & Hr').
    exists st'. rewrite Hr', Hr. auto.
  - intros half b vb tr sr Hgrace Hhalf Hp Hsr.
    apply (Hincluded b (t0 + half)%nat vb tr sr Hp); [subst deadline; lia | exact Hsr].
  - intros b vb tr sr Hgrace Hp Hsr.
    destruct (Hexcluded b (t0 + 2 * graceTime)%nat vb tr sr Hp) as (Hnow & Hsub & _);
      [subst deadline; lia | exact Hsr | auto].
Qed.

(** C5. When all the probes fail (there is at least one), the race is
    reported finished only once every probe has settled, at the last
    settlement; the results are then empty and the errors hold one entry
    per key, the reason of that probe.  The returned promise is resolved,
    never rejected: the empty results are the only sign of total failure. *)
Theorem waitForSuccess_all_fail
    (Hpos : (1 <= length promises)%nat)
    (Hfail : forall i p, promises !! i = Some p -> exists t e, p = Rejects t e) :
  (forall e, waitForSuccess promises errorKeys graceTime <> Throws e) /\
  (forall tr st,
      run st0 tr = Some st -> resolved st = true ->
      (Subscribed ∉ chains st) /\
      results st = [] /\
      size (errors st) = length promises /\
      (forall i key t e,
          errorKeys !! i = Some key -> promises !! i = Some (Rejects t e) ->
          errors st !! key = Some e)) /\
  (forall tr st, run st0 tr = Some st -> timers st = []) /\
  (forall tr sr,
      finished st0 tr = Some sr -> lastSettlement promises = Some (now sr)) /\
  (exists tr sr, finished st0 tr = Some sr).
Proof.
  pose proof called_length as Hlen. pose proof called_unique as Hnd.
  assert (Hnone : firstSuccess promises = None).
  { apply firstSuccess_None. intros i t v Hi.
    destruct (Hfail i _ Hi) as (t' & e & ?). discriminate. }
  assert (Hempty : forall tr st,
             run (executor promises) tr = Some st ->
             results st = []).
  { intros tr st Hrun. destruct (results st) as [| v rest] eqn:Hres; [reflexivity |].
    pose proof (books promises errorKeys graceTime Hlen Hnd tr st Hrun) as Hb.
    destruct (result_origin promises errorKeys tr st v Hb) as (j & t & c & Hj & _).
    { rewrite Hres. left. }
    destruct (Hfail j _ Hj) as (t' & e & ?). discriminate. }
  assert (Htime : resolutionTime promises graceTime = lastSettlement promises).
  { rewrite (resolutionTime_nonempty _ _ Hpos), Hnone.
    destruct (lastSettlement promises); reflexivity. }
  rewrite called_executor.
  split; [| split; [| split; [| split]]].
  - intros e. rewrite called. discriminate.
  - intros tr st Hrun Hr.
    destruct (resolved_cause promises errorKeys graceTime Hlen Hnd tr st Hrun Hr)
      as [(t0 & Ht0 & _) | (Hsettled & _)]; [congruence |].
    pose proof (fully_settled promises errorKeys graceTime Hlen Hnd tr st Hrun Hsettled)
      as Hcount.
    rewrite (Hempty tr st Hrun) in Hcount. simpl in Hcount.
    split; [exact Hsettled |]. split; [eauto |]. split; [exact Hcount |].
    intros i key t e Hkey Hp.
    destruct (chains st !! i) as [c |] eqn:Hci.
    + eapply (failure_recorded promises errorKeys graceTime Hlen Hnd); eauto.
      intros ->. apply Hsettled. eapply list_elem_of_lookup_2, Hci.
    + pose proof (books promises errorKeys graceTime Hlen Hnd tr st Hrun) as Hb.
      apply lookup_ge_None in Hci. apply lookup_lt_Some in Hp.
      rewrite (book_chains Hb) in Hci. lia.
  - intros tr st Hrun.
    apply (timer_idle (timer promises errorKeys graceTime Hlen Hnd tr st Hrun)).
    eauto.
  - intros tr sr Hsr. rewrite <- Htime.
    exact (firstResolved_time promises errorKeys graceTime Hlen Hnd tr sr Hsr).
  - destruct (lastSettlement promises) as [tAll |] eqn:Hlast.
    + eapply (firstResolved_reached promises errorKeys graceTime Hlen Hnd), Htime.
    + exfalso. apply lastSettlement_None in Hlast.
      apply list_elem_of_lookup in Hlast as (i & Hi).
      destruct (Hfail i _ Hi) as (t & e & ?). discriminate.
Qed.

(** C6, as the code has it.  Once every probe has settled - at the latest
    when the clock has passed the last settlement - the results and the
    errors together count one entry per probe.  At every moment, so also
    when the race is reported finished, the errors hold no entry for a probe
    that has not completed yet.  The mapping the caller receives is [ret]
    itself: a probe that is still outstanding when the race is reported
    finished and fails later has its reason added to that same mapping. *)
Theorem waitForSuccess_outcome_accounting :
  (forall tr st,
      run st0 tr = Some st -> (Subscribed ∉ chains st) ->
      (length (results st) + size (errors st) = length promises)%nat) /\
  (forall tr st tAll,
      run st0 tr = Some st -> lastSettlement promises = Some tAll ->
      (tAll < now st)%nat ->
      (length (results st) + size (errors st) = length promises)%nat) /\
  (forall tr st i key,
      run st0 tr = Some st ->
      chains st !! i = Some Subscribed -> errorKeys !! i = Some key ->
      errors st !! key = None) /\
  (forall tr st key e,
      run st0 tr = Some st -> errors st !! key = Some e ->
      exists i t, errorKeys !! i = Some key /\
                  promises !! i = Some (Rejects t e) /\ (t <= now st)%nat) /\
  (forall tr st i key e,
      run st0 tr = Some st -> resolved st = true ->
      chains st !! i = Some Subscribed ->
      promises !! i = Some (Rejects (now st) e) -> errorKeys !! i = Some key ->
      observed st = Some (results st, errors st) /\
      errors st !! key = None /\
      exists st', turn st (Settle i) = Some st' /\
                  observed st' = Some (results st, <[key := e]> (errors st))).
Proof.
  pose proof called_length as Hlen. pose proof called_unique as Hnd.
  rewrite called_executor.
  split; [| split; [| split; [| split]]].
  - intros tr st Hrun Hsettled.
    exact (fully_settled promises errorKeys graceTime Hlen Hnd tr st Hrun Hsettled).
  - intros tr st tAll Hrun Hlast Hlate.
    apply (fully_settled promises errorKeys graceTime Hlen Hnd tr st Hrun).
    exact (settled_after_all promises errorKeys graceTime Hlen Hnd tr st tAll
             Hrun Hlast Hlate).
  - intros tr st i key Hrun Hci Hkey.
    exact (pending_has_no_entry promises errorKeys graceTime Hlen Hnd tr st i key
             Hrun Hci Hkey).
  - intros tr st key e Hrun He.
    destruct (error_origin promises errorKeys graceTime Hlen Hnd tr st key e Hrun He)
      as (i & t & c & Hkey & Hp & Hle & _).
    eauto.
  - intros tr st i key e Hrun Hr Hci Hp Hkey.
    split; [unfold observed; now rewrite Hr |].
    split; [exact (pending_has_no_entry promises errorKeys graceTime Hlen Hnd
                     tr st i key Hrun Hci Hkey) |].
    destruct (late_failure_recorded promises errorKeys graceTime st i e key Hci Hp Hkey)
      as (st' & Hstep & Hres & Herr & Hr').
    exists st'. split; [exact Hstep |].
    unfold observed. now rewrite Hr', Hr, Hres, Herr.
Qed.

(** C7, as the code has it.  The results are the values of the fulfilled
    probes in the order in which their callbacks ran, and an entry never
    moves once it is there.  When all the probes succeed, each of them
    before the deadline of the grace timer, the race is reported finished
    with as many results as probes, in that order, and no error. *)
Theorem waitForSuccess_completion_order :
  (forall tr st,
      run st0 tr = Some st -> results st = successValues promises (settled tr)) /\
  (forall tr st ev st',
      run st0 tr = Some st -> turn st ev = Some st' ->
      results st' = results st \/ exists v, results st' = results st ++ [v]) /\
  (forall t0,
      firstSuccess promises = Some t0 ->
      (forall i p, promises !! i = Some p ->
                   exists t v, p = Fulfils t v /\ (t < t0 + graceTime)%nat) ->
      (forall tr sr,
          finished st0 tr = Some sr ->
          length (results sr) = length promises /\ errors sr = ∅ /\
          exists before after,
            tr = before ++ after /\ run st0 before = Some sr /\
            results sr = successValues promises (settled before)) /\
      (exists tr sr, finished st0 tr = Some sr)).
Proof.
  pose proof called_length as Hlen. pose proof called_unique as Hnd.
  rewrite called_executor.
  split; [| split].
  - intros tr st Hrun.
    apply (book_results (books promises errorKeys graceTime Hlen Hnd tr st Hrun)).
  - intros tr st ev st' _ Hstep.
    exact (results_append promises errorKeys graceTime st ev st' Hstep).
  - intros t0 Hfirst Hall.
    assert (Hpos : (1 <= length promises)%nat).
    { apply firstSuccess_Some in Hfirst as [(i & v & Hi) _].
      apply lookup_lt_Some in Hi. lia. }
    split.
    + intros tr sr Hsr.
      destruct (firstResolved_split promises errorKeys graceTime (executor promises)
                  tr sr eq_refl Hsr)
        as (before & ev & s & after & -> & Hrun & _ & Hev & Hr).
      assert (Hrun' : run (executor promises) (before ++ [ev]) = Some sr)
        by (apply exec_snoc; eauto).
      pose proof (books promises errorKeys graceTime Hlen Hnd _ sr Hrun') as Hb.
      pose proof (clock promises errorKeys graceTime Hlen _ sr Hrun') as Hc.
      assert (Herrors : errors sr = ∅).
      { apply map_empty. intros key.
        destruct (errors sr !! key) as [e |] eqn:He; [| reflexivity].
        destruct (error_origin promises errorKeys graceTime Hlen Hnd _ sr key e Hrun' He)
          as (i & t & c & _ & Hp & _).
        destruct (Hall i _ Hp) as (t' & v & ? & _). discriminate. }
      assert (Hsettled : Subscribed ∉ chains sr).
      { destruct (resolved_cause promises errorKeys graceTime Hlen Hnd _ sr Hrun' Hr)
          as [(t0' & Ht0' & Hlate & _) | (Hnone & _)]; [| exact Hnone].
        rewrite Hfirst in Ht0'. injection Ht0' as <-.
        intros Hin. apply list_elem_of_lookup in Hin as (i & Hci).
        destruct (promises !! i) as [p |] eqn:Hp.
        - destruct (Hall i p Hp) as (t & v & -> & Hlt).
          pose proof (clock_future Hc i _ t Hci Hp eq_refl). lia.
        - apply lookup_lt_Some in Hci. apply lookup_ge_None in Hp.
          rewrite (book_chains Hb) in Hci. lia. }
      pose proof (fully_settled promises errorKeys graceTime Hlen Hnd _ sr Hrun' Hsettled)
        as Hcount.
      rewrite Herrors, map_size_empty in Hcount.
      split; [lia |]. split; [exact Herrors |].
      exists (before ++ [ev]), after. rewrite <- app_assoc.
      repeat split; auto. apply (book_results Hb).
    + assert (Htime : is_Some (resolutionTime promises graceTime)).
      { rewrite (resolutionTime_nonempty _ _ Hpos), Hfirst.
        destruct (lastSettlement promises); eauto. }
      destruct Htime as (t & Ht).
      eapply (firstResolved_reached promises errorKeys graceTime Hlen Hnd), Ht.
Qed.

End Outcome.

(** ** The claims on sample races *)

Lemma waitForSuccess_grace_period_witness :
  waitForSuccess earlyAndLate threeKeys 10 = Races (executor earlyAndLate) /\
  firstSuccess earlyAndLate = Some 0%nat /\
  resolutionTime earlyAndLate 10 = Some 10%nat /\
  (forall tr sr,
      firstResolved earlyAndLate threeKeys 10 (executor earlyAndLate) tr = Some sr ->
      "B"%string ∈ results sr /\ chains sr !! 2%nat = Some Subscribed).
Proof.
  destruct (waitForSuccess_grace_period earlyAndLate threeKeys 10
              (executor earlyAndLate) eq_refl 0%nat eq_refl)
    as (_ & _ & Htime & _ & _ & Hin & Hout & _).
  split; [reflexivity |]. split; [reflexivity |]. split; [exact Htime |].
  intros tr sr Hsr. split.
  - apply (Hin 1%nat 5%nat "B"%string tr sr eq_refl); [simpl; lia | exact Hsr].
  - apply (Hout 2%nat 20%nat "C"%string tr sr eq_refl); [simpl; lia | exact Hsr].
Defined.

(** The run of [earlyAndLate]: B is in the outcome when the timer fires,
    C is not, and is appended to the same results when it arrives. *)
Example earlyAndLate_run :
  let run := exec earlyAndLate threeKeys 10 in
  exists sr st,
    firstResolved earlyAndLate threeKeys 10 (executor earlyAndLate)
      [Settle 0; Finally 0; Advance 5; Settle 1; Finally 1; Advance 10; Timeout;
       Advance 20; Settle 2; Finally 2] = Some sr /\
    now sr = 10%nat /\ results sr = ["A"; "B"]%string /\
    run sr [Advance 20; Settle 2; Finally 2] = Some st /\
    results st = ["A"; "B"; "C"]%string.
Proof.
  cbv zeta.
  destruct (firstResolved earlyAndLate threeKeys 10 (executor earlyAndLate)
      [Settle 0; Finally 0; Advance 5; Settle 1; Finally 1; Advance 10; Timeout;
       Advance 20; Settle 2; Finally 2]) as [sr |] eqn:Esr;
    vm_compute in Esr; [| discriminate].
  injection Esr as <-.
  eexists. eexists.
  split; [reflexivity |]. split; [reflexivity |]. split; [reflexivity |].
  split; [vm_compute; reflexivity | reflexivity].
Qed.

Lemma waitForSuccess_all_fail_witness :
  waitForSuccess allFail twoKeys 10 = Races (executor allFail) /\
  (exists tr sr, firstResolved allFail twoKeys 10 (executor allFail) tr = Some sr) /\
  (forall tr sr,
      firstResolved allFail twoKeys 10 (executor allFail) tr = Some sr ->
      now sr = 7%nat).
Proof.
  assert (Hfail : forall i p, allFail !! i = Some p -> exists t e, p = Rejects t e).
  { intros [| [| i]] p Hp; simpl in Hp; try discriminate;
      injection Hp as <-; eauto. }
  destruct (waitForSuccess_all_fail allFail twoKeys 10 (executor allFail) eq_refl
              ltac:(simpl; lia) Hfail)
    as (_ & _ & _ & Htime & Hex).
  split; [reflexivity |]. split; [exact Hex |].
  intros tr sr Hsr. specialize (Htime tr sr Hsr). simpl in Htime.
  now injection Htime as <-.
Defined.

Example allFail_run :
  exists sr,
    firstResolved allFail twoKeys 10 (executor allFail)
      [Advance 3; Settle 1; Finally 1; Advance 7; Settle 0; Finally 0] = Some sr /\
    results sr = [] /\
    errors sr !! "https://relay-a"%string = Some (mkError "ECONNREFUSED") /\
    errors sr !! "https://relay-b"%string = Some (mkError "timeout") /\
    size (errors sr) = 2%nat.
Proof. eexists. repeat split; vm_compute; reflexivity. Qed.

Lemma waitForSuccess_outcome_accounting_witness :
  waitForSuccess lateFailure twoKeys 10 = Races (executor lateFailure) /\
  (forall tr st,
      exec lateFailure twoKeys 10 (executor lateFailure) tr = Some st ->
      (20 < now st)%nat ->
      (length (results st) + size (errors st) = 2)%nat).
Proof.
  destruct (waitForSuccess_outcome_accounting lateFailure twoKeys 10
              (executor lateFailure) eq_refl) as (_ & Hcount & _).
  split; [reflexivity |].
  intros tr st Hrun Hlate. apply (Hcount tr st 20%nat Hrun eq_refl Hlate).
Defined.

(** C6 does not hold as stated: B is still outstanding when the timer fires
    and the race is reported finished; the errors the caller receives are
    empty at that moment; when B fails later, its entry appears in that same
    mapping. *)
Lemma late_failure_reaches_the_caller :
  let run := exec lateFailure twoKeys 10 in
  exists sr st,
    waitForSuccess lateFailure twoKeys 10 = Races (executor lateFailure) /\
    run (executor lateFailure) untilTimeout = Some sr /\
    firstResolved lateFailure twoKeys 10 (executor lateFailure)
      (untilTimeout ++ afterTimeout) = Some sr /\
    chains sr !! 1%nat = Some Subscribed /\
    observed sr = Some (["A"%string], ∅) /\
    run sr afterTimeout = Some st /\
    observed st = Some (["A"%string], {["https://relay-b"%string := mkError "timeout"]}).
Proof. simpl. eexists. eexists. repeat split; vm_compute; reflexivity. Qed.

Lemma waitForSuccess_completion_order_witness :
  waitForSuccess quickSuccesses twoKeys 10 = Races (executor quickSuccesses) /\
  (forall tr sr,
      firstResolved quickSuccesses twoKeys 10 (executor quickSuccesses) tr = Some sr ->
      length (results sr) = 2%nat /\ errors sr = ∅).
Proof.
  destruct (waitForSuccess_completion_order quickSuccesses twoKeys 10
              (executor quickSuccesses) eq_refl) as (_ & _ & Hall).
  destruct (Hall 0%nat eq_refl) as (Hfull & _).
  { intros [| [| i]] p Hp; simpl in Hp; try discriminate;
      injection Hp as <-; eexists; eexists; (split; [reflexivity | simpl; lia]). }
  split; [reflexivity |].
  intros tr sr Hsr. destruct (Hfull tr sr Hsr) as (Hlen & Herr & _). auto.
Defined.

Example quickSuccesses_run :
  exists sr,
    firstResolved quickSuccesses twoKeys 10 (executor quickSuccesses)
      [Settle 1; Finally 1; Advance 3; Settle 0; Finally 0] = Some sr /\
    results sr = ["B"; "A"]%string.
Proof. eexists. split; vm_compute; reflexivity. Qed.

(** C7 does not hold as stated: both probes of [lateSuccess] succeed, yet
    the race is reported finished, by the timer, with one result only. *)
Lemma late_success_missing_when_finished :
  (forall i p, lateSuccess !! i = Some p -> exists t v, p = Fulfils t v) /\
  exists sr,
    waitForSuccess lateSuccess twoKeys 10 = Races (executor lateSuccess) /\
    firstResolved lateSuccess twoKeys 10 (executor lateSuccess)
      (untilTimeout ++ afterTimeout) = Some sr /\
    observed sr = Some (["A"%string], ∅) /\
    length (results sr) <> length lateSuccess.
Proof.
  split.
  - intros [| [| i]] p Hp; simpl in Hp; try discriminate; injection Hp as <-; eauto.
  - eexists. repeat split; try (vm_compute; reflexivity).
    vm_compute. discriminate.
Qed.

(** The empty input passes both checks: no configuration error is raised,
    and the race is started with no probe to subscribe to. *)
Theorem waitForSuccess_empty_input {T : Type} (graceTime : nat) :
  waitForSuccess (@nil (Promise T)) [] graceTime
  = Races {| results := []; errors := ∅; resolved := false;
             timers := []; now := 0; chains := [] |} /\
  subscribed (waitForSuccess (@nil (Promise T)) [] graceTime) = 0%nat /\
  (forall e, waitForSuccess (@nil (Promise T)) [] graceTime <> Throws e).
Proof. repeat split. discriminate. Qed.

(** C4. On the empty input, [waitForSuccess ([], [], 10)], the code
    raises no configuration error.  The test of line 459,
    [results.length + errors.size === promises.length], holds from the
    start (0 = 0), but it is only evaluated in the [finally] callbacks and
    there is no promise to attach one to: nothing ever calls
    [resolve (ret)], and the returned promise stays pending for ever. *)
Lemma waitForSuccess_empty_never_settles :
  ~ (exists e, waitForSuccess (@nil (Promise string)) [] 10 = Throws e) /\
  waitForSuccess (@nil (Promise string)) [] 10 = Races (executor []) /\
  subscribed (waitForSuccess (@nil (Promise string)) [] 10) = 0%nat /\
  (length (results (executor (@nil (Promise string))))
   + size (errors (executor (@nil (Promise string)))))%nat
  = length (@nil (Promise string)) /\
  (forall tr st,
      exec (@nil (Promise string)) [] 10 (executor []) tr = Some st ->
      resolved st = false /\ observed st = None).
Proof.
  split; [intros (e & He); discriminate |].
  split; [reflexivity |]. split; [reflexivity |]. split; [reflexivity |].
  intros tr st Hrun.
  pose proof (resolved_at_resolutionTime (@nil (Promise string)) [] 10
                eq_refl (NoDup_nil_2) tr st Hrun) as Hr.
  simpl in Hr. unfold observed. now rewrite Hr.
Qed.

(** ** A race that never finishes *)

(** X17. When no promise is fulfilled and at least one never settles, the
    promise [waitForSuccess] returns stays pending for ever: the race is
    never reported finished, whatever the grace time, and no failure is
    passed on either. *)
Theorem waitForSuccess_stays_pending {T : Type}
    (promises : list (Promise T)) (errorKeys : list string) (graceTime : nat) :
  length promises = length errorKeys -> NoDup errorKeys ->
  (forall i t v, promises !! i <> Some (Fulfils t v)) ->
  Forever ∈ promises ->
  waitForSuccess promises errorKeys graceTime = Races (executor promises) /\
  forall tr st,
    exec promises errorKeys graceTime (executor promises) tr = Some st ->
    resolved st = false /\ observed st = None.
Proof.
  intros Hlen Hnd Hnone Hforever.
  split; [apply waitForSuccess_races; auto |].
  intros tr st Hrun.
  pose proof (resolved_at_resolutionTime promises errorKeys graceTime Hlen Hnd
                tr st Hrun) as Hr.
  rewrite resolutionTime_nonempty in Hr
    by (destruct promises; [inversion Hforever | simpl; lia]).
  rewrite (proj2 (firstSuccess_None promises) Hnone) in Hr.
  rewrite (proj2 (lastSettlement_None promises) Hforever) in Hr.
  unfold observed. now rewrite Hr.
Qed.

Lemma waitForSuccess_stays_pending_witness :
  waitForSuccess oneHangs twoKeys 10 = Races (executor oneHangs) /\
  forall tr st,
    exec oneHangs twoKeys 10 (executor oneHangs) tr = Some st ->
    resolved st = false /\ observed st = None.
Proof.
  apply (waitForSuccess_stays_pending oneHangs twoKeys 10).
  - reflexivity.
  - apply uniqueKeys_NoDup. reflexivity.
  - intros [| [| i]] t v; discriminate.
  - left.
Defined.

Example oneHangs_run :
  exists st,
    exec oneHangs twoKeys 10 (executor oneHangs)
      [Advance 3; Settle 1; Finally 1; Advance 1000] = Some st /\
    resolved st = false /\
    errors st !! "https://relay-b"%string = Some (mkError "timeout").
Proof. eexists. repeat split; vm_compute; reflexivity. Qed.

(** ** The gas price fetcher *)

Module OracleFacts.

Import Oracle.

Section FetcherFacts.

Variable httpGet : string -> Error + string.
Variable parseBody : string -> option Json.
Variable parsePath : string -> option (list Segment).
Variable fallbackSource : Fetched.

Local Abbreviation getGasPrice := (getGasPrice httpGet parseBody parsePath fallbackSource).

(** C9. With an endpoint configured and a well-formed path: when the path
    finds a positive number in the oracle's response, the fetcher returns
    that number times 10^9; when the network call fails, the body cannot
    be parsed, the path does not resolve or the value found is not a
    number, it returns what the fallback source returns and logs that very
    cause at error severity: none of these conditions reaches the caller
    as an exception. *)
Theorem getGasPrice_spec (oracleEndpoint pathExpression : string) (path : list Segment)
    (Hendpoint : oracleEndpoint <> ""%string)
    (Hpath : parsePath pathExpression = Some path) :
  (forall body tree found price,
      httpGet oracleEndpoint = inr body -> parseBody body = Some tree ->
      extract tree path = Some found -> numeric found = Some price ->
      (0 < price)%Q ->
      getGasPrice oracleEndpoint pathExpression
      = (Value (price * inject_Z (10 ^ 9)), [])) /\
  (forall reason,
      httpGet oracleEndpoint = inl reason ->
      getGasPrice oracleEndpoint pathExpression
      = (fallbackSource, [(SevError, NetworkFailed reason)])) /\
  (forall body,
      httpGet oracleEndpoint = inr body -> parseBody body = None ->
      getGasPrice oracleEndpoint pathExpression
      = (fallbackSource, [(SevError, BodyNotParseable)])) /\
  (forall body tree,
      httpGet oracleEndpoint = inr body -> parseBody body = Some tree ->
      extract tree path = None ->
      getGasPrice oracleEndpoint pathExpression
      = (fallbackSource, [(SevError, PathNotResolved)])) /\
  (forall body tree found,
      httpGet oracleEndpoint = inr body -> parseBody body = Some tree ->
      extract tree path = Some found -> numeric found = None ->
      getGasPrice oracleEndpoint pathExpression
      = (fallbackSource, [(SevError, NotANumber)])).
Proof.
  assert (Hne : String.eqb oracleEndpoint "" = false)
    by (now apply String.eqb_neq).
  unfold Oracle.getGasPrice, fallBack. rewrite Hne, Hpath.
  split; [| split; [| split; [| split]]].
  - intros body tree found price -> -> -> -> Hpos.
    assert (Hle : Qle_bool price 0 = false).
    { destruct (Qle_bool price 0) eqn:E; [| reflexivity].
      apply Qle_bool_iff in E. exfalso. apply (Qlt_not_le _ _ Hpos E). }
    now rewrite Hle.
  - now intros reason ->.
  - now intros body -> ->.
  - now intros body tree -> -> ->.
  - now intros body tree found -> -> -> ->.
Qed.

End FetcherFacts.

Lemma getGasPrice_spec_witness :
  getGasPrice sampleGet sampleParseBody sampleParsePath (Value 1000000000)
    oracleUrl ".result.ProposeGasPrice"
  = (Value (39 * inject_Z (10 ^ 9)), []).
Proof.
  destruct (getGasPrice_spec sampleGet sampleParseBody sampleParsePath
              (Value 1000000000) oracleUrl ".result.ProposeGasPrice"
              [Property "result"; Property "ProposeGasPrice"]
              ltac:(discriminate) eq_refl) as (Hvalue & _).
  apply (Hvalue etherscanBody etherscanTree (JString "39") 39%Q);
    reflexivity.
Defined.

(** The three runs of the test: the oracle answers, the path is wrong, the
    oracle is unreachable. *)
Example getGasPrice_oracle :
  getGasPrice sampleGet sampleParseBody sampleParsePath (Value 1000000000)
    oracleUrl ".result.ProposeGasPrice"
  = (Value (39000000000 # 1), []).
Proof. reflexivity. Qed.

Example getGasPrice_wrong_path :
  getGasPrice sampleGet sampleParseBody sampleParsePath (Value 1000000000)
    oracleUrl ".result.wrongpath"
  = (Value 1000000000, [(SevError, PathNotResolved)]).
Proof. reflexivity. Qed.

Example getGasPrice_unreachable :
  getGasPrice sampleGet sampleParseBody sampleParsePath (Value 1000000000)
    "http://localhost:23456" ".result.ProposeGasPrice"
  = (Value 1000000000, [(SevError, NetworkFailed (mkError "connect ECONNREFUSED"))]).
Proof. reflexivity. Qed.

Example decimalNumber_whole : decimalNumber "39" = Some (39 # 1).
Proof. reflexivity. Qed.

Example decimalNumber_fraction : (decimalNumber "39.5" = Some (39 + 5 / 10))%Q.
Proof. reflexivity. Qed.

Example decimalNumber_text : decimalNumber "fast" = None.
Proof. reflexivity. Qed.

(** The diagnostics the test looks for. *)
Example diagnostic_wrong_path :
  index 0 "not a number" (diagnostic ".result.wrongpath" PathNotResolved) = Some 28%nat.
Proof. reflexivity. Qed.

Example diagnostic_not_json :
  index 0 "not a number" (diagnostic ".result.ProposeGasPrice" BodyNotParseable)
  = Some 34%nat.
Proof. reflexivity. Qed.

Example diagnostic_unreachable :
  index 0 "ECONNREFUSED"
    (diagnostic ".result.ProposeGasPrice" (NetworkFailed (mkError "connect ECONNREFUSED")))
  = Some 42%nat.
Proof. reflexivity. Qed.

Example extract_missing :
  extract (JObject [("abc"%string, JArray [JObject [("def"%string, JNull)]])])
          [Property "abc"; Index 0; Property "invalid"; Property "ghi"]
  = None.
Proof. reflexivity. Qed.

Example extract_blob :
  extract (JObject [("abc"%string,
                     JArray [JObject [("def"%string,
                                       JObject [("ghi"%string, JString "hello")])]])])
          [Property "abc"; Index 0; Property "def"; Property "ghi"]
  = Some (JString "hello").
Proof. reflexivity. Qed.

End OracleFacts.

(** * More of Utils.ts *)

(** ** Hexadecimal helpers *)

Section HexFacts.

Import Str.

(** Induction over a list, two elements at a time. *)
Lemma pairs_ind {A} (P : list A -> Prop) :
  P [] -> (forall a, P [a]) -> (forall a b rest, P rest -> P (a :: b :: rest)) ->
  forall l, P l.
Proof.
  intros Hnil Hone Hstep l.
  assert (H : P l /\ forall a, P (a :: l)).
  { induction l as [| b l [IH1 IH2]]; split; auto. }
  apply H.
Qed.

Lemma padTo64_shape (hex : list ascii) :
  padTo64 hex = replicate (64 - length hex) "0"%char ++ hex.
Proof.
  unfold padTo64, sliceLast, zeroPad.
  destruct (Nat.ltb_spec (length hex) 64) as [Hlt | Hge].
  - rewrite length_app, length_replicate.
    replace (64 + length hex - 64)%nat with (length hex) by lia.
    rewrite drop_app_le by (rewrite length_replicate; lia).
    now rewrite drop_replicate.
  - replace (64 - length hex)%nat with 0%nat by lia. reflexivity.
Qed.

(** X1. [padTo64] pads on the left with zeros up to 64 characters and never
    cuts: a longer text is returned as it is; padding twice changes nothing
    more. *)
Theorem padTo64_spec (hex : list ascii) :
  padTo64 hex = replicate (64 - length hex) "0"%char ++ hex /\
  length (padTo64 hex) = Nat.max 64 (length hex) /\
  padTo64 (padTo64 hex) = padTo64 hex.
Proof.
  split; [apply padTo64_shape |]. split.
  - rewrite padTo64_shape, length_app, length_replicate. lia.
  - rewrite (padTo64_shape (padTo64 hex)).
    replace (64 - length (padTo64 hex))%nat with 0%nat; [reflexivity |].
    rewrite padTo64_shape, length_app, length_replicate. lia.
Qed.

(** The sixteen digits. *)
Lemma nibble_cases (x : Z) :
  0 <= x < 16 -> x ∈ seqZ 0 16.
Proof. intros H. apply elem_of_seqZ. lia. Qed.

Lemma unhex_hexDigit (x : Z) : 0 <= x < 16 -> unhex (hexDigit x) = Some x.
Proof.
  intros H. apply nibble_cases in H.
  assert (Hall : forallb (fun x => bool_decide (unhex (hexDigit x) = Some x))
                         (seqZ 0 16) = true) by (vm_compute; reflexivity).
  rewrite forallb_forall in Hall.
  eapply bool_decide_eq_true_1, Hall, list_elem_of_In, H.
Qed.

Lemma number_is_Int (n : number) (z : Z) :
  match n with
  | Finite q => (Qnum q =? z) && (Z.pos (Qden q) =? 1)
  | _ => false
  end = true ->
  n = Int z.
Proof.
  destruct n as [[num den] | | |]; try discriminate.
  cbn [Qnum Qden]. intros H. apply andb_true_iff in H as [Hn Hd].
  apply Z.eqb_eq in Hn. apply Z.eqb_eq in Hd. injection Hd as ->. subst.
  reflexivity.
Qed.

Lemma parseInt16_pair (x y : Z) :
  0 <= x < 16 -> 0 <= y < 16 ->
  parseInt16 [hexDigit x; hexDigit y] = Int (16 * x + y).
Proof.
  intros Hx Hy. apply number_is_Int.
  assert (Hall : forallb (fun x => forallb (fun y =>
             match parseInt16 [hexDigit x; hexDigit y] with
             | Finite q => (Qnum q =? 16 * x + y) && (Z.pos (Qden q) =? 1)
             | _ => false
             end) (seqZ 0 16)) (seqZ 0 16) = true)
    by (vm_compute; reflexivity).
  rewrite forallb_forall in Hall.
  specialize (Hall x ltac:(apply list_elem_of_In, elem_of_seqZ; lia)).
  rewrite forallb_forall in Hall.
  apply (Hall y). apply list_elem_of_In, elem_of_seqZ. lia.
Qed.

Lemma byte_nibbles (b : Z) :
  isByte b -> 0 <= b / 16 < 16 /\ 0 <= b mod 16 < 16 /\ 16 * (b / 16) + b mod 16 = b.
Proof.
  unfold isByte. intros H. pose proof (Z.div_mod b 16 ltac:(lia)).
  pose proof (Z.mod_pos_bound b 16 ltac:(lia)).
  assert (0 <= b / 16) by (apply Z.div_pos; lia).
  assert (b / 16 < 16) by (apply Z.div_lt_upper_bound; lia).
  lia.
Qed.

Lemma length_hexOfBytes (buffer : list Z) :
  length (hexOfBytes buffer) = (2 * length buffer)%nat.
Proof. induction buffer as [| b rest IH]; simpl; [reflexivity | rewrite IH; lia]. Qed.

Lemma bytesOfHex_hexOfBytes (buffer : list Z) :
  Forall isByte buffer -> bytesOfHex (hexOfBytes buffer) = buffer.
Proof.
  induction 1 as [| b rest Hb _ IH]; [reflexivity |].
  destruct (byte_nibbles b Hb) as (Hhi & Hlo & Hsum).
  cbn [hexOfBytes flat_map app bytesOfHex].
  rewrite (unhex_hexDigit _ Hhi), (unhex_hexDigit _ Hlo).
  fold (hexOfBytes rest). rewrite IH, Hsum. reflexivity.
Qed.

Lemma parseHexString_hexOfBytes (buffer : list Z) (tail : list ascii) :
  Forall isByte buffer -> (length tail <= 1)%nat ->
  parseHexString (hexOfBytes buffer ++ tail) = map Int buffer.
Proof.
  intros Hbytes Htail. induction Hbytes as [| b rest Hb _ IH].
  - destruct tail as [| c [| d tail]]; simpl in *; try reflexivity; lia.
  - destruct (byte_nibbles b Hb) as (Hhi & Hlo & Hsum).
    cbn [hexOfBytes flat_map app parseHexString map].
    fold (hexOfBytes rest). rewrite IH, (parseInt16_pair _ _ Hhi Hlo), Hsum.
    reflexivity.
Qed.

Lemma length_parseHexString (str : list ascii) :
  length (parseHexString str) = (length str / 2)%nat.
Proof.
  induction str as [| a | a b rest IH] using pairs_ind; try reflexivity.
  cbn [parseHexString length]. rewrite IH.
  change (S (S (length rest))) with (1 * 2 + length rest)%nat.
  rewrite Nat.div_add_l by lia. lia.
Qed.

(** X2. [parseHexString] returns one number per pair of characters, a last
    character without partner being dropped; on the hexadecimal text of a
    buffer it gives the bytes of the buffer back. *)
Theorem parseHexString_spec :
  (forall str, length (parseHexString str) = (length str / 2)%nat) /\
  (forall buffer, Forall isByte buffer ->
                  parseHexString (hexOfBytes buffer) = map Int buffer) /\
  (forall buffer c, Forall isByte buffer ->
                    parseHexString (hexOfBytes buffer ++ [c]) = map Int buffer).
Proof.
  split; [exact length_parseHexString |]. split.
  - intros buffer Hb. rewrite <- (app_nil_r (hexOfBytes buffer)).
    apply parseHexString_hexOfBytes; [exact Hb | simpl; lia].
  - intros buffer c Hb. apply parseHexString_hexOfBytes; [exact Hb | simpl; lia].
Qed.

Lemma parseHexString_spec_witness :
  parseHexString (hexOfBytes [27; 0; 255] ++ ["f"%char]) = [Int 27; Int 0; Int 255].
Proof.
  destruct parseHexString_spec as (_ & _ & Hodd).
  apply (Hodd [27; 0; 255] "f"%char).
  repeat constructor; unfold isByte; lia.
Defined.

(** The last byte of a signature, as [signatureRSV2Hex] writes it. *)
Lemma v_text (v : Z) :
  isByte v -> padStart 2 "0"%char (toString16 v) = hexOfBytes [v].
Proof.
  unfold isByte. intros Hv.
  assert (Hin : v ∈ seqZ 0 256) by (apply elem_of_seqZ; lia).
  assert (Hall : Forall (fun v => padStart 2 "0"%char (toString16 v) = hexOfBytes [v])
                        (seqZ 0 256)).
  { apply Forall_forall. intros w Hw.
    apply elem_of_seqZ in Hw.
    assert (Hb : forallb (fun w => bool_decide
                   (padStart 2 "0"%char (toString16 w) = hexOfBytes [w])) (seqZ 0 256)
                 = true) by (vm_compute; reflexivity).
    rewrite forallb_forall in Hb.
    eapply bool_decide_eq_true_1, Hb, list_elem_of_In, elem_of_seqZ. lia. }
  rewrite Forall_forall in Hall. auto.
Qed.

(** X3. A signature written by [signatureRSV2Hex] is read back by the first
    lines of [getEcRecoverMeta]: for [r] and [s] of 32 bytes and a byte
    [v], the text has 132 characters and is cut into the bytes of [r], of
    [s], and [v]. *)
Theorem signature_round_trip (rHex sHex : list ascii) (r s : list Z) (v : Z)
    (Hr : padTo64 rHex = hexOfBytes r) (Hs : padTo64 sHex = hexOfBytes s)
    (Hrlen : length r = 32%nat) (Hslen : length s = 32%nat)
    (Hrbytes : Forall isByte r) (Hsbytes : Forall isByte s) (Hv : isByte v) :
  length (signatureRSV2Hex rHex sHex v) = 132%nat /\
  signatureOfString (signatureRSV2Hex rHex sHex v)
  = {| sig_v := [Int v]; sig_r := map Int r; sig_s := map Int s |}.
Proof.
  unfold signatureRSV2Hex. rewrite Hr, Hs, (v_text v Hv).
  assert (Lr : length (hexOfBytes r) = 64%nat) by (rewrite length_hexOfBytes; lia).
  assert (Ls : length (hexOfBytes s) = 64%nat) by (rewrite length_hexOfBytes; lia).
  destruct (byte_nibbles v Hv) as (Hhi & Hlo & Hsum).
  split.
  { rewrite !length_app, Lr, Ls. reflexivity. }
  set (hr := hexOfBytes r) in *. set (hs := hexOfBytes s) in *.
  set (vv := hexOfBytes [v]). set (p := chars "0x").
  assert (Lp : length p = 2%nat) by reflexivity.
  assert (Lv : length vv = 2%nat) by reflexivity.
  unfold signatureOfString, substr. f_equal.
  - (* v: the two characters from 130 on *)
    replace (p ++ hr ++ hs ++ vv) with (((p ++ hr) ++ hs) ++ vv)
      by (now rewrite <- !app_assoc).
    rewrite drop_app_length' by (rewrite !length_app; lia).
    rewrite take_ge by lia. subst vv.
    rewrite <- (app_nil_r (hexOfBytes [v])).
    apply (parseHexString_hexOfBytes [v] []);
      first [constructor; [exact Hv | constructor] | simpl; lia].
  - (* r: 65 characters from 2 on, the last one is dropped *)
    rewrite drop_app_length' by exact Lp.
    change 65%nat with (64 + 1)%nat. rewrite take_app_add' by (symmetry; exact Lr).
    apply parseHexString_hexOfBytes; [exact Hrbytes |].
    rewrite length_take. lia.
  - (* s: 65 characters from 66 on, the last one is dropped *)
    rewrite (app_assoc p hr).
    rewrite drop_app_length' by (rewrite length_app; lia).
    change 65%nat with (64 + 1)%nat. rewrite take_app_add' by (symmetry; exact Ls).
    apply parseHexString_hexOfBytes; [exact Hsbytes |].
    rewrite length_take. lia.
Qed.

Lemma signature_round_trip_witness :
  signatureOfString
    (signatureRSV2Hex (chars "1b") (hexOfBytes (replicate 32 171)) 28)
  = {| sig_v := [Int 28];
       sig_r := map Int (replicate 31 0 ++ [27]);
       sig_s := map Int (replicate 32 171) |}.
Proof.
  apply (signature_round_trip (chars "1b") (hexOfBytes (replicate 32 171))
           (replicate 31 0 ++ [27]) (replicate 32 171) 28);
    try reflexivity.
  - apply Forall_app. split; [apply Forall_replicate | repeat constructor];
      unfold isByte; lia.
  - apply Forall_replicate. unfold isByte. lia.
  - unfold isByte. lia.
Defined.

(** What [forEach] counts. *)
Lemma countBytes_from (buffer : list Z) (zero nonzero : nat) :
  fold_left
    (fun acc ch =>
       if ch =? 0
       then mkCalldataBytes (S acc.(calldataZeroBytes)) acc.(calldataNonzeroBytes)
       else mkCalldataBytes acc.(calldataZeroBytes) (S acc.(calldataNonzeroBytes)))
    buffer (mkCalldataBytes zero nonzero)
  = mkCalldataBytes (zero + length (filter (fun ch : Z => ch = 0%Z) buffer))
                    (nonzero + length (filter (fun ch : Z => ch <> 0%Z) buffer)).
Proof.
  revert zero nonzero. induction buffer as [| ch rest IH]; intros zero nonzero; simpl.
  - f_equal; lia.
  - rewrite !filter_cons.
    destruct (Z.eqb_spec ch 0) as [-> | Hne]; rewrite IH; cbn [calldataZeroBytes calldataNonzeroBytes].
    + rewrite decide_True by reflexivity. rewrite decide_False by auto.
      cbn [length]. f_equal; lia.
    + rewrite decide_False by exact Hne. rewrite decide_True by exact Hne.
      cbn [length]. f_equal; lia.
Qed.

Lemma filter_split_length (buffer : list Z) :
  (length (filter (fun ch : Z => ch = 0%Z) buffer)
   + length (filter (fun ch : Z => ch <> 0%Z) buffer) = length buffer)%nat.
Proof.
  induction buffer as [| ch rest IH]; [reflexivity |].
  rewrite !filter_cons. destruct (decide (ch = 0)) as [-> | Hne].
  - rewrite decide_False by auto. simpl. lia.
  - rewrite decide_True by exact Hne. simpl. lia.
Qed.

(** X4. [calculateCalldataBytesZeroNonzero]: the two counts add up to the
    number of bytes decoded; for calldata written as [0x] and the
    hexadecimal text of a buffer, they are the number of zero bytes and of
    other bytes of that buffer. *)
Theorem calculateCalldataBytesZeroNonzero_spec :
  (forall calldata,
      (calldataZeroBytes (calculateCalldataBytesZeroNonzero calldata)
       + calldataNonzeroBytes (calculateCalldataBytesZeroNonzero calldata)
       = length (bytesOfHex (replaceFirst0x calldata)))%nat) /\
  (forall buffer,
      Forall isByte buffer ->
      calculateCalldataBytesZeroNonzero (chars "0x" ++ hexOfBytes buffer)
      = {| calldataZeroBytes := length (filter (fun ch : Z => ch = 0%Z) buffer);
           calldataNonzeroBytes := length (filter (fun ch : Z => ch <> 0%Z) buffer) |} /\
      (calldataZeroBytes (calculateCalldataBytesZeroNonzero
                            (chars "0x" ++ hexOfBytes buffer))
       + calldataNonzeroBytes (calculateCalldataBytesZeroNonzero
                                 (chars "0x" ++ hexOfBytes buffer))
       = length buffer)%nat).
Proof.
  split.
  - intros calldata. unfold calculateCalldataBytesZeroNonzero, countBytes.
    rewrite countBytes_from. simpl. apply filter_split_length.
  - intros buffer Hbytes.
    assert (E : calculateCalldataBytesZeroNonzero (chars "0x" ++ hexOfBytes buffer)
                = {| calldataZeroBytes := length (filter (fun ch : Z => ch = 0%Z) buffer);
                     calldataNonzeroBytes :=
                       length (filter (fun ch : Z => ch <> 0%Z) buffer) |}).
    { unfold calculateCalldataBytesZeroNonzero, countBytes.
      change (replaceFirst0x (chars "0x" ++ hexOfBytes buffer)) with (hexOfBytes buffer).
      rewrite (bytesOfHex_hexOfBytes buffer Hbytes), countBytes_from. reflexivity. }
    split; [exact E |]. rewrite E. simpl. apply filter_split_length.
Qed.

Lemma calculateCalldataBytesZeroNonzero_spec_witness :
  calculateCalldataBytesZeroNonzero (chars "0x" ++ hexOfBytes [0; 164; 0; 0; 255])
  = {| calldataZeroBytes := 3; calldataNonzeroBytes := 2 |}.
Proof.
  destruct calculateCalldataBytesZeroNonzero_spec as (_ & Hhex).
  destruct (Hhex [0; 164; 0; 0; 255]) as (E & _).
  - repeat constructor; unfold isByte; lia.
  - exact E.
Defined.

(** Only the first [0x] is removed, and hexadecimal decoding stops at the
    first character that is not a digit: calldata holding a second [0x] is
    counted up to there. *)
Example calculateCalldataBytesZeroNonzero_stops :
  calculateCalldataBytesZeroNonzero (chars "0x00ff0x00ff")
  = {| calldataZeroBytes := 1; calldataNonzeroBytes := 1 |}.
Proof. reflexivity. Qed.

Lemma lower_lower (c : ascii) : lower (lower c) = lower c.
Proof. destruct c as [[] [] [] [] [] [] [] []]; reflexivity. Qed.

Lemma toLowerCase_idempotent (s : list ascii) :
  toLowerCase (toLowerCase s) = toLowerCase s.
Proof.
  unfold toLowerCase. rewrite map_map. apply map_ext. intros c. apply lower_lower.
Qed.

(** X5. Two addresses that [isSameAddress] holds equal (they differ in the
    case of their letters only) have the same topic; the topic of a
    42-character address has 66 characters, and is in lower case. *)
Theorem address2topic_spec (address1 address2 : list ascii) :
  (isSameAddress address1 address2 = true ->
   address2topic address1 = address2topic address2) /\
  (length address1 = 42%nat -> length (address2topic address1) = 66%nat) /\
  toLowerCase (address2topic address1) = address2topic address1.
Proof.
  unfold address2topic, isSameAddress, slice, repeat. split; [| split].
  - intros Hsame. apply bool_decide_eq_true in Hsame. now rewrite Hsame.
  - intros Hlen. rewrite !length_app, length_drop. unfold toLowerCase.
    rewrite length_map, Hlen. reflexivity.
  - unfold toLowerCase. rewrite !map_app. f_equal. f_equal.
    rewrite <- skipn_map, map_map. f_equal. apply map_ext. intros c. apply lower_lower.
Qed.

Lemma address2topic_spec_witness :
  address2topic (chars "0xAbCdEF0123456789abcdef0123456789ABCDEF01")
  = address2topic (chars "0xabcdef0123456789ABCDEF0123456789abcdef01").
Proof.
  exact (proj1 (address2topic_spec
                  (chars "0xAbCdEF0123456789abcdef0123456789ABCDEF01")
                  (chars "0xabcdef0123456789ABCDEF0123456789abcdef01")) eq_refl).
Defined.

(** The first two characters are dropped whatever they are: an address
    without [0x] loses its first two digits. *)
Example address2topic_without_prefix :
  address2topic (chars "AbCd") = chars "0x000000000000000000000000cd".
Proof. reflexivity. Qed.

(** X6. [correctV], on the buffer: a last byte 0 or 1 becomes 27 or 28 and
    no other byte changes; the length is kept; after the call the last byte
    is never 0 or 1, so a second call changes nothing. *)
Theorem correctVBuffer_spec (buffer : list Z) :
  length (correctVBuffer buffer) = length buffer /\
  (forall i, (S i < length buffer)%nat -> correctVBuffer buffer !! i = buffer !! i) /\
  (forall oldV, last buffer = Some oldV ->
     last (correctVBuffer buffer)
     = Some (if oldV <? 2 then (oldV + 27) mod 256 else oldV)) /\
  (Forall isByte buffer ->
     (forall newV, last (correctVBuffer buffer) = Some newV -> 2 <= newV) /\
     correctVBuffer (correctVBuffer buffer) = correctVBuffer buffer).
Proof.
  assert (Hlast : forall l : list Z, last l = l !! (length l - 1)%nat).
  { intros l. rewrite last_lookup. f_equal. lia. }
  assert (Hshape : forall l : list Z,
             correctVBuffer l = l \/
             exists oldV, l !! (length l - 1)%nat = Some oldV /\ oldV < 2 /\
                          correctVBuffer l
                          = <[(length l - 1)%nat := (oldV + 27) mod 256]> l).
  { intros l. unfold correctVBuffer.
    destruct (l !! (length l - 1)%nat) as [oldV |] eqn:E; [| now left].
    destruct (Z.ltb_spec oldV 2); [right; eauto | now left]. }
  assert (Hnew : forall l newV,
             Forall isByte l -> last (correctVBuffer l) = Some newV -> 2 <= newV).
  { intros l newV Hbytes. rewrite Hlast. unfold correctVBuffer.
    destruct (l !! (length l - 1)%nat) as [oldV |] eqn:E.
    - destruct (Z.ltb_spec oldV 2) as [Hlt | Hge].
      + rewrite length_insert, list_lookup_insert_eq by (eapply lookup_lt_Some, E).
        intros [= <-]. rewrite Forall_lookup in Hbytes.
        specialize (Hbytes _ _ E). unfold isByte in Hbytes.
        rewrite Z.mod_small by lia. lia.
      + rewrite E. intros [= <-]. exact Hge.
    - rewrite E. discriminate. }
  split; [| split; [| split]].
  - destruct (Hshape buffer) as [-> | (oldV & _ & _ & ->)];
      [reflexivity | apply length_insert].
  - intros i Hi. destruct (Hshape buffer) as [-> | (oldV & _ & _ & ->)];
      [reflexivity |]. apply list_lookup_insert_ne. lia.
  - intros oldV. rewrite !Hlast. intros Hold. unfold correctVBuffer. rewrite Hold.
    destruct (Z.ltb_spec oldV 2); [| exact Hold].
    rewrite length_insert. apply list_lookup_insert_eq. eapply lookup_lt_Some, Hold.
  - intros Hbytes. split; [exact (fun newV => Hnew buffer newV Hbytes) |].
    destruct (Hshape (correctVBuffer buffer)) as [E | (v & Hv & Hlt & _)];
      [exact E |].
    rewrite <- Hlast in Hv. specialize (Hnew buffer v Hbytes Hv). lia.
Qed.

Lemma correctVBuffer_spec_witness :
  correctVBuffer (correctVBuffer [18; 52; 1]) = correctVBuffer [18; 52; 1] /\
  correctVBuffer [18; 52; 1] = [18; 52; 28].
Proof.
  destruct (correctVBuffer_spec [18; 52; 1]) as (_ & _ & _ & Hbytes).
  destruct Hbytes as (_ & Hidem).
  - repeat constructor; unfold isByte; lia.
  - split; [exact Hidem | reflexivity].
Defined.

End HexFacts.

(** ** Events *)

Lemma StronglySorted_weaken {B : Type} (R S : B -> B -> Prop) (l : list B) :
  (forall a b, R a b -> S a b) -> StronglySorted R l -> StronglySorted S l.
Proof.
  intros HRS. induction 1 as [| x l Hsorted IH Hall]; constructor; [exact IH |].
  eapply Forall_impl; [exact Hall |]. intros y Hy. apply HRS, Hy.
Qed.

Section SortFacts.

Context {B : Type}.
Variable compare : B -> B -> Z.

(** The comparator is a consistent order. *)
Hypothesis compare_total : forall x y, compare x y <= 0 \/ compare y x <= 0.
Hypothesis compare_trans :
  forall x y z, compare x y <= 0 -> compare y z <= 0 -> compare x z <= 0.

Local Abbreviation before := (fun x y => compare x y <= 0).

Lemma insertSorted_Permutation (x : B) (l : list B) :
  insertSorted compare x l ≡ₚ x :: l.
Proof.
  induction l as [| y l IH]; simpl; [reflexivity |].
  destruct (compare x y <=? 0); [reflexivity |].
  rewrite IH. apply Permutation_swap.
Qed.

Lemma sort_Permutation (l : list B) : sort compare l ≡ₚ l.
Proof.
  induction l as [| x l IH]; simpl; [reflexivity |].
  rewrite insertSorted_Permutation. now rewrite IH.
Qed.

Lemma insertSorted_sorted (x : B) (l : list B) :
  StronglySorted before l -> StronglySorted before (insertSorted compare x l).
Proof.
  induction 1 as [| y l Hsorted IH Hall]; simpl.
  - repeat constructor.
  - destruct (Z.leb_spec (compare x y) 0) as [Hle | Hgt].
    + constructor; [now constructor |].
      constructor; [exact Hle |].
      eapply Forall_impl; [exact Hall |]. intros z Hz. eapply compare_trans; eauto.
    + constructor; [exact IH |].
      rewrite insertSorted_Permutation. constructor; [| exact Hall].
      destruct (compare_total x y); [lia | assumption].
Qed.

Lemma sort_sorted (l : list B) : StronglySorted before (sort compare l).
Proof.
  induction l as [| x l IH]; simpl; [constructor | now apply insertSorted_sorted].
Qed.

(** The first element of the sorted array goes before every element. *)
Lemma sort_first (l : list B) (first : B) :
  sort compare l !! 0%nat = Some first ->
  first ∈ l /\ forall y, y ∈ l -> compare first y <= 0.
Proof.
  intros Hfirst. pose proof (sort_sorted l) as Hsorted.
  pose proof (sort_Permutation l) as Hperm.
  destruct (sort compare l) as [| f rest]; [discriminate |].
  injection Hfirst as ->. split.
  - rewrite <- Hperm. left.
  - intros y Hy. rewrite <- Hperm in Hy.
    apply StronglySorted_inv in Hsorted as [_ Hall].
    apply elem_of_cons in Hy as [-> | Hy].
    + destruct (compare_total first first); assumption.
    + rewrite Forall_forall in Hall. auto.
Qed.

End SortFacts.

Section EventFacts.

Context {A : Type}.
Implicit Types a b c : EventData A.

Lemma eventsComparator_le a b :
  eventsComparator a b <= 0 <->
  blockNumber b < blockNumber a \/
  (blockNumber b = blockNumber a /\ transactionIndex b <= transactionIndex a).
Proof. unfold eventsComparator. destruct (Z.eqb_spec (blockNumber a) (blockNumber b)); lia. Qed.

Lemma eventsComparator_total a b :
  eventsComparator a b <= 0 \/ eventsComparator b a <= 0.
Proof. rewrite !eventsComparator_le. lia. Qed.

Lemma eventsComparator_trans a b c :
  eventsComparator a b <= 0 -> eventsComparator b c <= 0 -> eventsComparator a c <= 0.
Proof. rewrite !eventsComparator_le. lia. Qed.

(** X7. [eventsComparator] is antisymmetric, and [isSecondEventLater (a, b)]
    says that [b] comes strictly after [a] in the order of block number,
    then transaction index: it is a strict order. *)
Theorem isSecondEventLater_spec :
  (forall a b, eventsComparator b a = - eventsComparator a b) /\
  (forall a b,
      isSecondEventLater a b = true <->
      blockNumber a < blockNumber b \/
      (blockNumber a = blockNumber b /\ transactionIndex a < transactionIndex b)) /\
  (forall a, isSecondEventLater a a = false) /\
  (forall a b, isSecondEventLater a b = true -> isSecondEventLater b a = false) /\
  (forall a b c,
      isSecondEventLater a b = true -> isSecondEventLater b c = true ->
      isSecondEventLater a c = true).
Proof.
  assert (Hlater : forall a b,
             isSecondEventLater a b = true <->
             blockNumber a < blockNumber b \/
             (blockNumber a = blockNumber b /\ transactionIndex a < transactionIndex b)).
  { intros a b. unfold isSecondEventLater, eventsComparator.
    rewrite Z.gtb_ltb, Z.ltb_lt.
    destruct (Z.eqb_spec (blockNumber a) (blockNumber b)); lia. }
  split; [| split; [exact Hlater | split; [| split]]].
  - intros a b. unfold eventsComparator.
    destruct (Z.eqb_spec (blockNumber a) (blockNumber b));
      destruct (Z.eqb_spec (blockNumber b) (blockNumber a)); lia.
  - intros a. apply not_true_iff_false. rewrite Hlater. lia.
  - intros a b Hab. apply not_true_iff_false. rewrite Hlater in *. lia.
  - intros a b c. rewrite !Hlater. lia.
Qed.

(** X8. [getLatestEventData] returns undefined exactly on the empty array;
    otherwise it returns an event of the array such that no event of the
    array is later, and it leaves the array it was given sorted, the latest
    event first. *)
Theorem getLatestEventData_spec (events : list (EventData A)) :
  (events = [] -> getLatestEventData events = (None, [])) /\
  (events <> [] ->
   exists latest,
     fst (getLatestEventData events) = Some latest /\
     latest ∈ events /\
     (forall e, e ∈ events -> isSecondEventLater latest e = false) /\
     snd (getLatestEventData events) ≡ₚ events /\
     StronglySorted (fun a b => isSecondEventLater a b = false)
                    (snd (getLatestEventData events)) /\
     snd (getLatestEventData events) !! 0%nat = Some latest).
Proof.
  split; [intros ->; reflexivity |].
  intros Hne. unfold getLatestEventData.
  destruct events as [| e0 rest] eqn:Hev; [contradiction |].
  rewrite <- Hev in *. replace (length events =? 0)%nat with false
    by (subst events; reflexivity).
  cbn [fst snd].
  pose proof (sort_Permutation eventsComparator events) as Hperm.
  destruct (sort eventsComparator events !! 0%nat) as [latest |] eqn:Hfirst.
  - destruct (sort_first eventsComparator eventsComparator_total eventsComparator_trans
                events latest Hfirst) as (Hin & Hmax).
    assert (Hnot : forall a b, eventsComparator a b <= 0 ->
                               isSecondEventLater a b = false).
    { intros a b H. unfold isSecondEventLater. rewrite Z.gtb_ltb. apply Z.ltb_ge. lia. }
    exists latest. repeat split; auto.
    eapply StronglySorted_weaken;
      [| apply (sort_sorted eventsComparator eventsComparator_total eventsComparator_trans)].
    intros a b H. apply Hnot. exact H.
  - exfalso. apply lookup_ge_None in Hfirst.
    apply Permutation_length in Hperm. subst events. simpl in *. lia.
Qed.

End EventFacts.

Lemma isSecondEventLater_spec_witness :
  isSecondEventLater (mkEvent 7 2 "a"%string) (mkEvent 9 0 "c"%string) = true.
Proof.
  destruct (@isSecondEventLater_spec string) as (_ & _ & _ & _ & Htrans).
  apply (Htrans (mkEvent 7 2 "a"%string) (mkEvent 7 5 "b"%string)
                (mkEvent 9 0 "c"%string)); reflexivity.
Defined.

Lemma getLatestEventData_spec_witness :
  fst (getLatestEventData
         [mkEvent 7 2 "a"%string; mkEvent 9 0 "b"%string; mkEvent 9 4 "c"%string;
          mkEvent 9 4 "d"%string])
  = Some (mkEvent 9 4 "c"%string).
Proof.
  destruct (getLatestEventData_spec
              [mkEvent 7 2 "a"%string; mkEvent 9 0 "b"%string; mkEvent 9 4 "c"%string;
               mkEvent 9 4 "d"%string]) as (_ & Hlatest).
  destruct (Hlatest ltac:(discriminate)) as (latest & Hfst & _).
  rewrite Hfst. vm_compute in Hfst. congruence.
Defined.

(** ** Random choices *)

Ltac random_number := unfold isRandom, Qle, Qlt; simpl; lia.


(** X9. For safe integers [min <= max] no more than [2 ^ 53] apart,
    [randomInRange (min, max)] is an integer from [min] up to [max]; for
    [min = max] it is [min].  The bound [max] itself is reached: the sum
    is rounded to a double, and a sum just below [max] is rounded to
    [max]. *)
Theorem randomInRange_spec (random : Q) (min max : Z) :
  isRandom random ->
  isSafeInteger min -> isSafeInteger max -> min <= max -> max - min < 2 ^ 53 ->
  exists r : Z,
    randomInRange random (Int min) (Int max) = Int r /\
    min <= r <= max.
Proof.
  intros [Hr0 Hr1] Hmin Hmax Hle Hspan. unfold isSafeInteger in *.
  unfold randomInRange. rewrite sub_Int by (unfold isSafeInteger; lia).
  assert (Hd : (0 <= inject_Z (max - min))%Q) by (rewrite <- (Zle_Qle 0); lia).
  (* the product *)
  destruct (double_between (random * inject_Z (max - min)) 0 0 (max - min) 0)
    as (y & Hy & Hylo & Hyhi); try (simpl; lia).
  { change (inject_Z 0) with 0%Q. nra. }
  { change (pow2 0) with 1%Q. nra. }
  unfold mul, Int at 1. rewrite Hy. unfold add, Int at 1.
  change (inject_Z 0 * pow2 0)%Q with (0 * 1)%Q in Hylo.
  change (pow2 0) with 1%Q in Hyhi.
  pose proof (Qred_correct y) as HyR.
  unfold Zminus in Hyhi. rewrite inject_Z_plus, inject_Z_opp in Hyhi.
  (* the sum *)
  destruct (double_between (Qred y + inject_Z min) min 0 max 0)
    as (z & Hz & Hzlo & Hzhi); try (simpl; lia).
  { change (pow2 0) with 1%Q. lra. }
  { change (pow2 0) with 1%Q. lra. }
  rewrite Hz. unfold floor. exists (Qfloor (Qred z)). split; [reflexivity |].
  change (pow2 0) with 1%Q in Hzlo, Hzhi.
  pose proof (Qred_correct z) as HzR.
  assert (Hlo : (inject_Z min <= Qred z)%Q) by lra.
  assert (Hhi : (Qred z <= inject_Z max)%Q) by lra.
  apply Qfloor_resp_le in Hlo, Hhi. rewrite Qfloor_Z in Hlo, Hhi. lia.
Qed.

Lemma randomInRange_spec_witness :
  exists r : Z, randomInRange (7 # 10) (Int 3) (Int 8) = Int r /\ 3 <= r <= 8.
Proof.
  apply (randomInRange_spec (7 # 10) 3 8);
    [random_number | unfold isSafeInteger; simpl; lia
     | unfold isSafeInteger; simpl; lia | lia | simpl; lia].
Defined.

(** The largest double below 1 times 1, plus 4, is 5 - 2 ^ -52, which is
    no double: the sum is 5. *)
Example randomInRange_reaches_max :
  isRandom (4503599627370495 # 4503599627370496) /\
  randomInRange (4503599627370495 # 4503599627370496) (Int 4) (Int 5) = Int 5.
Proof. split; [random_number | vm_compute; reflexivity]. Qed.

Example randomInRange_sample : randomInRange (7 # 10) (Int 3) (Int 8) = Int 6.
Proof. vm_compute. reflexivity. Qed.



(** *** [shuffle] *)

Lemma swap_Permutation {A} (i j : nat) (array : list A) : swap i j array ≡ₚ array.
Proof.
  unfold swap.
  destruct (array !! i) as [x |] eqn:Hi; [| reflexivity].
  destruct (array !! j) as [y |] eqn:Hj; [| reflexivity].
  now apply Permutation_insert_swap.
Qed.

Lemma length_swap {A} (i j : nat) (array : list A) :
  length (swap i j array) = length array.
Proof. apply Permutation_length, swap_Permutation. Qed.








(** *** The index, in doubles *)

(** X18. With the product rounded to a double, as the code computes it,
    [Math.floor (Math.random () * length)] is still an index of the array:
    an integer from 0 up to, not including, the length. *)
Theorem randomIndex_spec (random : Q) (n : Z) :
  isRandomDouble random -> 1 <= n -> isSafeInteger n ->
  exists i : Z, randomIndex random (Int n) = Int i /\ 0 <= i < n.
Proof.
  intros [Hr0 Hr1] Hn Hsafe. unfold isSafeInteger in Hsafe.
  unfold randomIndex, mul, Int at 1.
  assert (HN : (1 <= inject_Z n)%Q) by (rewrite <- (Zle_Qle 1); exact Hn).
  pose proof (pow2_pos (-53)) as Hp.
  destruct (Qlt_le_dec 0 random) as [Hpos | Hzero].
  - destruct (double_strictly_below (random * inject_Z n) n 0)
      as (r & Hr & Hrlo & Hrhi); try lia.
    + nra.
    + change (pow2 0) with 1%Q.
      apply Qlt_le_trans with 1%Q; [reflexivity | lra].
    + change (pow2 0) with 1%Q. nra.
    + rewrite Hr. unfold floor. exists (Qfloor (Qred r)). split; [reflexivity |].
      change (pow2 0) with 1%Q in Hrhi. pose proof (Qred_correct r) as HrR.
      split.
      * assert (H0 : (inject_Z 0 <= Qred r)%Q) by (change (inject_Z 0) with 0%Q; lra).
        apply Qfloor_resp_le in H0. now rewrite Qfloor_Z in H0.
      * rewrite Zlt_Qlt. apply Qle_lt_trans with (Qred r); [apply Qfloor_le | lra].
  - rewrite (double_zero (random * inject_Z n)) by nra.
    exists 0. split; [reflexivity | lia].
Qed.

Lemma randomIndex_spec_witness :
  exists i : Z, randomIndex (1 # 2) (Int 3) = Int i /\ 0 <= i < 3.
Proof.
  apply (randomIndex_spec (1 # 2) 3).
  - split; [unfold Qle; simpl; lia | vm_compute; discriminate].
  - lia.
  - unfold isSafeInteger. simpl. lia.
Defined.

(** The rounded product can pick the next index: for the double nearest to
    one third and length 3 the exact product is below 1, the double is 1. *)
Example randomIndex_rounded_up :
  isRandomDouble (6004799503160661 # 18014398509481984) /\
  randomIndex (6004799503160661 # 18014398509481984) (Int 3) = Int 1 /\
  Qfloor ((6004799503160661 # 18014398509481984) * inject_Z 3) = 0.
Proof.
  split; [split; [unfold Qle; simpl; lia | vm_compute; discriminate] |].
  split; vm_compute; reflexivity.
Qed.

(** ** [averageBN] *)

Lemma fold_left_add (rest : list Z) (first : Z) :
  fold_left Z.add rest first = first + fold_left Z.add rest 0.
Proof.
  revert first. induction rest as [| x rest IH]; intros first; cbn [fold_left]; [lia |].
  rewrite (IH (first + x)), (IH (0 + x)). lia.
Qed.

Lemma sum_bounds (array : list Z) (lo hi : Z) :
  Forall (fun x => lo <= x <= hi) array ->
  lo * Z.of_nat (length array) <= fold_left Z.add array 0
  <= hi * Z.of_nat (length array).
Proof.
  induction 1 as [| x array Hx Hall IH]; [simpl; lia |].
  cbn [fold_left length]. rewrite fold_left_add. lia.
Qed.

(** X12. [averageBN] fails on the empty array (the [reduce] without initial
    value throws); on any other array it returns the sum divided by the
    length, truncated towards zero, which lies between the smallest and the
    largest element. *)
Theorem averageBN_spec (array : list Z) (lo hi : Z) :
  Forall (fun x => lo <= x <= hi) array ->
  (array = [] -> averageBN array = None) /\
  (array <> [] ->
   exists avg,
     averageBN array = Some avg /\
     lo <= avg <= hi /\
     Z.abs (fold_left Z.add array 0 - avg * Z.of_nat (length array))
       < Z.of_nat (length array) /\
     Z.abs (avg * Z.of_nat (length array)) <= Z.abs (fold_left Z.add array 0)).
Proof.
  intros Hall. split; [intros ->; reflexivity |].
  intros Hne. destruct array as [| first rest] eqn:Harray; [contradiction |].
  rewrite <- Harray in *.
  assert (Hsum : averageBN array
                 = Some (Z.quot (fold_left Z.add array 0) (Z.of_nat (length array)))).
  { subst array. unfold averageBN, reduce. cbn [fold_left]. reflexivity. }
  pose proof (sum_bounds array lo hi Hall) as Hbounds.
  set (n := Z.of_nat (length array)) in *.
  set (sum := fold_left Z.add array 0) in *.
  assert (Hn : 0 < n) by (subst n array; simpl; lia).
  pose proof (Z.quot_rem' sum n) as Hqr.
  pose proof (Z.rem_bound_abs sum n ltac:(lia)) as Habs.
  pose proof (Z.rem_sign_nz sum n ltac:(lia)) as Hsign.
  exists (Z.quot sum n). split; [exact Hsum |].
  assert (Hrem : Z.abs (Z.rem sum n) < n) by lia.
  split; [split; nia |].
  split; [replace (sum - sum ÷ n * n) with (Z.rem sum n) by lia; exact Hrem |].
  pose proof (Z.mul_quot_le sum n) as Hle.
  pose proof (Z.mul_quot_ge sum n) as Hge.
  destruct (Z.le_gt_cases 0 sum).
  - specialize (Hle ltac:(lia) ltac:(lia)). lia.
  - specialize (Hge ltac:(lia) ltac:(lia)). lia.
Qed.

Lemma averageBN_spec_witness :
  exists avg, averageBN [10; 11; 14] = Some avg /\ 10 <= avg <= 14.
Proof.
  destruct (averageBN_spec [10; 11; 14] 10 14) as [_ Havg].
  - repeat constructor; lia.
  - destruct (Havg ltac:(discriminate)) as (avg & Hsome & Hrange & _).
    exists avg. split; assumption.
Defined.

Example averageBN_truncates :
  averageBN [10; 11; 14] = Some 11 /\ averageBN [-10; -11; -14] = Some (-11).
Proof. split; reflexivity. Qed.

(** ** Relay URLs for the registrar *)

Section RegistrarFacts.

Import Str.

(** *** The pieces of [url.match (/.{1,32}/g)] *)

Lemma matchPieces_chunk (text piece : list ascii) (i : nat) :
  Forall (fun c => isLineTerminator c = false) text ->
  (length piece <= 32)%nat ->
  default [] (matchPieces piece text !! i) = take 32 (drop (32 * i) (piece ++ text)).
Proof.
  intros Htext. revert piece i.
  induction Htext as [| c rest Hc _ IH]; intros piece i Hlen.
  - rewrite app_nil_r. cbn [matchPieces]. destruct piece as [| p piece'] eqn:Hp.
    + rewrite drop_nil, take_nil. reflexivity.
    + rewrite <- Hp in *. destruct i as [| j].
      * change (default [] ([piece] !! 0%nat)) with piece.
        rewrite Nat.mul_0_r, drop_0. now rewrite take_ge by exact Hlen.
      * replace (default [] ([piece] !! S j)) with (@nil ascii)
          by (destruct j; reflexivity).
        rewrite drop_ge by lia. now rewrite take_nil.
  - cbn [matchPieces]. rewrite Hc.
    destruct (Nat.eqb_spec (length piece) 32) as [Hfull | Hroom].
    + destruct i as [| j].
      * change (default [] ((piece :: matchPieces [c] rest) !! 0%nat)) with piece.
        rewrite Nat.mul_0_r, drop_0.
        rewrite take_app_le by lia. now rewrite take_ge by lia.
      * change ((piece :: matchPieces [c] rest) !! S j)
          with (matchPieces [c] rest !! j).
        rewrite IH by (simpl; lia).
        replace (32 * S j)%nat with (32 + 32 * j)%nat by lia.
        rewrite <- drop_drop, <- Hfull, drop_app_length. reflexivity.
    + rewrite IH by (rewrite length_app; simpl; lia).
      now rewrite <- app_assoc.
Qed.

(** *** Hexadecimal text of parts of a buffer *)

Lemma hexOfBytes_app (a b : list Z) : hexOfBytes (a ++ b) = hexOfBytes a ++ hexOfBytes b.
Proof. unfold hexOfBytes. apply flat_map_app. Qed.

Lemma hexOfBytes_drop (n : nat) (buffer : list Z) :
  hexOfBytes (drop n buffer) = drop (2 * n) (hexOfBytes buffer).
Proof.
  revert buffer. induction n as [| n IH]; intros [| b rest]; try reflexivity.
  replace (2 * S n)%nat with (S (S (2 * n))) by lia. cbn [skipn]. rewrite IH.
  reflexivity.
Qed.

Lemma hexOfBytes_take (n : nat) (buffer : list Z) :
  hexOfBytes (take n buffer) = take (2 * n) (hexOfBytes buffer).
Proof.
  revert buffer. induction n as [| n IH]; intros [| b rest]; try reflexivity.
  replace (2 * S n)%nat with (S (S (2 * n))) by lia.
  cbn [firstn]. change (hexOfBytes (b :: take n rest))
    with (hexDigit (b / 16) :: hexDigit (b mod 16) :: hexOfBytes (take n rest)).
  rewrite IH. reflexivity.
Qed.

Lemma bytesOfText_chunk (n m : nat) (text : list ascii) :
  bytesOfText (take n (drop m text)) = take n (drop m (bytesOfText text)).
Proof. unfold bytesOfText. now rewrite skipn_map, firstn_map. Qed.

Lemma code_byte (c : ascii) : isByte (code c).
Proof. unfold isByte, code. pose proof (nat_ascii_bounded c). lia. Qed.

Lemma bytesOfText_bytes (text : list ascii) : Forall isByte (bytesOfText text).
Proof. unfold bytesOfText. apply Forall_forall. intros b Hb.
  apply list_elem_of_In, in_map_iff in Hb as (c & <- & _). apply code_byte. Qed.

Lemma textOfBytes_bytesOfText (text : list ascii) : textOfBytes (bytesOfText text) = text.
Proof.
  unfold textOfBytes, bytesOfText. rewrite map_map.
  induction text as [| c rest IH]; [reflexivity |]. cbn [map]. rewrite IH.
  unfold code. now rewrite Nat2Z.id, ascii_nat_embedding.
Qed.

(** *** Padded words *)

Lemma padEnd_chunk (n i m : nat) (hex : list ascii) (c : ascii) :
  (length hex + m = 64 * n)%nat -> (i < n)%nat ->
  padEnd 64 c (take 64 (drop (64 * i) hex))
  = take 64 (drop (64 * i) (hex ++ replicate m c)).
Proof.
  intros Hlen Hi. unfold padEnd.
  rewrite drop_app, take_app, drop_replicate, take_replicate.
  rewrite !length_take, !length_drop. f_equal. f_equal. lia.
Qed.

Lemma concat_chunks {B} (k n : nat) (l : list B) :
  concat (map (fun i => take k (drop (k * i) l)) (seq 0 n)) = take (k * n) l.
Proof.
  induction n as [| n IH].
  - rewrite Nat.mul_0_r. reflexivity.
  - rewrite seq_S, map_app, concat_app, IH. cbn [map concat Nat.add].
    rewrite app_nil_r, take_take_drop. f_equal. lia.
Qed.

(** *** Removing the prefixes *)

Lemma replaceAll0x_cons (c : ascii) (s : list ascii) :
  head s <> Some "x"%char -> replaceAll0x (c :: s) = c :: replaceAll0x s.
Proof.
  intros Hhead. destruct (Ascii.eqb_spec c "0"%char) as [-> | Hc].
  - destruct s as [| d s]; [reflexivity |].
    assert (Hd : d <> "x"%char) by (intros ->; now apply Hhead).
    destruct d as [[] [] [] [] [] [] [] []]; try reflexivity. now contradict Hd.
  - destruct c as [[] [] [] [] [] [] [] []]; try reflexivity. now contradict Hc.
Qed.

Lemma replaceAll0x_body (body rest : list ascii) :
  Forall (fun c => c <> "x"%char) body -> head rest <> Some "x"%char ->
  replaceAll0x (body ++ rest) = body ++ replaceAll0x rest.
Proof.
  intros Hbody Hrest. induction Hbody as [| c body Hc Hbody IH]; [reflexivity |].
  rewrite <- app_comm_cons, replaceAll0x_cons, IH; [reflexivity |].
  destruct Hbody as [| d body' Hd _]; [exact Hrest |].
  simpl. congruence.
Qed.

Lemma replaceAll0x_words {I} (body : I -> list ascii) (indices : list I) :
  (forall i, Forall (fun c => c <> "x"%char) (body i)) ->
  replaceAll0x (concat (map (fun i => chars "0x" ++ body i) indices))
  = concat (map body indices).
Proof.
  intros Hbody. induction indices as [| i rest IH]; [reflexivity |].
  cbn [map concat]. rewrite <- app_assoc.
  change (chars "0x" ++ ?s) with ("0"%char :: "x"%char :: s).
  change (replaceAll0x ("0"%char :: "x"%char :: ?s)) with (replaceAll0x s).
  rewrite replaceAll0x_body, IH; [reflexivity | apply Hbody |].
  destruct rest; simpl; [| unfold chars]; discriminate.
Qed.

Lemma hexDigit_not_x (d : Z) : 0 <= d < 16 -> hexDigit d <> "x"%char.
Proof.
  intros H. apply nibble_cases in H.
  assert (Hall : forallb (fun d => negb (Ascii.eqb (hexDigit d) "x")) (seqZ 0 16) = true)
    by (vm_compute; reflexivity).
  rewrite forallb_forall in Hall. apply list_elem_of_In, Hall in H.
  intros Heq. rewrite Heq in H. discriminate.
Qed.

Lemma hexDigit_zero (d : Z) : 0 <= d < 16 -> hexDigit d = "0"%char -> d = 0.
Proof.
  intros H. apply nibble_cases in H.
  assert (Hall : forallb (fun d => implb (Ascii.eqb (hexDigit d) "0") (d =? 0))
                         (seqZ 0 16) = true)
    by (vm_compute; reflexivity).
  rewrite forallb_forall in Hall. apply list_elem_of_In, Hall in H.
  intros Heq. rewrite Heq in H. simpl in H. now apply Z.eqb_eq.
Qed.

Lemma hexOfBytes_not_x (buffer : list Z) :
  Forall isByte buffer -> Forall (fun c => c <> "x"%char) (hexOfBytes buffer).
Proof.
  induction 1 as [| b rest Hb _ IH]; [constructor |].
  destruct (byte_nibbles b Hb) as (Hhi & Hlo & _).
  change (hexOfBytes (b :: rest))
    with (hexDigit (b / 16) :: hexDigit (b mod 16) :: hexOfBytes rest).
  constructor; [now apply hexDigit_not_x |].
  constructor; [now apply hexDigit_not_x | exact IH].
Qed.

(** *** Removing the padding *)

Lemma leadingZeros_cons (c : ascii) (s : list ascii) :
  leadingZeros (c :: s) = if Ascii.eqb c "0" then S (leadingZeros s) else O.
Proof. destruct c as [[] [] [] [] [] [] [] []]; reflexivity. Qed.

Lemma leadingZeros_replicate (m : nat) (s : list ascii) :
  leadingZeros (replicate m "0"%char ++ s) = (m + leadingZeros s)%nat.
Proof. induction m as [| m IH]; [reflexivity |]. simpl. now rewrite IH. Qed.

Lemma trailingZeros_hexOfBytes (buffer : list Z) :
  Forall isByte buffer -> (forall b, last buffer = Some b -> b <> 0) ->
  (trailingZeros (hexOfBytes buffer) <= 1)%nat.
Proof.
  intros Hbytes Hlast. unfold trailingZeros.
  destruct (last buffer) as [b |] eqn:Hb.
  - apply last_Some in Hb as [front ->].
    apply Forall_app in Hbytes as [_ Hb]. apply Forall_inv in Hb.
    destruct (byte_nibbles b Hb) as (Hhi & Hlo & Hsum).
    rewrite hexOfBytes_app, reverse_app.
    change (hexOfBytes [b]) with [hexDigit (b / 16); hexDigit (b mod 16)].
    change (reverse [hexDigit (b / 16); hexDigit (b mod 16)])
      with [hexDigit (b mod 16); hexDigit (b / 16)].
    cbn [app]. rewrite !leadingZeros_cons.
    destruct (Ascii.eqb_spec (hexDigit (b mod 16)) "0") as [Hz1 |]; [| lia].
    destruct (Ascii.eqb_spec (hexDigit (b / 16)) "0") as [Hz2 |]; [| lia].
    apply hexDigit_zero in Hz1, Hz2; try assumption.
    exfalso. apply (Hlast b); [reflexivity | lia].
  - apply last_None in Hb as ->. simpl. lia.
Qed.

Lemma stripTrailing00_padding (hex : list ascii) (p : nat) :
  (trailingZeros hex <= 1)%nat ->
  stripTrailing00 (hex ++ replicate (2 * p) "0"%char) = hex.
Proof.
  intros Hzeros. unfold stripTrailing00, trailingZeros in *.
  rewrite reverse_app, reverse_replicate, leadingZeros_replicate.
  rewrite length_app, length_replicate.
  replace ((2 * p + leadingZeros (reverse hex)) / 2)%nat with p.
  - replace (length hex + 2 * p - 2 * p)%nat with (length hex) by lia.
    apply take_app_length.
  - apply Nat.div_unique with (r := leadingZeros (reverse hex)); lia.
Qed.

(** *** The round trip *)

Lemma split_pack (url : list ascii) (partsCount : nat) :
  Forall (fun c => isLineTerminator c = false) url ->
  (forall c, last url = Some c -> code c <> 0) ->
  (length url <= 32 * partsCount)%nat ->
  packRelayUrlForRegistrar
    (map (fun i => registrarWord (default [] (matchPieces [] url !! i)))
         (seq 0 partsCount))
  = url.
Proof.
  intros Hline Hlast Hfit. unfold packRelayUrlForRegistrar.
  set (hex := hexOfBytes (bytesOfText url)).
  set (m := (64 * partsCount - length hex)%nat).
  assert (Hhex : length hex = (2 * length url)%nat).
  { unfold hex, bytesOfText. now rewrite length_hexOfBytes, length_map. }
  assert (Hwords :
            map (fun i => registrarWord (default [] (matchPieces [] url !! i)))
                (seq 0 partsCount)
            = map (fun i => chars "0x"
                              ++ take 64 (drop (64 * i) (hex ++ replicate m "0"%char)))
                  (seq 0 partsCount)).
  { apply map_ext_in. intros i Hi. apply in_seq in Hi. unfold registrarWord. f_equal.
    rewrite matchPieces_chunk by (auto; simpl; lia). cbn [app].
    rewrite bytesOfText_chunk, hexOfBytes_take, hexOfBytes_drop.
    replace (2 * 32)%nat with 64%nat by reflexivity.
    replace (2 * (32 * i))%nat with (64 * i)%nat by lia.
    fold hex. apply (padEnd_chunk partsCount); unfold m; lia. }
  rewrite Hwords.
  assert (Hx : Forall (fun c => c <> "x"%char) (hex ++ replicate m "0"%char)).
  { apply Forall_app. split.
    - apply hexOfBytes_not_x, bytesOfText_bytes.
    - apply Forall_replicate. discriminate. }
  rewrite (replaceAll0x_words
             (fun i => take 64 (drop (64 * i) (hex ++ replicate m "0"%char))))
    by (intros i; apply Forall_take, Forall_drop, Hx).
  rewrite concat_chunks, take_ge by (rewrite length_app, length_replicate; unfold m; lia).
  replace m with (2 * (32 * partsCount - length url))%nat by (unfold m; lia).
  rewrite stripTrailing00_padding.
  - unfold hex. rewrite bytesOfHex_hexOfBytes by apply bytesOfText_bytes.
    apply textOfBytes_bytesOfText.
  - apply trailingZeros_hexOfBytes; [apply bytesOfText_bytes |].
    intros b Hb. unfold bytesOfText in Hb.
    change (last (map code url)) with (last (code <$> url)) in Hb.
    rewrite fmap_last in Hb. destruct (last url) as [c |] eqn:Hc; [| discriminate].
    injection Hb as <-. now apply Hlast.
Qed.

(** X13. [splitRelayUrlForRegistrar] throws exactly when the URL has more
    than [32 * partsCount] characters.  For an ASCII URL that fits, has no
    line break and does not end in a NUL character, it returns [partsCount]
    words of 66 characters, and [packRelayUrlForRegistrar] gives the URL
    back from them. *)
Theorem relayUrl_round_trip (url : list ascii) (partsCount : nat) :
  (splitRelayUrlForRegistrar url partsCount = None <->
   (32 * partsCount < length url)%nat) /\
  (Forall isAscii url ->
   Forall (fun c => isLineTerminator c = false) url ->
   (forall c, last url = Some c -> code c <> 0) ->
   (length url <= 32 * partsCount)%nat ->
   exists parts,
     splitRelayUrlForRegistrar url partsCount = Some parts /\
     length parts = partsCount /\
     Forall (fun word => length word = 66%nat) parts /\
     packRelayUrlForRegistrar parts = url).
Proof.
  unfold splitRelayUrlForRegistrar. split.
  - destruct (Nat.ltb_spec (32 * partsCount) (length url)); split;
      try reflexivity; try discriminate; lia.
  - intros _ Hline Hlast Hfit.
    destruct (Nat.ltb_spec (32 * partsCount) (length url)); [lia |].
    eexists. split; [reflexivity |].
    split; [now rewrite length_map, length_seq |].
    split; [| now apply split_pack].
    apply Forall_forall. intros word Hword.
    apply list_elem_of_In, in_map_iff in Hword as (i & <- & Hi). apply in_seq in Hi.
    unfold registrarWord, padEnd.
    rewrite matchPieces_chunk by (auto; simpl; lia). cbn [app].
    rewrite !length_app, length_replicate, length_hexOfBytes.
    unfold bytesOfText. rewrite length_map, length_take.
    change (length (chars "0x")) with 2%nat. lia.
Qed.

End RegistrarFacts.

Lemma relayUrl_round_trip_witness :
  exists parts,
    splitRelayUrlForRegistrar (Str.chars "https://relay.example.com:8090/gsn1/p0") 3
    = Some parts /\
    packRelayUrlForRegistrar parts = Str.chars "https://relay.example.com:8090/gsn1/p0".
Proof.
  destruct (relayUrl_round_trip (Str.chars "https://relay.example.com:8090/gsn1/p0") 3)
    as [_ Hround].
  destruct Hround as (parts & Hsplit & _ & _ & Hpack).
  - apply Forall_forall. intros c Hc. unfold Str.isAscii.
    repeat (apply elem_of_cons in Hc as [-> | Hc]; [vm_compute; reflexivity |]).
    now apply elem_of_nil in Hc.
  - repeat constructor.
  - intros c Hc. vm_compute in Hc. injection Hc as <-. discriminate.
  - simpl. lia.
  - exists parts. split; assumption.
Defined.

(** Outside these conditions the URL does not come back: a line break is
    lost and splits a word, a NUL character at the end is dropped. *)
Example relayUrl_line_break :
  exists parts,
    splitRelayUrlForRegistrar ["a"; "010"; "b"]%char 3 = Some parts /\
    length (packRelayUrlForRegistrar parts) = 33%nat.
Proof. eexists. split; reflexivity. Qed.

Example relayUrl_final_NUL :
  exists parts,
    splitRelayUrlForRegistrar ["a"; "000"]%char 3 = Some parts /\
    packRelayUrlForRegistrar parts = ["a"]%char.
Proof. eexists. split; reflexivity. Qed.

(** ** Relay request identifiers *)

Lemma replacePrefix_applies (n : nat) (by_ s : list ascii) :
  (n <= length s)%nat -> Forall (fun c => isLineTerminator c = false) (take n s) ->
  replacePrefix n by_ s = by_ ++ drop n s.
Proof.
  intros Hlen Hline. unfold replacePrefix.
  replace (n <=? length s)%nat with true by (symmetry; now apply Nat.leb_le).
  replace (forallb _ (take n s)) with true; [reflexivity |].
  symmetry. apply forallb_forall. intros c Hc.
  rewrite Forall_forall in Hline. rewrite (Hline c); [reflexivity |].
  now apply list_elem_of_In.
Qed.

(** X14. For a hash of at most 64 hexadecimal digits after [0x], the relay
    request ID is [0x], eight zeros, and the hash, padded to 64 digits,
    without its first eight digits: 66 characters in all. *)
Theorem getRelayRequestID_spec {Request : Type}
    (hashOf : Request -> list ascii -> list ascii)
    (relayRequest : Request) (signature digits : list ascii) :
  hashOf relayRequest signature = Str.chars "0x" ++ digits ->
  (length digits <= 64)%nat ->
  Forall (fun c => Str.isLineTerminator c = false) digits ->
  getRelayRequestID hashOf relayRequest signature
  = Str.chars "0x00000000" ++ drop 8 (Str.padStart 64 "0"%char digits) /\
  length (getRelayRequestID hashOf relayRequest signature) = 66%nat.
Proof.
  intros Hhash Hlen Hline. unfold getRelayRequestID, relayRequestIdOfHash.
  rewrite Hhash.
  change (removeHexPrefix (chars "0x" ++ digits)) with digits.
  assert (Hraw : length (padStart 64 "0"%char digits) = 64%nat)
    by (unfold padStart; rewrite length_app, length_replicate; lia).
  rewrite replacePrefix_applies.
  - split; [reflexivity |].
    rewrite !length_app, length_drop, Hraw. reflexivity.
  - lia.
  - apply Forall_take. unfold padStart. apply Forall_app. split; [| exact Hline].
    apply Forall_replicate. reflexivity.
Qed.

Lemma getRelayRequestID_spec_witness :
  getRelayRequestID
    (fun (_ : unit) (_ : list ascii) =>
       Str.chars "0x9f3ab1c27d55e0846bb2a1d0c3e4f5061728394a5b6c7d8e9fa0b1c2d3e4f506")
    tt (Str.chars "0x1b")
  = Str.chars "0x000000007d55e0846bb2a1d0c3e4f5061728394a5b6c7d8e9fa0b1c2d3e4f506".
Proof.
  apply (getRelayRequestID_spec
           (fun (_ : unit) (_ : list ascii) =>
              Str.chars "0x9f3ab1c27d55e0846bb2a1d0c3e4f5061728394a5b6c7d8e9fa0b1c2d3e4f506")
           tt (Str.chars "0x1b")
           (Str.chars "9f3ab1c27d55e0846bb2a1d0c3e4f5061728394a5b6c7d8e9fa0b1c2d3e4f506")).
  - reflexivity.
  - simpl. lia.
  - repeat constructor.
Defined.

(** ** ERC-165 interface identifiers *)

Lemma toInt32_mod (x : Z) : toInt32 x mod 2 ^ 32 = x mod 2 ^ 32.
Proof.
  unfold toInt32. rewrite Zminus_mod_idemp_l. f_equal. lia.
Qed.

Lemma toInt32_eq (x y : Z) : x mod 2 ^ 32 = y mod 2 ^ 32 -> toInt32 x = toInt32 y.
Proof.
  intros H. unfold toInt32.
  rewrite <- (Zplus_mod_idemp_l x), <- (Zplus_mod_idemp_l y), H. reflexivity.
Qed.

Lemma lxor_mod (a b : Z) :
  Z.lxor a b mod 2 ^ 32 = Z.lxor (a mod 2 ^ 32) (b mod 2 ^ 32).
Proof.
  apply Z.bits_inj'. intros n Hn. destruct (Z.lt_ge_cases n 32).
  - rewrite Z.mod_pow2_bits_low, !Z.lxor_spec, !Z.mod_pow2_bits_low by lia.
    reflexivity.
  - rewrite Z.mod_pow2_bits_high, Z.lxor_spec, !Z.mod_pow2_bits_high by lia.
    reflexivity.
Qed.

Lemma lxor_selector (a b : Z) : isSelector a -> isSelector b -> isSelector (Z.lxor a b).
Proof.
  unfold isSelector. intros Ha Hb.
  rewrite <- (Z.mod_small a (2 ^ 32)), <- (Z.mod_small b (2 ^ 32)), <- lxor_mod by lia.
  apply Z.mod_pos_bound. lia.
Qed.

Lemma bitXor_toInt32_l (acc y : Z) :
  bitXor (toInt32 acc) y = toInt32 (Z.lxor acc y).
Proof.
  unfold bitXor. apply toInt32_eq.
  rewrite lxor_mod, !toInt32_mod, <- lxor_mod. reflexivity.
Qed.

Lemma bitXor_lxor (x y : Z) : bitXor x y = toInt32 (Z.lxor x y).
Proof.
  unfold bitXor. apply toInt32_eq.
  rewrite lxor_mod, !toInt32_mod, <- lxor_mod. reflexivity.
Qed.

Lemma fold_left_bitXor (rest : list Z) (acc : Z) :
  fold_left bitXor rest (toInt32 acc) = toInt32 (Z.lxor acc (foldr Z.lxor 0 rest)).
Proof.
  revert acc. induction rest as [| y rest IH]; intros acc; cbn [fold_left foldr].
  - now rewrite Z.lxor_0_r.
  - rewrite bitXor_toInt32_l, IH, Z.lxor_assoc. reflexivity.
Qed.

Lemma xorAll_selector (selectors : list Z) :
  Forall isSelector selectors -> isSelector (foldr Z.lxor 0 selectors).
Proof.
  induction 1 as [| x rest Hx _ IH]; cbn [foldr].
  - unfold isSelector. lia.
  - now apply lxor_selector.
Qed.

Lemma xorAll_Permutation (l l' : list Z) :
  l ≡ₚ l' -> foldr Z.lxor 0 l = foldr Z.lxor 0 l'.
Proof.
  induction 1 as [| x l l' _ IH | x y l | l l' l'' _ IH1 _ IH2]; cbn [foldr].
  - reflexivity.
  - now rewrite IH.
  - rewrite <- !Z.lxor_assoc, (Z.lxor_comm y x). reflexivity.
  - congruence.
Qed.

Lemma signed_to_unsigned (u : Z) :
  isSelector u ->
  (if toInt32 u >? 0 then toInt32 u else 4294967295 + toInt32 u + 1)
  = if u =? 0 then 2 ^ 32 else u.
Proof.
  unfold isSelector, toInt32. change (2 ^ 32) with 4294967296.
  change (2 ^ 31) with 2147483648. intros Hu.
  destruct (Z.eqb_spec u 0) as [-> | Hnz]; [reflexivity |].
  destruct (Z.lt_ge_cases u 2147483648).
  - rewrite Z.mod_small by lia.
    destruct (Z.gtb_spec (u + 2147483648 - 2147483648) 0); lia.
  - replace ((u + 2147483648) mod 4294967296) with (u - 2147483648).
    + destruct (Z.gtb_spec (u - 2147483648 - 2147483648) 0); lia.
    + apply Z.mod_unique with (q := 1); lia.
Qed.

Lemma interfaceIdOfSelectors_value (selectors : list Z) :
  selectors <> [] -> Forall isSelector selectors ->
  interfaceIdOfSelectors selectors
  = Some (if foldr Z.lxor 0 selectors =? 0 then 2 ^ 32 else foldr Z.lxor 0 selectors).
Proof.
  intros Hne Hall. pose proof (xorAll_selector selectors Hall) as Hxor.
  destruct selectors as [| first [| second rest]]; [contradiction | |].
  - unfold interfaceIdOfSelectors, reduce. cbn [fold_left foldr] in *.
    rewrite Z.lxor_0_r in *. f_equal.
    unfold isSelector in Hxor. change (2 ^ 32) with 4294967296 in *.
    destruct (Z.eqb_spec first 0) as [-> | Hnz]; [reflexivity |].
    destruct (Z.gtb_spec first 0); lia.
  - unfold interfaceIdOfSelectors, reduce. cbn [fold_left].
    rewrite bitXor_lxor, fold_left_bitXor. f_equal.
    rewrite Z.lxor_assoc. exact (signed_to_unsigned _ Hxor).
Qed.

(** X15. The identifier [getERC165InterfaceID] computes from the selectors
    of an ABI is their exclusive or, as an unsigned 32-bit number, but
    [2 ^ 32] when the exclusive or is zero; it does not depend on the order
    of the functions.  Without any function the reduction throws. *)
Theorem interfaceIdOfSelectors_spec (selectors : list Z) :
  (selectors = [] -> interfaceIdOfSelectors selectors = None) /\
  (selectors <> [] -> Forall isSelector selectors ->
   interfaceIdOfSelectors selectors
   = Some (if foldr Z.lxor 0 selectors =? 0 then 2 ^ 32 else foldr Z.lxor 0 selectors) /\
   forall selectors',
     selectors ≡ₚ selectors' ->
     interfaceIdOfSelectors selectors' = interfaceIdOfSelectors selectors).
Proof.
  split; [intros ->; reflexivity |].
  intros Hne Hall. split; [now apply interfaceIdOfSelectors_value |].
  intros selectors' Hperm.
  assert (Hne' : selectors' <> [])
    by (intros ->; apply Permutation_nil_r in Hperm; contradiction).
  assert (Hall' : Forall isSelector selectors') by (rewrite <- Hperm; exact Hall).
  rewrite (interfaceIdOfSelectors_value _ Hne Hall),
    (interfaceIdOfSelectors_value _ Hne' Hall'), (xorAll_Permutation _ _ Hperm).
  reflexivity.
Qed.

Lemma interfaceIdOfSelectors_spec_witness :
  interfaceIdOfSelectors [2835717307; 157198259; 3714247998]
  = Some (foldr Z.lxor 0 [2835717307; 157198259; 3714247998]).
Proof.
  destruct (interfaceIdOfSelectors_spec [2835717307; 157198259; 3714247998])
    as [_ Hvalue].
  destruct Hvalue as [Hvalue _]; [discriminate | | exact Hvalue].
  repeat constructor; unfold isSelector; lia.
Defined.

(** Selectors that cancel give an identifier of nine digits, which is not
    four bytes. *)
Example interfaceId_of_cancelling_selectors :
  option_map interfaceIdText (interfaceIdOfSelectors [1; 2; 3])
  = Some (Str.chars "0x100000000").
Proof. reflexivity. Qed.

(** ** [removeNullValues] *)

Lemma value_nested_ind (P : value -> Prop) :
  P Null -> P Undefined -> (forall text, P (Primitive text)) ->
  (forall n, P (BigNumber n)) -> (forall items, P (Array items)) ->
  (forall fields, Forall (fun kv => P (snd kv)) fields -> P (Object fields)) ->
  forall val, P val.
Proof.
  intros HNull HUndefined HPrimitive HBig HArray HObject.
  fix IH 1. intros [| | text | n | items | fields].
  - exact HNull.
  - exact HUndefined.
  - apply HPrimitive.
  - apply HBig.
  - apply HArray.
  - apply HObject. induction fields as [| [k val] rest IHrest]; constructor.
    + apply IH.
    + exact IHrest.
Qed.

Lemma removeNullFields_keeps_no_null (descend : value -> value)
      (c : list (string * value)) :
  (forall val, isNullish val = false -> isNullish (descend val) = false) ->
  Forall (fun kv => isNullish (snd kv) = false) (removeNullFields descend c).
Proof.
  intros Hdescend. induction c as [| [k val] rest IH]; cbn [removeNullFields].
  - constructor.
  - destruct (isNullish val) eqn:Hval; [exact IH |].
    constructor; [now apply Hdescend | exact IH].
Qed.

Lemma removeNullFields_keys (descend : value -> value) (c : list (string * value)) :
  map fst (removeNullFields descend c)
  = map fst (List.filter (fun kv => negb (isNullish (snd kv))) c).
Proof.
  induction c as [| [k val] rest IH]; cbn [removeNullFields List.filter snd].
  - reflexivity.
  - destruct (isNullish val); cbn [negb map fst]; now rewrite IH.
Qed.

Lemma removeNullFields_id (c : list (string * value)) :
  removeNullFields id c = List.filter (fun kv => negb (isNullish (snd kv))) c.
Proof.
  induction c as [| [k val] rest IH]; cbn [removeNullFields List.filter snd].
  - reflexivity.
  - destruct (isNullish val); cbn [negb]; now rewrite IH.
Qed.

Lemma removeNullFields_fixed (descend : value -> value) (c : list (string * value)) :
  Forall (fun kv => isNullish (snd kv) = false /\ descend (snd kv) = snd kv) c ->
  removeNullFields descend c = c.
Proof.
  induction 1 as [| [k val] rest [Hval Hsame] _ IH]; cbn [removeNullFields].
  - reflexivity.
  - cbn [snd] in *. now rewrite Hval, Hsame, IH.
Qed.

Lemma removeNullValuesIn_not_nullish (val : value) :
  isNullish val = false -> isNullish (removeNullValuesIn val) = false.
Proof. destruct val; auto. Qed.

Lemma removeNullValuesIn_nullFree (val : value) :
  nullFree (removeNullValuesIn val) = true.
Proof.
  induction val as [| | text | n | items | fields IH] using value_nested_ind;
    try reflexivity.
  cbn [removeNullValuesIn nullFree].
  induction IH as [| [k val] rest Hval _ IHrest]; [reflexivity |].
  cbn [removeNullFields]. destruct (isNullish val) eqn:Hnull; [exact IHrest |].
  cbn [forallb snd]. rewrite IHrest, removeNullValuesIn_not_nullish by exact Hnull.
  cbn [snd] in Hval. now rewrite Hval.
Qed.

Lemma removeNullValuesIn_fixed (val : value) :
  nullFree val = true -> removeNullValuesIn val = val.
Proof.
  induction val as [| | text | n | items | fields IH] using value_nested_ind;
    try reflexivity.
  cbn [removeNullValuesIn nullFree]. intros Hfree. f_equal.
  apply removeNullFields_fixed.
  rewrite forallb_forall in Hfree. rewrite Forall_forall in IH |- *.
  intros kv Hkv. specialize (Hfree kv (proj1 (list_elem_of_In _ _) Hkv)).
  apply andb_prop in Hfree as [Hnull Hdeep].
  split; [now apply negb_true_iff | now apply IH].
Qed.

(** X16. [removeNullValues] keeps, in order, the keys whose value is
    neither null nor undefined, and no kept value is null or undefined.
    Without [recursive] the values are the ones of [obj]; with it no
    object below has such a field either, while arrays are left alone.
    Cleaning twice is cleaning once, and an object without such fields
    comes back as it was. *)
Theorem removeNullValues_spec (obj : list (string * value)) (recursive : bool) :
  Forall (fun kv => isNullish (snd kv) = false) (removeNullValues obj recursive) /\
  map fst (removeNullValues obj recursive)
  = map fst (List.filter (fun kv => negb (isNullish (snd kv))) obj) /\
  removeNullValues (removeNullValues obj recursive) recursive
  = removeNullValues obj recursive /\
  (recursive = false ->
   removeNullValues obj recursive
   = List.filter (fun kv => negb (isNullish (snd kv))) obj) /\
  (recursive = true -> nullFree (Object (removeNullValues obj recursive)) = true) /\
  (nullFree (Object obj) = true -> removeNullValues obj recursive = obj).
Proof.
  assert (Hfree : nullFree (Object (removeNullValues obj true)) = true)
    by apply (removeNullValuesIn_nullFree (Object obj)).
  assert (Hkeep : forall o, nullFree (Object o) = true -> removeNullValues o recursive = o).
  { intros o Ho. unfold removeNullValues. apply removeNullFields_fixed.
    cbn [nullFree] in Ho. rewrite forallb_forall in Ho. apply Forall_forall.
    intros kv Hkv. specialize (Ho kv (proj1 (list_elem_of_In _ _) Hkv)).
    apply andb_prop in Ho as [Hnull Hdeep]. split; [now apply negb_true_iff |].
    destruct recursive; [now apply removeNullValuesIn_fixed | reflexivity]. }
  split; [| split; [| split; [| split; [| split]]]].
  - unfold removeNullValues. apply removeNullFields_keeps_no_null.
    destruct recursive; [apply removeNullValuesIn_not_nullish | auto].
  - apply removeNullFields_keys.
  - destruct recursive.
    + now apply Hkeep.
    + unfold removeNullValues. rewrite !removeNullFields_id. clear Hfree Hkeep.
      induction obj as [| [k val] rest IH]; [reflexivity |].
      cbn [List.filter snd]. destruct (isNullish val) eqn:Hval; cbn [negb]; [exact IH |].
      cbn [List.filter snd]. rewrite Hval. cbn [negb]. now rewrite IH.
  - intros ->. apply removeNullFields_id.
  - intros ->. exact Hfree.
  - apply Hkeep.
Qed.

Lemma removeNullValues_spec_witness :
  nullFree
    (Object (removeNullValues
               [("a", Null); ("b", Object [("c", Undefined); ("d", BigNumber 1)]);
                ("e", Array [Null])]%string true))
  = true.
Proof.
  destruct (removeNullValues_spec
              [("a", Null); ("b", Object [("c", Undefined); ("d", BigNumber 1)]);
               ("e", Array [Null])]%string true)
    as (_ & _ & _ & _ & Hfree & _).
  apply Hfree. reflexivity.
Defined.

(** A null inside an array stays, also with [recursive]; without it, so
    does a null field of an inner object. *)
Example removeNullValues_depth :
  removeNullValues
    [("a", Null); ("b", Object [("c", Undefined); ("d", BigNumber 1)]);
     ("e", Array [Null])]%string true
  = [("b", Object [("d", BigNumber 1)]); ("e", Array [Null])]%string /\
  removeNullValues
    [("a", Null); ("b", Object [("c", Undefined); ("d", BigNumber 1)]);
     ("e", Array [Null])]%string false
  = [("b", Object [("c", Undefined); ("d", BigNumber 1)]); ("e", Array [Null])]%string.
Proof. split; reflexivity. Qed.
